(** * abipy.electrons.gw: quasi-particle lists, scissors construction and
      the guards of the k-space interpolation

    A shallow embedding of the parts of [abipy/electrons/gw.py] that organise
    GW results: the [QPState] record, the [QPList] container ([copy],
    [sort_by_e0], [get_e0mesh], [get_qpeme0], [merge], [build_scissors]) and
    the control flow of [SigresFile.interpolate].

    Conventions of the embedding.
    - Energies are exact numbers: [Z], in a fixed unit.  Rounding, infinities
      and NaN of Python floats are outside the model.  A complex number is a
      pair of such numbers.
    - A Python function that can raise returns [res A = exn + A].
    - [Kpoint] (abipy.core.kpoints) and the crystal [Structure] are not part
      of the sources read here; they enter as type parameters that come with
      the boolean comparison Python's [==] performs on them.
    - The spline fitter (scipy's [UnivariateSpline]) enters as an interface;
      [build_scissors] is run in a monad that records every call made to the
      fitter, so that "before any fit" can be stated.
    - [QPList] objects live in a store when identity matters ([merge] and
      [sort_by_e0] return new objects and leave their operands alone). *)

From Stdlib Require Import String ZArith List Bool Lia Sorted Permutation.
Import ListNotations.
Open Scope Z_scope.

(** ** Exceptions *)

(** Equality of two k-points, as Python's [==] on [Kpoint] objects. *)
Class KpointEq (K : Type) := kpt_eq : K -> K -> bool.

(** Inequality test of two crystal structures, read through [==]. *)
Class StructureEq (S : Type) := structure_eq : S -> S -> bool.

(** The value substituted for the [%s] / [%d] of a message. *)
Inductive fmtarg (K : Type) : Type :=
| NoArg
| ArgNum (x : Z)
| ArgSkb (key : Z * K * Z).
Arguments NoArg {K}.
Arguments ArgNum {K} x.
Arguments ArgSkb {K} key.

(** The exceptions that the modelled code raises.  [ValueError] keeps the
    format string of the source and its argument. *)
Inductive exn (K : Type) : Type :=
| ValueError (fmt : string) (arg : fmtarg K)
| IndexError
| NameError (name : string)
| AttributeError (attr : string)
| KpointsError
| ExternalError.
Arguments ValueError {K} fmt arg.
Arguments IndexError {K}.
Arguments NameError {K} name.
Arguments AttributeError {K} attr.
Arguments KpointsError {K}.
Arguments ExternalError {K}.

Definition res (K A : Type) : Type := (exn K + A)%type.

Definition res_ret {K A : Type} (a : A) : res K A := inr a.
Definition res_raise {K A : Type} (e : exn K) : res K A := inl e.
Definition res_bind {K A B : Type} (m : res K A) (f : A -> res K B) : res K B :=
  match m with
  | inl e => inl e
  | inr a => f a
  end.

Declare Scope res_scope.
Delimit Scope res_scope with res.
Notation "x <- m ;; k" := (res_bind m (fun x => k))
  (at level 100, m at next level, right associativity) : res_scope.
Notation "'guard' m ;; k" := (res_bind m (fun _ : unit => k))
  (at level 100, m at next level, right associativity) : res_scope.

Definition is_ok {K A : Type} (r : res K A) : bool :=
  match r with inr _ => true | inl _ => false end.

(** ** Python sequences *)

Section Sequences.
Context {A : Type}.

(** [a[i]] for a list or a one-dimensional array: a negative index counts
    from the end, an index out of range raises IndexError ([None]). *)
Definition getitem (a : list A) (i : Z) : option A :=
  let n := Z.of_nat (length a) in
  let j := if i <? 0 then i + n else i in
  if (0 <=? j) && (j <? n) then nth_error a (Z.to_nat j) else None.

(** [a[i] = v] on a list, with the same index rules. *)
Fixpoint set_nth (a : list A) (n : nat) (v : A) : list A :=
  match a, n with
  | [], _ => []
  | _ :: t, O => v :: t
  | x :: t, S m => x :: set_nth t m v
  end.

Definition setitem (a : list A) (i : Z) (v : A) : option (list A) :=
  let n := Z.of_nat (length a) in
  let j := if i <? 0 then i + n else i in
  if (0 <=? j) && (j <? n) then Some (set_nth a (Z.to_nat j) v) else None.

(** [a[start:stop]] for indices that are not negative. *)
Definition slice (a : list A) (start stop : nat) : list A :=
  skipn start (firstn stop a).

(** [sorted(l, key=key)]: Python's sort is stable, and the result of a
    stable sort is determined by the input; insertion from the right
    computes it.  An element goes in front of the later elements whose key
    is equal. *)
Fixpoint insert_by (key : A -> Z) (x : A) (l : list A) : list A :=
  match l with
  | [] => [x]
  | y :: t => if key x <=? key y then x :: y :: t else y :: insert_by key x t
  end.

Fixpoint sorted (key : A -> Z) (l : list A) : list A :=
  match l with
  | [] => []
  | x :: t => insert_by key x (sorted key t)
  end.
End Sequences.

(** ** The bisect module and monty.bisect

    [find_ge] and [find_le] are imported from monty, which builds them on the
    standard [bisect] module.  Neither is part of the sources; the loops
    below follow the library code.  The fuel is the length of the array, an
    upper bound on the number of halvings. *)

Fixpoint bisect_left_loop (fuel : nat) (a : list Z) (x : Z) (lo hi : nat) : nat :=
  if (lo <? hi)%nat then
    match fuel with
    | O => lo
    | S fuel' =>
        let mid := ((lo + hi) / 2)%nat in
        if nth mid a 0 <? x
        then bisect_left_loop fuel' a x (mid + 1)%nat hi
        else bisect_left_loop fuel' a x lo mid
    end
  else lo.

Fixpoint bisect_right_loop (fuel : nat) (a : list Z) (x : Z) (lo hi : nat) : nat :=
  if (lo <? hi)%nat then
    match fuel with
    | O => lo
    | S fuel' =>
        let mid := ((lo + hi) / 2)%nat in
        if x <? nth mid a 0
        then bisect_right_loop fuel' a x lo mid
        else bisect_right_loop fuel' a x (mid + 1)%nat hi
    end
  else lo.

Definition bisect_left (a : list Z) (x : Z) : nat :=
  bisect_left_loop (length a) a x 0%nat (length a).

Definition bisect_right (a : list Z) (x : Z) : nat :=
  bisect_right_loop (length a) a x 0%nat (length a).

(** monty raises a bare [ValueError] when nothing is found. *)
Definition find_ge {K : Type} (a : list Z) (x : Z) : res K nat :=
  let i := bisect_left a x in
  if negb (i =? length a)%nat then inr i else inl (ValueError EmptyString NoArg).

Definition find_le {K : Type} (a : list Z) (x : Z) : res K nat :=
  let i := bisect_right a x in
  if negb (i =? 0)%nat then inr (i - 1)%nat else inl (ValueError EmptyString NoArg).

(** ** QPState *)

Record complex : Type := mkComplex { re : Z; im : Z }.

(** [c - x] for a complex [c] and a real [x]. *)
Definition complex_sub_real (c : complex) (x : Z) : complex :=
  mkComplex (re c - x) (im c).

Section QuasiParticles.
Context {K : Type} {KE : KpointEq K}.

(** The named tuple "spin kpoint band e0 qpe qpe_diago vxcme sigxme
    sigcmee0 vUme ze0". *)
Record QPState : Type := mkQPState {
  spin : Z;
  kpoint : K;
  band : Z;
  e0 : Z;
  qpe : complex;
  qpe_diago : Z;
  vxcme : complex;
  sigxme : complex;
  sigcmee0 : complex;
  vUme : complex;
  ze0 : complex
}.

(** E_QP - E_0 *)
Definition qpeme0 (qp : QPState) : complex :=
  complex_sub_real (qpe qp) (e0 qp).

(** Tuple with (spin, kpoint, band) *)
Definition skb (qp : QPState) : Z * K * Z :=
  (spin qp, kpoint qp, band qp).

(** [==] on two such tuples: item by item, left to right. *)
Definition skb_eqb (a b : Z * K * Z) : bool :=
  let '(s1, k1, b1) := a in
  let '(s2, k2, b2) := b in
  (s1 =? s2) && kpt_eq k1 k2 && (b1 =? b2).

(** [QPState.copy]: a record rebuilt from copies of the fields. *)
Definition QPState_copy (qp : QPState) : QPState :=
  mkQPState (spin qp) (kpoint qp) (band qp) (e0 qp) (qpe qp) (qpe_diago qp)
            (vxcme qp) (sigxme qp) (sigcmee0 qp) (vUme qp) (ze0 qp).

(** ** QPList *)

(** A list of records that carries the attribute [is_e0sorted]. *)
Record QPList : Type := mkQPList {
  items : list QPState;
  is_e0sorted : bool
}.

(** [QPList.__init__]: the positional arguments go to [list], the flag is
    the keyword argument [is_e0sorted], [False] when it is absent. *)
Definition QPList_init (args : list QPState) (kw_is_e0sorted : option bool) : QPList :=
  mkQPList args (match kw_is_e0sorted with Some b => b | None => false end).

Definition QPList_copy (self : QPList) : QPList :=
  QPList_init (map QPState_copy (items self)) (Some (is_e0sorted self)).

Definition sort_by_e0 (self : QPList) : QPList :=
  QPList_init (sorted e0 (items self)) (Some true).

Definition msg_not_sorted : string :=
  "QPState corrections are not sorted. Use sort_by_e0".

Definition get_e0mesh (self : QPList) : res K (list Z) :=
  if negb (is_e0sorted self)
  then inl (ValueError msg_not_sorted NoArg)
  else inr (map e0 (items self)).

(** [get_field("qpeme0")] *)
Definition get_qpeme0 (self : QPList) : list complex :=
  map qpeme0 (items self).

Definition msg_duplicated : string := "Found duplicated (s,b,k) indexes: %s".

(** [qp.skb in skb0_list] *)
Definition skb_in (key : Z * K * Z) (skb0_list : list (Z * K * Z)) : bool :=
  existsb (fun key0 => skb_eqb key key0) skb0_list.

(** The loop of [merge] over [other]: the first record of [other] whose
    key is in [skb0_list] raises. *)
Fixpoint merge_check (skb0_list : list (Z * K * Z)) (other : list QPState) : res K unit :=
  match other with
  | [] => inr tt
  | qp :: rest =>
      if skb_in (skb qp) skb0_list
      then inl (ValueError msg_duplicated (ArgSkb (skb qp)))
      else merge_check skb0_list rest
  end.

(** [QPList.merge] on the values of its operands. *)
Definition merge (self other : QPList) (copy : bool) : res K QPList :=
  let skb0_list := map skb (items self) in
  (guard merge_check skb0_list (items other) ;;
   let qps := if copy
              then items (QPList_copy self) ++ items (QPList_copy other)
              else items self ++ items other in
   inr (QPList_init qps None))%res.

(** *** QPList objects in a store

    The store holds the live QPList objects, an object's reference is its
    position.  A method that builds a QPList allocates a new object; an
    assignment to an attribute or an item of an existing object would be an
    update of its cell (the methods modelled here make none). *)
Definition Store : Type := list QPList.

Definition new_QPList (obj : QPList) (st : Store) : Store * nat :=
  (st ++ [obj], length st).

(** The result of a method call on objects of the store: the store it
    leaves and the reference it returns or the exception it raises.  A
    reference that designates nothing does not occur in Python; [None]
    stands for that case. *)
Definition sort_by_e0_obj (st : Store) (self : nat) : option (Store * nat) :=
  match nth_error st self with
  | Some s => Some (new_QPList (sort_by_e0 s) st)
  | None => None
  end.

Definition merge_obj (st : Store) (self other : nat) (copy : bool)
  : option (Store * res K nat) :=
  match nth_error st self, nth_error st other with
  | Some s, Some o =>
      let skb0_list := map skb (items s) in
      match merge_check skb0_list (items o) with
      | inl e => Some (st, inl e)
      | inr _ =>
          if copy then
            let '(st1, c1) := new_QPList (QPList_copy s) st in
            let '(st2, c2) := new_QPList (QPList_copy o) st1 in
            let '(st3, r) := new_QPList (QPList_init (items (QPList_copy s) ++ items (QPList_copy o)) None) st2 in
            Some (st3, inr r)
          else
            let '(st1, r) := new_QPList (QPList_init (items s ++ items o) None) st in
            Some (st1, inr r)
      end
  | _, _ => None
  end.
End QuasiParticles.
Arguments QPState : clear implicits.
Arguments QPList : clear implicits.
Arguments Store : clear implicits.

(** ** The spline fitter *)

(** The arguments of one call [UnivariateSpline(dom_e0, dom_corr, w=w,
    bbox=[None, None], k=k, s=None)]; [fc_w = None] is [w=None], for which
    scipy takes all weights equal. *)
Record FitCall : Type := mkFitCall {
  fc_x : list Z;
  fc_y : list complex;
  fc_w : option (list Z);
  fc_k : Z
}.

(** scipy's fitter: the fitted function, or [None] when the constructor
    raises, and the residual of a fit. *)
Class SplineLib : Type := {
  Spline : Type;
  UnivariateSpline : FitCall -> option Spline;
  get_residual : Spline -> Z
}.

(** The scissors operator, as the arguments its constructor receives. *)
Record Scissors {SL : SplineLib} : Type := mkScissors {
  func_list : list Spline;
  sc_domains : list (Z * Z);
  residues : list Z;
  sc_bounds : option (list (Z * Z))
}.
Arguments mkScissors {SL} func_list sc_domains residues sc_bounds.

Section BuildScissors.
Context {K : Type} {KE : KpointEq K} {SL : SplineLib}.

(** Computations that call the fitter: the state is the list of the calls
    made so far, oldest first. *)
Definition fitM (A : Type) : Type := list FitCall -> list FitCall * res K A.

Definition fit_ret {A : Type} (a : A) : fitM A := fun tr => (tr, inr a).

Definition fit_bind {A B : Type} (m : fitM A) (f : A -> fitM B) : fitM B :=
  fun tr =>
    match m tr with
    | (tr', inl e) => (tr', inl e)
    | (tr', inr a) => f a tr'
    end.

Definition fit_lift {A : Type} (r : res K A) : fitM A := fun tr => (tr, r).

Definition call_UnivariateSpline (c : FitCall) : fitM Spline :=
  fun tr =>
    (tr ++ [c], match UnivariateSpline c with
                | Some f => inr f
                | None => inl ExternalError
                end).

Notation "x <~ m ;; k" := (fit_bind m (fun x => k))
  (at level 100, m at next level, right associativity).

(** An item read, IndexError when the index is out of range. *)
Definition item {A : Type} (a : list A) (i : Z) : res K A :=
  match getitem a i with
  | Some v => inr v
  | None => inl IndexError
  end.

Definition msg_min : string := "min(e0mesh) %s is not included in domains".
Definition msg_max : string := "max(e0mesh) %s is not included in domains".
Definition msg_order : string := "domain boundaries should be given in increasing order.".

(** [np.atleast_2d(domains).ravel()] for a list of [low, high] pairs. *)
Definition ravel (domains : list (Z * Z)) : list Z :=
  flat_map (fun dom => [fst dom; snd dom]) domains.

(** The body of the loop [for idx, v in enumerate(dflat)]. *)
Definition check_boundary (e0mesh dflat : list Z) (dsize idx v : Z) : res K unit :=
  (guard (if idx =? 0 then
            first <- item e0mesh 0 ;;
            if v >? first then inl (ValueError msg_min (ArgNum first)) else inr tt
          else inr tt) ;;
   guard (if idx =? dsize - 1 then
            last <- item e0mesh (-1) ;;
            if v <? last then inl (ValueError msg_max (ArgNum last)) else inr tt
          else inr tt) ;;
   guard (if negb (idx =? dsize - 1) then
            a <- item dflat idx ;;
            b <- item dflat (idx + 1) ;;
            if a >? b then inl (ValueError msg_order NoArg) else inr tt
          else inr tt) ;;
   (if idx =? dsize - 1 then
      a <- item dflat idx ;;
      b <- item dflat (idx - 1) ;;
      if a <? b then inl (ValueError msg_order NoArg) else inr tt
    else inr tt))%res.

Fixpoint check_domains_from (e0mesh dflat : list Z) (dsize idx : Z) (rest : list Z)
  : res K unit :=
  match rest with
  | [] => inr tt
  | v :: rest' =>
      (guard check_boundary e0mesh dflat dsize idx v ;;
       check_domains_from e0mesh dflat dsize (idx + 1) rest')%res
  end.

Definition check_domains (e0mesh : list Z) (domains : list (Z * Z)) : res K unit :=
  let dflat := ravel domains in
  let dsize := Z.of_nat (length dflat) in
  check_domains_from e0mesh dflat dsize 0 dflat.

(** The weights of one fit: [w = len(dom_e0)*[1]], then the item set
    according to [ndom], or [w = None]. *)
Definition weights (ndom : Z) (n : nat) : res K (option (list Z)) :=
  let w := repeat 1 n in
  if ndom =? 1 then
    match setitem w (-1) 1000 with
    | Some w' => inr (Some w')
    | None => inl IndexError
    end
  else if ndom =? 2 then
    match setitem w 0 1000 with
    | Some w' => inr (Some w')
    | None => inl IndexError
    end
  else inr None.

(** One turn of the loop [for dom in domains[:]], up to the call of the
    fitter: the arguments of that call. *)
Definition domain_fit_call (e0mesh : list Z) (qpcorrs : list complex) (k ndom : Z)
    (dom : Z * Z) : res K FitCall :=
  let low := fst dom in
  let high := snd dom in
  (start <- find_ge e0mesh low ;;
   stop <- find_le e0mesh high ;;
   let dom_e0 := slice e0mesh start (stop + 1) in
   let dom_corr := slice qpcorrs start (stop + 1) in
   w <- weights ndom (length dom_e0) ;;
   inr (mkFitCall dom_e0 dom_corr w k))%res.

Fixpoint fit_domains (e0mesh : list Z) (qpcorrs : list complex) (k ndom : Z)
    (doms : list (Z * Z)) (funcs : list Spline) (resid : list Z)
  : fitM (list Spline * list Z) :=
  match doms with
  | [] => fit_ret (funcs, resid)
  | dom :: rest =>
      let ndom := ndom + 1 in
      c <~ fit_lift (domain_fit_call e0mesh qpcorrs k ndom dom) ;;
      f <~ call_UnivariateSpline c ;;
      fit_domains e0mesh qpcorrs k ndom rest (funcs ++ [f]) (resid ++ [get_residual f])
  end.

(** The value of [ndom] before the loop: 0 when [len(domains) == 2],
    99 otherwise. *)
Definition ndom0 (domains : list (Z * Z)) : Z :=
  if (length domains =? 2)%nat then 0 else 99.

(** The loop [for dom in domains[:]] over the rows of
    [np.atleast_2d(domains)].  For the empty list that array has one row,
    which is empty: the loop is entered and [dom[0]] raises IndexError. *)
Definition fit_rows (e0mesh : list Z) (qpcorrs : list complex) (k ndom : Z)
    (domains : list (Z * Z)) : fitM (list Spline * list Z) :=
  match domains with
  | [] => fit_lift (inl IndexError)
  | _ :: _ => fit_domains e0mesh qpcorrs k ndom domains [] []
  end.

(** [QPList.build_scissors(domains, bounds, k)] without the optional
    plot (the keyword [plot] is false by default and draws only). *)
Definition build_scissors (self : QPList K) (domains : list (Z * Z))
    (bounds : option (list (Z * Z))) (k : Z) : fitM Scissors :=
  let qps := sort_by_e0 self in
  e0mesh <~ fit_lift (get_e0mesh qps) ;;
  let qpcorrs := get_qpeme0 qps in
  _ <~ fit_lift (check_domains e0mesh domains) ;;
  let ndom := ndom0 domains in
  fq <~ fit_rows e0mesh qpcorrs k ndom domains ;;
  fit_ret (mkScissors (fst fq) domains (snd fq) bounds).

(** The calls made to the fitter by a run that starts with none made. *)
Definition fit_calls (self : QPList K) (domains : list (Z * Z))
    (bounds : option (list (Z * Z))) (k : Z) : list FitCall :=
  fst (build_scissors self domains bounds k []).

Definition outcome (self : QPList K) (domains : list (Z * Z))
    (bounds : option (list (Z * Z))) (k : Z) : res K Scissors :=
  snd (build_scissors self domains bounds k []).
End BuildScissors.

(** ** SigresFile.interpolate

    The control flow of the method: its guards, the band range it selects,
    the messages it prints, the look-up of every GW k-point in the IBZ and
    the exceptions it raises.  The numerical steps (reading the arrays of
    the file, the star-function fit, the evaluation on the k-points, the
    construction of [ElectronBands]) belong to other modules; they appear as
    events of the log and are taken to succeed. *)

Definition newline : string := String (Ascii.ascii_of_nat 10) EmptyString.

Section Interpolate.
Context {K S : Type} {KE : KpointEq K} {SE : StructureEq S}.

(** What the method reads of a KS [ElectronBands] object. *)
Record EBands : Type := mkEBands {
  nband : Z;
  eb_structure : S
}.

(** What the method reads of [self]. *)
Record SigresFile : Type := mkSigresFile {
  gwkpoints : list K;
  ibz : list K;
  min_gwbstop : Z;
  structure : S
}.

Inductive event : Type :=
| Cprint (msg : string)
| BuildInterpolator (bstart bstop : Z)
| InterpKpath
| InterpKmesh.

(** The returned named tuple.  An interpolated band structure is
    represented by the band slice [bstart:bstop] it was computed on. *)
Record Bundle : Type := mkBundle {
  qp_ebands_kpath : Z * Z;
  qp_ebands_kmesh : option (Z * Z);
  ks_ebands_kpath : option EBands;
  ks_ebands_kmesh : option EBands
}.

Definition msg_nkibz : string :=
  "QP energies should be computed for all k-points in the IBZ but nkibz != nkptgw".
Definition msg_nkptgw : string := "QP Interpolation requires nkptgw > 1.".
Definition msg_fewer_bands : string :=
  "Number of bands in KS band structure smaller than the number of bands in GW corrections".
Definition msg_ignored : string := "Highest GW bands will be ignored".
Definition msg_kpath_structure : string :=
  "sigres.structure and ks_ebands_kpath.structures differ. Check your files!".
Definition msg_kmesh_structure : string :=
  "sigres.structure and ks_ebands_kmesh.structures differ. Check your files!".

(** [a != b] on structures *)
Definition structure_neq (a b : S) : bool := negb (structure_eq a b).

(** The consistency check at the top of the method. *)
Definition errlines (self : SigresFile) : list string :=
  (if negb (length (gwkpoints self) =? length (ibz self))%nat then [msg_nkibz] else [])
  ++ (if (length (gwkpoints self) =? 1)%nat then [msg_nkptgw] else []).

(** The band range and the messages of the branch on [ks_ebands_kpath]. *)
Definition band_range (self : SigresFile) (kpath : option EBands) : Z * Z * list event :=
  match kpath with
  | None => (0, -1, [])
  | Some eb =>
      let bstop := Z.min (nband eb) (min_gwbstop self) in
      (0, bstop,
       if nband eb <? min_gwbstop self
       then [Cprint msg_fewer_bands; Cprint msg_ignored]
       else [])
  end.

(** The part of the method on the k-mesh, entered when [ks_ebands_kmesh]
    is given.  The argument of the first [raise] reads
    [ks_ebands_kmesh%nband]: the name [nband] is not bound, and its
    evaluation raises NameError before a ValueError is built.  The second
    test reads the structure of [ks_ebands_kpath], an attribute access
    that fails on [None]. *)
Definition kmesh_part (self : SigresFile) (kpath : option EBands) (kmesh : EBands)
    (bstart bstop : Z) : list event * res K (Z * Z) :=
  if bstop >? nband kmesh then ([], inl (NameError "nband"))
  else
    match kpath with
    | None => ([], inl (AttributeError "structure"))
    | Some eb =>
        if structure_neq (eb_structure eb) (structure self)
        then ([], inl (ValueError msg_kmesh_structure NoArg))
        else ([InterpKmesh], inr (bstart, bstop))
    end.

(** [self.reader.kpt2fileindex(gwk)] for a [Kpoint] object: the index of
    the k-point in the IBZ.

    Modelled from the spec: [KpointList.index] (abipy.core.kpoints) is not
    among the sources.  It gives the position of the first k-point of the
    list that equals the one asked for and raises when there is none; the
    docstring of [kpt2fileindex] names the exception, KpointsError. *)
Fixpoint ibz_index (kpoints : list K) (kpoint : K) (i : Z) : res K Z :=
  match kpoints with
  | [] => inl KpointsError
  | k :: rest => if kpt_eq k kpoint then inr i else ibz_index rest kpoint (i + 1)
  end.

(** The loop [for gwk in self.gwkpoints] that copies the energies of every
    GW k-point to its place in the IBZ: the indices it looks up, or the
    exception of the first look-up that fails. *)
Fixpoint gwk_indices (self : SigresFile) (gwks : list K) : res K (list Z) :=
  match gwks with
  | [] => inr []
  | gwk :: rest =>
      (ik_ibz <- ibz_index (ibz self) gwk 0 ;;
       iks <- gwk_indices self rest ;;
       inr (ik_ibz :: iks))%res
  end.

Definition interpolate (self : SigresFile) (kpath kmesh : option EBands)
  : list event * res K Bundle :=
  match errlines self with
  | _ :: _ => ([], inl (ValueError (String.concat newline (errlines self)) NoArg))
  | [] =>
      let '(bstart, bstop, log1) := band_range self kpath in
      let log2 :=
        match kpath with
        | Some eb =>
            if structure_neq (eb_structure eb) (structure self)
            then [Cprint msg_kpath_structure] else []
        | None => []
        end in
      match gwk_indices self (gwkpoints self) with
      | inl e => (log1 ++ log2, inl e)
      | inr _ =>
          let log := log1 ++ log2 ++ [BuildInterpolator bstart bstop; InterpKpath] in
          match kmesh with
          | None => (log, inr (mkBundle (bstart, bstop) None kpath None))
          | Some km =>
              match kmesh_part self kpath km bstart bstop with
              | (log3, inl e) => (log ++ log3, inl e)
              | (log3, inr b) =>
                  (log ++ log3, inr (mkBundle (bstart, bstop) (Some b) kpath kmesh))
              end
          end
      end
  end.

(** The interpolator has been built when the log records it. *)
Definition built_interpolator (log : list event) : bool :=
  existsb (fun ev => match ev with BuildInterpolator _ _ => true | _ => false end) log.

Definition warned (msg : string) (log : list event) : bool :=
  existsb (fun ev => match ev with Cprint m => String.eqb m msg | _ => false end) log.
End Interpolate.
Arguments EBands : clear implicits.
Arguments SigresFile : clear implicits.
Arguments Bundle : clear implicits.

(** ** Statements of the specification that the code is compared with *)

(** [min(e0mesh)] and [max(e0mesh)] of the samples. *)
Definition minimum (l : list Z) : option Z :=
  match l with
  | [] => None
  | x :: t => Some (fold_left Z.min t x)
  end.

Definition maximum (l : list Z) : option Z :=
  match l with
  | [] => None
  | x :: t => Some (fold_left Z.max t x)
  end.

(** The conditions on the flattened boundaries that the validation of the
    domains rejects. *)
Definition first_boundary (dflat : list Z) : option Z := nth_error dflat 0.

Definition last_boundary (dflat : list Z) : option Z :=
  nth_error dflat (length dflat - 1).

Definition out_of_order (dflat : list Z) : Prop :=
  exists i, (S i < length dflat)%nat /\ nth i dflat 0 > nth (S i) dflat 0.

Definition first_above_min (dflat : list Z) (mn : Z) : Prop :=
  exists b, first_boundary dflat = Some b /\ b > mn.

Definition last_below_max (dflat : list Z) (mx : Z) : Prop :=
  exists b, last_boundary dflat = Some b /\ b < mx.

(** The exception names a check that failed: its message is the one of a
    condition that holds of the boundaries. *)
Definition identifies_failed_check {K : Type} (dflat : list Z) (mn mx : Z) (e : exn K) : Prop :=
  (e = ValueError "min(e0mesh) %s is not included in domains" (ArgNum mn) /\
   first_above_min dflat mn) \/
  (e = ValueError "max(e0mesh) %s is not included in domains" (ArgNum mx) /\
   last_below_max dflat mx) \/
  (e = ValueError "domain boundaries should be given in increasing order." NoArg /\
   out_of_order dflat).

(** A sample belongs to the domain [low, high]. *)
Definition in_domain (low high e : Z) : bool := (low <=? e) && (e <=? high).

(** The positions of an array whose value satisfies [p]: the last one and
    the first one, counted from [i]. *)
Fixpoint last_index_where (p : Z -> bool) (a : list Z) (i : nat) : option nat :=
  match a with
  | [] => None
  | x :: t =>
      match last_index_where p t (S i) with
      | Some j => Some j
      | None => if p x then Some i else None
      end
  end.

Fixpoint first_index_where (p : Z -> bool) (a : list Z) (i : nat) : option nat :=
  match a with
  | [] => None
  | x :: t => if p x then Some i else first_index_where p t (S i)
  end.

(** The index rule in the words of the specification: the start of a domain
    is the position of the greatest sample that is at most [low], its end the
    position of the least sample that is at least [high]. *)
Definition spec_start_index (e0mesh : list Z) (low : Z) : option nat :=
  last_index_where (fun e => e <=? low) e0mesh 0.

Definition spec_end_index (e0mesh : list Z) (high : Z) : option nat :=
  first_index_where (fun e => high <=? e) e0mesh 0.

(** A fit call obeys that rule on the domain [dom]. *)
Definition spec_index_rule (e0mesh : list Z) (dom : Z * Z) (c : FitCall) : Prop :=
  exists start stop,
    spec_start_index e0mesh (fst dom) = Some start /\
    spec_end_index e0mesh (snd dom) = Some stop /\
    fc_x c = slice e0mesh start (stop + 1).

(** The weights in the words of the specification, for a run of [n]
    samples: the anchor on the first sample, or on the last one. *)
Definition anchor_first (n : nat) : list Z :=
  match n with
  | O => []
  | S m => 1000 :: repeat 1 m
  end.

Definition anchor_last (n : nat) : list Z :=
  match n with
  | O => []
  | S m => repeat 1 m ++ [1000]
  end.

(** The weighting as the specification words it for two domains: the first
    sample of the first domain and the last sample of the second one. *)
Definition anchors_outer_edges (calls : list FitCall) : Prop :=
  forall c1 c2, calls = [c1; c2] ->
    fc_w c1 = Some (anchor_first (length (fc_x c1))) /\
    fc_w c2 = Some (anchor_last (length (fc_x c2))).

(** The (e0, qpcorr) sample of a record. *)
Definition sample {K : Type} (qp : QPState K) : Z * complex := (e0 qp, qpeme0 qp).

(** The ValueError of [get_e0mesh] on a list whose flag is false. *)
Definition flag_error {K : Type} : exn K :=
  ValueError "QPState corrections are not sorted. Use sort_by_e0" NoArg.

(** Records with the same [e0] carry the same correction. *)
Definition ties_agree {K : Type} (l : list (QPState K)) : Prop :=
  forall p q, In p l -> In q l -> e0 p = e0 q -> qpeme0 p = qpeme0 q.

(** Two records of a list, at different positions, with equal keys. *)
Definition has_duplicate_key {K : Type} {KE : KpointEq K} (l : list (QPState K)) : Prop :=
  exists i j p q, (i < j)%nat /\ nth_error l i = Some p /\ nth_error l j = Some q /\
                  skb_eqb (skb p) (skb q) = true.

(** A record of [other] has the key of a record of [self]. *)
Definition keys_collide {K : Type} {KE : KpointEq K} (self other : list (QPState K)) : Prop :=
  exists q p, In q other /\ In p self /\ skb_eqb (skb q) (skb p) = true.

(** ** Sample data *)

(** k-points given by three reduced coordinates, compared coordinate by
    coordinate. *)
#[export] Instance coords_eq : KpointEq (Z * Z * Z) :=
  fun a b =>
    let '(a1, a2, a3) := a in
    let '(b1, b2, b3) := b in
    (a1 =? b1) && (a2 =? b2) && (a3 =? b3).

(** Structures named by a number. *)
#[export] Instance structure_id_eq : StructureEq nat := Nat.eqb.

(** A stand-in for the fitter that returns the data it was given and, as
    scipy does, refuses a fit with no more than [k] points. *)
#[export] Instance recording_splines : SplineLib := {|
  Spline := FitCall;
  UnivariateSpline := fun c =>
    if Z.of_nat (length (fc_x c)) <=? fc_k c then None else Some c;
  get_residual := fun _ => 0
|}.

Definition czero : complex := mkComplex 0 0.

(** A record of spin 0 at the k-point [(kx, 0, 0)], band [b], KS energy [e]
    and QP correction [c]. *)
Definition sample_qp (kx b e c : Z) : QPState (Z * Z * Z) :=
  mkQPState 0 (kx, 0, 0) b e (mkComplex (e + c) 0) (e + c) czero czero czero czero czero.

(** Eight samples, not in the order of their energies. *)
Definition ex_records : list (QPState (Z * Z * Z)) :=
  [ sample_qp 0 4 60 5; sample_qp 0 0 10 (-4); sample_qp 0 5 70 6; sample_qp 0 1 20 (-3);
    sample_qp 0 6 80 7; sample_qp 0 2 30 (-2); sample_qp 0 7 90 8; sample_qp 0 3 40 (-1) ].

Definition ex_qplist : QPList (Z * Z * Z) := QPList_init ex_records None.

Definition ex_domains : list (Z * Z) := [(0, 50); (50, 100)].

(** The two calls that [ex_qplist] and [ex_domains] lead to. *)
Definition ex_call_0 : FitCall :=
  mkFitCall [10; 20; 30; 40]
            [mkComplex (-4) 0; mkComplex (-3) 0; mkComplex (-2) 0; mkComplex (-1) 0]
            (Some [1; 1; 1; 1000]) 3.

Definition ex_call_1 : FitCall :=
  mkFitCall [60; 70; 80; 90]
            [mkComplex 5 0; mkComplex 6 0; mkComplex 7 0; mkComplex 8 0]
            (Some [1000; 1; 1; 1]) 3.

(** Three domains over the same samples. *)
Definition ex_domains3 : list (Z * Z) := [(0, 25); (26, 55); (56, 100)].

(** Two records at the same KS energy with different corrections, as the
    last samples of the first domain, in the two possible orders. *)
Definition ex_tie_records_a : list (QPState (Z * Z * Z)) :=
  [ sample_qp 0 0 10 (-4); sample_qp 0 1 20 (-3); sample_qp 0 2 30 (-2);
    sample_qp 0 3 40 (-1); sample_qp 1 3 40 2;
    sample_qp 0 4 60 5; sample_qp 0 5 70 6; sample_qp 0 6 80 7; sample_qp 0 7 90 8 ].

Definition ex_tie_records_b : list (QPState (Z * Z * Z)) :=
  [ sample_qp 0 0 10 (-4); sample_qp 0 1 20 (-3); sample_qp 0 2 30 (-2);
    sample_qp 1 3 40 2; sample_qp 0 3 40 (-1);
    sample_qp 0 4 60 5; sample_qp 0 5 70 6; sample_qp 0 6 80 7; sample_qp 0 7 90 8 ].

(** Two lists with separate keys, and a list that repeats a key. *)
Definition ex_self : QPList (Z * Z * Z) :=
  QPList_init [sample_qp 0 0 10 (-4); sample_qp 0 1 20 (-3)] (Some true).

Definition ex_other : QPList (Z * Z * Z) :=
  QPList_init [sample_qp 1 0 15 (-4); sample_qp 1 1 25 (-3)] (Some true).

Definition ex_repeating : QPList (Z * Z * Z) :=
  QPList_init [sample_qp 2 0 15 (-4); sample_qp 2 0 15 (-4)] None.

Definition ex_store : Store (Z * Z * Z) := [ex_self; ex_other].

(** A SIGRES file with three GW k-points, all of the IBZ, corrections for
    eight bands, on structure 0; KS bands on a path and on a mesh. *)
Definition ex_sigres : SigresFile (Z * Z * Z) nat :=
  mkSigresFile [(0, 0, 0); (1, 0, 0); (1, 1, 0)] [(0, 0, 0); (1, 0, 0); (1, 1, 0)] 8 0%nat.

Definition ex_kpath_other_structure : EBands nat := mkEBands 10 1%nat.
Definition ex_kpath_same_structure : EBands nat := mkEBands 10 0%nat.
Definition ex_kmesh_other_structure : EBands nat := mkEBands 10 1%nat.
Definition ex_kmesh_few_bands : EBands nat := mkEBands 5 0%nat.

(** * Properties *)

(** ** Sorting *)

Section SortedFacts.
Context {A : Type} (key : A -> Z).

Lemma insert_by_perm (x : A) (l : list A) :
  Permutation (insert_by key x l) (x :: l).
Proof.
  induction l as [|y t IH]; simpl.
  - apply Permutation_refl.
  - destruct (key x <=? key y).
    + apply Permutation_refl.
    + apply Permutation_trans with (y :: x :: t).
      * apply perm_skip. exact IH.
      * apply perm_swap.
Qed.

Lemma sorted_perm (l : list A) : Permutation (sorted key l) l.
Proof.
  induction l as [|x t IH]; simpl.
  - apply perm_nil.
  - apply Permutation_trans with (x :: sorted key t).
    + apply insert_by_perm.
    + apply perm_skip. exact IH.
Qed.

Lemma sorted_length (l : list A) : length (sorted key l) = length l.
Proof. apply Permutation_length, sorted_perm. Qed.

Lemma sorted_In (l : list A) (x : A) : In x (sorted key l) <-> In x l.
Proof.
  split; apply Permutation_in.
  - apply sorted_perm.
  - apply Permutation_sym, sorted_perm.
Qed.

Lemma insert_by_sorted (x : A) (l : list A) :
  StronglySorted Z.le (map key l) ->
  StronglySorted Z.le (map key (insert_by key x l)).
Proof.
  induction l as [|y t IH]; simpl; intros Hs.
  - constructor; constructor.
  - destruct (key x <=? key y) eqn:Hxy.
    + apply Z.leb_le in Hxy.
      simpl. constructor; [exact Hs|].
      apply StronglySorted_inv in Hs. destruct Hs as [_ Hall].
      constructor; [exact Hxy|].
      eapply Forall_impl; [|exact Hall]. simpl. intros; lia.
    + apply Z.leb_gt in Hxy.
      apply StronglySorted_inv in Hs. destruct Hs as [Ht Hall].
      simpl. constructor; [apply IH; exact Ht|].
      rewrite Forall_forall in *. intros z Hz.
      apply in_map_iff in Hz. destruct Hz as [w [Hw Hin]]. subst z.
      apply (Permutation_in _ (insert_by_perm x t)) in Hin.
      destruct Hin as [Hin|Hin].
      * subst w. lia.
      * apply Hall. apply in_map. exact Hin.
Qed.

Lemma sorted_sorted (l : list A) : StronglySorted Z.le (map key (sorted key l)).
Proof.
  induction l as [|x t IH]; simpl.
  - constructor.
  - apply insert_by_sorted. exact IH.
Qed.
End SortedFacts.

(** Two lists ordered by their first component, with the same elements, in
    which the first component determines the element, are the same list. *)
Lemma sorted_perm_unique {B : Type} (l1 l2 : list (Z * B)) :
  StronglySorted Z.le (map fst l1) ->
  StronglySorted Z.le (map fst l2) ->
  Permutation l1 l2 ->
  (forall x y, In x l1 -> In y l1 -> fst x = fst y -> x = y) ->
  l1 = l2.
Proof.
  revert l2. induction l1 as [|x t1 IH]; intros l2 H1 H2 Hp Hdet.
  - apply Permutation_nil in Hp. symmetry. exact Hp.
  - destruct l2 as [|y t2].
    + apply Permutation_sym, Permutation_nil in Hp. discriminate.
    + simpl in H1, H2.
      apply StronglySorted_inv in H1. destruct H1 as [H1 Hx].
      apply StronglySorted_inv in H2. destruct H2 as [H2 Hy].
      rewrite Forall_forall in Hx, Hy.
      assert (Hyin : In y (x :: t1)).
      { apply (Permutation_in _ (Permutation_sym Hp)). left. reflexivity. }
      assert (Hxin : In x (y :: t2)).
      { apply (Permutation_in _ Hp). left. reflexivity. }
      assert (Hxy : x = y).
      { apply Hdet; [left; reflexivity|exact Hyin|].
        destruct Hyin as [Heq|Hyin]; [subst; reflexivity|].
        destruct Hxin as [Heq|Hxin]; [subst; reflexivity|].
        pose proof (Hx (fst y) (in_map fst _ _ Hyin)).
        pose proof (Hy (fst x) (in_map fst _ _ Hxin)).
        lia. }
      subst y. f_equal.
      apply IH; [exact H1|exact H2|eapply Permutation_cons_inv; exact Hp|].
      intros a b Ha Hb. apply Hdet; right; assumption.
Qed.

Lemma fold_min_spec (t : list Z) (x : Z) :
  In (fold_left Z.min t x) (x :: t) /\ Forall (fun y => fold_left Z.min t x <= y) (x :: t).
Proof.
  revert x. induction t as [|y t IH]; intros x; simpl.
  - split; [left; reflexivity|]. constructor; [lia|constructor].
  - destruct (IH (Z.min x y)) as [Hin Hall].
    apply Forall_cons_iff in Hall. destruct Hall as [Hm Hall].
    split.
    + destruct Hin as [Hin|Hin].
      * rewrite <- Hin. destruct (Z.min_spec x y) as [[_ E]|[_ E]]; rewrite E; auto.
      * right; right; exact Hin.
    + constructor; [lia|]. constructor; [lia|exact Hall].
Qed.

Lemma fold_max_spec (t : list Z) (x : Z) :
  In (fold_left Z.max t x) (x :: t) /\ Forall (fun y => y <= fold_left Z.max t x) (x :: t).
Proof.
  revert x. induction t as [|y t IH]; intros x; simpl.
  - split; [left; reflexivity|]. constructor; [lia|constructor].
  - destruct (IH (Z.max x y)) as [Hin Hall].
    apply Forall_cons_iff in Hall. destruct Hall as [Hm Hall].
    split.
    + destruct Hin as [Hin|Hin].
      * rewrite <- Hin. destruct (Z.max_spec x y) as [[_ E]|[_ E]]; rewrite E; auto.
      * right; right; exact Hin.
    + constructor; [lia|]. constructor; [lia|exact Hall].
Qed.

(** ** Binary search on a sorted array *)

Lemma sorted_nth (a : list Z) :
  StronglySorted Z.le a ->
  forall i j, (i <= j < length a)%nat -> nth i a 0 <= nth j a 0.
Proof.
  induction a as [|x t IH]; intros Hs i j Hij; simpl in Hij; [lia|].
  apply StronglySorted_inv in Hs. destruct Hs as [Ht Hall].
  destruct i as [|i], j as [|j]; simpl; try lia.
  - rewrite Forall_forall in Hall. apply Hall. apply nth_In. lia.
  - apply IH; [exact Ht|lia].
Qed.

Lemma midpoint_bounds (lo hi : nat) :
  (lo < hi)%nat -> (lo <= (lo + hi) / 2 < hi)%nat.
Proof.
  intros H.
  pose proof (Nat.div_mod_eq (lo + hi) 2) as E.
  pose proof (Nat.mod_upper_bound (lo + hi) 2) as U.
  lia.
Qed.

Lemma bisect_left_loop_S (fuel : nat) (a : list Z) (x : Z) (lo hi : nat) :
  bisect_left_loop (S fuel) a x lo hi =
  if (lo <? hi)%nat then
    if nth ((lo + hi) / 2) a 0 <? x
    then bisect_left_loop fuel a x ((lo + hi) / 2 + 1)%nat hi
    else bisect_left_loop fuel a x lo ((lo + hi) / 2)%nat
  else lo.
Proof. reflexivity. Qed.

Lemma bisect_right_loop_S (fuel : nat) (a : list Z) (x : Z) (lo hi : nat) :
  bisect_right_loop (S fuel) a x lo hi =
  if (lo <? hi)%nat then
    if x <? nth ((lo + hi) / 2) a 0
    then bisect_right_loop fuel a x lo ((lo + hi) / 2)%nat
    else bisect_right_loop fuel a x ((lo + hi) / 2 + 1)%nat hi
  else lo.
Proof. reflexivity. Qed.

Lemma bisect_left_loop_spec (a : list Z) (x : Z) :
  StronglySorted Z.le a ->
  forall fuel lo hi,
    (lo <= hi <= length a)%nat -> (hi - lo <= fuel)%nat ->
    (forall i, (i < lo)%nat -> nth i a 0 < x) ->
    (forall i, (hi <= i < length a)%nat -> x <= nth i a 0) ->
    let r := bisect_left_loop fuel a x lo hi in
    (lo <= r <= hi)%nat /\
    (forall i, (i < r)%nat -> nth i a 0 < x) /\
    (forall i, (r <= i < length a)%nat -> x <= nth i a 0).
Proof.
  intros Hs fuel.
  induction fuel as [|fuel IH]; intros lo hi Hb Hf Hlo Hhi; cbv zeta.
  - assert (E : (lo <? hi)%nat = false) by (apply Nat.ltb_ge; lia).
    simpl. rewrite E. repeat split; try lia; auto.
    intros i Hi. apply Hhi. lia.
  - rewrite bisect_left_loop_S. destruct (lo <? hi)%nat eqn:E.
    + apply Nat.ltb_lt in E.
      pose proof (midpoint_bounds lo hi E) as Hm.
      set (mid := ((lo + hi) / 2)%nat) in *.
      destruct (nth mid a 0 <? x) eqn:C.
      * apply Z.ltb_lt in C.
        destruct (IH (mid + 1)%nat hi) as [R1 [R2 R3]]; try lia.
        { intros i Hi.
          pose proof (sorted_nth a Hs i mid). lia. }
        { exact Hhi. }
        repeat split; try lia; auto.
      * apply Z.ltb_ge in C.
        destruct (IH lo mid) as [R1 [R2 R3]]; try lia.
        { exact Hlo. }
        { intros i Hi.
          pose proof (sorted_nth a Hs mid i). lia. }
        repeat split; try lia; auto.
    + apply Nat.ltb_ge in E. repeat split; try lia; auto.
      intros i Hi. apply Hhi. lia.
Qed.

Lemma bisect_right_loop_spec (a : list Z) (x : Z) :
  StronglySorted Z.le a ->
  forall fuel lo hi,
    (lo <= hi <= length a)%nat -> (hi - lo <= fuel)%nat ->
    (forall i, (i < lo)%nat -> nth i a 0 <= x) ->
    (forall i, (hi <= i < length a)%nat -> x < nth i a 0) ->
    let r := bisect_right_loop fuel a x lo hi in
    (lo <= r <= hi)%nat /\
    (forall i, (i < r)%nat -> nth i a 0 <= x) /\
    (forall i, (r <= i < length a)%nat -> x < nth i a 0).
Proof.
  intros Hs fuel.
  induction fuel as [|fuel IH]; intros lo hi Hb Hf Hlo Hhi; cbv zeta.
  - assert (E : (lo <? hi)%nat = false) by (apply Nat.ltb_ge; lia).
    simpl. rewrite E. repeat split; try lia; auto.
    intros i Hi. apply Hhi. lia.
  - rewrite bisect_right_loop_S. destruct (lo <? hi)%nat eqn:E.
    + apply Nat.ltb_lt in E.
      pose proof (midpoint_bounds lo hi E) as Hm.
      set (mid := ((lo + hi) / 2)%nat) in *.
      destruct (x <? nth mid a 0) eqn:C.
      * apply Z.ltb_lt in C.
        destruct (IH lo mid) as [R1 [R2 R3]]; try lia.
        { exact Hlo. }
        { intros i Hi.
          pose proof (sorted_nth a Hs mid i). lia. }
        repeat split; try lia; auto.
      * apply Z.ltb_ge in C.
        destruct (IH (mid + 1)%nat hi) as [R1 [R2 R3]]; try lia.
        { intros i Hi.
          pose proof (sorted_nth a Hs i mid). lia. }
        { exact Hhi. }
        repeat split; try lia; auto.
    + apply Nat.ltb_ge in E. repeat split; try lia; auto.
      intros i Hi. apply Hhi. lia.
Qed.

(** The insertion points split a sorted array. *)
Lemma bisect_left_spec (a : list Z) (x : Z) :
  StronglySorted Z.le a ->
  (bisect_left a x <= length a)%nat /\
  (forall i, (i < bisect_left a x)%nat -> nth i a 0 < x) /\
  (forall i, (bisect_left a x <= i < length a)%nat -> x <= nth i a 0).
Proof.
  intros Hs. unfold bisect_left.
  destruct (bisect_left_loop_spec a x Hs (length a) 0%nat (length a)) as [R1 [R2 R3]];
    try lia.
  repeat split; try lia; auto.
Qed.

Lemma bisect_right_spec (a : list Z) (x : Z) :
  StronglySorted Z.le a ->
  (bisect_right a x <= length a)%nat /\
  (forall i, (i < bisect_right a x)%nat -> nth i a 0 <= x) /\
  (forall i, (bisect_right a x <= i < length a)%nat -> x < nth i a 0).
Proof.
  intros Hs. unfold bisect_right.
  destruct (bisect_right_loop_spec a x Hs (length a) 0%nat (length a)) as [R1 [R2 R3]];
    try lia.
  repeat split; try lia; auto.
Qed.

(** What [find_ge] and [find_le] return on a sorted array: the position of
    the leftmost item that is at least [x], of the rightmost item that is at
    most [x]; they raise when there is none. *)
Lemma find_ge_spec {K : Type} (a : list Z) (x : Z) (start : nat) :
  StronglySorted Z.le a ->
  find_ge (K := K) a x = inr start ->
  (start < length a)%nat /\ x <= nth start a 0 /\
  (forall i, (i < start)%nat -> nth i a 0 < x) /\
  (forall i, (start <= i < length a)%nat -> x <= nth i a 0).
Proof.
  intros Hs. unfold find_ge.
  destruct (bisect_left_spec a x Hs) as [R1 [R2 R3]].
  destruct (bisect_left a x =? length a)%nat eqn:E; simpl; [discriminate|].
  apply Nat.eqb_neq in E. intros H. injection H as <-.
  repeat split; try lia; auto. apply R3. lia.
Qed.

Lemma find_le_spec {K : Type} (a : list Z) (x : Z) (stop : nat) :
  StronglySorted Z.le a ->
  find_le (K := K) a x = inr stop ->
  (stop < length a)%nat /\ nth stop a 0 <= x /\
  (forall i, (i <= stop)%nat -> nth i a 0 <= x) /\
  (forall i, (stop < i < length a)%nat -> x < nth i a 0).
Proof.
  intros Hs. unfold find_le.
  destruct (bisect_right_spec a x Hs) as [R1 [R2 R3]].
  destruct (bisect_right a x =? 0)%nat eqn:E; simpl; [discriminate|].
  apply Nat.eqb_neq in E. intros H. injection H as <-.
  repeat split; try lia.
  - apply R2. lia.
  - intros i Hi. apply R2. lia.
  - intros i Hi. apply R3. lia.
Qed.

(** ** Slices and runs *)

Lemma filter_is_slice {A : Type} (p : A -> bool) (l : list A) :
  forall s e,
    (forall i x, nth_error l i = Some x -> (p x = true <-> (s <= i < e)%nat)) ->
    filter p l = slice l s e.
Proof.
  unfold slice.
  induction l as [|x t IH]; intros s e H.
  - rewrite firstn_nil, skipn_nil. reflexivity.
  - assert (Ht : filter p t = skipn (s - 1) (firstn (e - 1) t)).
    { apply IH. intros i y Hy.
      rewrite (H (S i) y Hy). lia. }
    pose proof (H 0%nat x eq_refl) as [Hx1 Hx2].
    simpl. destruct e as [|e]; simpl.
    + destruct (p x); [specialize (Hx1 eq_refl); lia|].
      rewrite Ht. simpl. rewrite skipn_nil. destruct s; reflexivity.
    + destruct s as [|s]; simpl.
      * destruct (p x).
        -- rewrite Ht. simpl. rewrite Nat.sub_0_r. reflexivity.
        -- assert (false = true) by (apply Hx2; lia). discriminate.
      * destruct (p x); [specialize (Hx1 eq_refl); lia|].
        rewrite Ht. simpl. rewrite !Nat.sub_0_r. reflexivity.
Qed.

Lemma nth_map_of_nth_error {A : Type} (f : A -> Z) (l : list A) (i : nat) (x : A) :
  nth_error l i = Some x -> nth i (map f l) 0 = f x.
Proof.
  intros H. apply nth_error_nth. apply map_nth_error. exact H.
Qed.

Lemma slice_map {A B : Type} (f : A -> B) (l : list A) (s e : nat) :
  slice (map f l) s e = map f (slice l s e).
Proof. unfold slice. rewrite firstn_map, skipn_map. reflexivity. Qed.

(** On records sorted by [key], the slice between the position returned by
    [find_ge] for [low] and the one returned by [find_le] for [high] is the
    run of the records whose key lies in [low, high]. *)
Lemma run_is_slice {K A : Type} (key : A -> Z) (l : list A) (low high : Z)
    (start stop : nat) :
  StronglySorted Z.le (map key l) ->
  find_ge (K := K) (map key l) low = inr start ->
  find_le (K := K) (map key l) high = inr stop ->
  slice l start (stop + 1) = filter (fun q => in_domain low high (key q)) l.
Proof.
  intros Hs Hge Hle. symmetry.
  apply find_ge_spec in Hge; [|exact Hs].
  apply find_le_spec in Hle; [|exact Hs].
  destruct Hge as [G1 [G2 [G3 G4]]]. destruct Hle as [L1 [L2 [L3 L4]]].
  rewrite length_map in *.
  apply filter_is_slice. intros i x Hx.
  assert (Hi : (i < length l)%nat) by (apply nth_error_Some; congruence).
  pose proof (nth_map_of_nth_error key l i x Hx) as E.
  unfold in_domain. rewrite andb_true_iff, !Z.leb_le.
  split.
  - intros [Hlo Hhi]. split.
    + destruct (Nat.le_gt_cases start i) as [|Hlt]; [assumption|].
      specialize (G3 i Hlt). lia.
    + destruct (Nat.le_gt_cases i stop) as [|Hgt]; [lia|].
      specialize (L4 i (conj Hgt Hi)). lia.
  - intros [Hlo Hhi]. split.
    + specialize (G4 i (conj Hlo Hi)). lia.
    + assert (Hle : (i <= stop)%nat) by lia. specialize (L3 i Hle). lia.
Qed.

(** ** Weights *)

Lemma set_nth_last (m : nat) (v : Z) :
  set_nth (repeat 1 (S m)) m v = repeat 1 m ++ [v].
Proof.
  induction m as [|m IH].
  - reflexivity.
  - change (repeat 1 (S (S m))) with (1 :: repeat 1 (S m)).
    change (set_nth (1 :: repeat 1 (S m)) (S m) v) with (1 :: set_nth (repeat 1 (S m)) m v).
    rewrite IH. reflexivity.
Qed.

Lemma setitem_last (n : nat) :
  setitem (repeat 1 n) (-1) 1000 =
  match n with O => None | S _ => Some (anchor_last n) end.
Proof.
  unfold setitem. rewrite repeat_length.
  destruct n as [|m].
  - reflexivity.
  - change (-1 <? 0) with true. cbv iota.
    assert (E : (0 <=? -1 + Z.of_nat (S m)) && (-1 + Z.of_nat (S m) <? Z.of_nat (S m)) = true).
    { apply andb_true_iff. split; [apply Z.leb_le|apply Z.ltb_lt]; lia. }
    rewrite E.
    replace (Z.to_nat (-1 + Z.of_nat (S m))) with m by lia.
    rewrite set_nth_last. reflexivity.
Qed.

Lemma setitem_first (n : nat) :
  setitem (repeat 1 n) 0 1000 =
  match n with O => None | S _ => Some (anchor_first n) end.
Proof.
  unfold setitem. rewrite repeat_length.
  destruct n as [|m].
  - reflexivity.
  - change (0 <? 0) with false. cbv iota.
    assert (E : (0 <=? 0) && (0 <? Z.of_nat (S m)) = true).
    { apply andb_true_iff. split; [apply Z.leb_le|apply Z.ltb_lt]; lia. }
    rewrite E. reflexivity.
Qed.

Section WeightFacts.
Context {K : Type}.

Lemma weights_first_domain (n : nat) (w : option (list Z)) :
  weights (K := K) 1 n = inr w -> n <> O /\ w = Some (anchor_last n).
Proof.
  unfold weights. change (1 =? 1) with true. cbv iota.
  rewrite setitem_last. destruct n; [discriminate|].
  intros H. injection H as <-. split; [discriminate|reflexivity].
Qed.

Lemma weights_second_domain (n : nat) (w : option (list Z)) :
  weights (K := K) 2 n = inr w -> n <> O /\ w = Some (anchor_first n).
Proof.
  unfold weights. change (2 =? 1) with false. change (2 =? 2) with true. cbv iota.
  rewrite setitem_first. destruct n; [discriminate|].
  intros H. injection H as <-. split; [discriminate|reflexivity].
Qed.

Lemma weights_other_domain (ndom : Z) (n : nat) :
  ndom <> 1 -> ndom <> 2 -> weights (K := K) ndom n = inr None.
Proof.
  intros H1 H2. unfold weights.
  destruct (ndom =? 1) eqn:E1; [apply Z.eqb_eq in E1; contradiction|].
  destruct (ndom =? 2) eqn:E2; [apply Z.eqb_eq in E2; contradiction|].
  reflexivity.
Qed.
End WeightFacts.

(** ** The calls made by build_scissors *)

Section ScissorsFacts.
Context {K : Type} {KE : KpointEq K} {SL : SplineLib}.

Lemma get_e0mesh_sort_by_e0 (self : QPList K) :
  get_e0mesh (sort_by_e0 self) = inr (map e0 (sorted e0 (items self))).
Proof. reflexivity. Qed.

Lemma domain_fit_call_inv (e0mesh : list Z) (qpcorrs : list complex) (k ndom : Z)
    (dom : Z * Z) (c : FitCall) :
  domain_fit_call (K := K) e0mesh qpcorrs k ndom dom = inr c ->
  exists start stop w,
    find_ge (K := K) e0mesh (fst dom) = inr start /\
    find_le (K := K) e0mesh (snd dom) = inr stop /\
    weights (K := K) ndom (length (slice e0mesh start (stop + 1))) = inr w /\
    c = mkFitCall (slice e0mesh start (stop + 1)) (slice qpcorrs start (stop + 1)) w k.
Proof.
  unfold domain_fit_call, res_bind.
  destruct (find_ge e0mesh (fst dom)) as [e|start]; [discriminate|].
  destruct (find_le e0mesh (snd dom)) as [e|stop]; [discriminate|].
  destruct (weights ndom _) as [e|w] eqn:W; [discriminate|].
  intros H. injection H as <-.
  exists start, stop, w. repeat split; assumption.
Qed.

(** The calls of the loop over the domains: one per domain, in order, for
    a prefix of the domains; for all of them when the loop completes. *)
Lemma fit_domains_calls (e0mesh : list Z) (qpcorrs : list complex) (k : Z) :
  forall doms ndom funcs resid tr tr' out,
    fit_domains (K := K) e0mesh qpcorrs k ndom doms funcs resid tr = (tr', out) ->
    exists calls,
      tr' = tr ++ calls /\
      (forall i c, nth_error calls i = Some c ->
         exists dom, nth_error doms i = Some dom /\
           domain_fit_call (K := K) e0mesh qpcorrs k (ndom + Z.of_nat i + 1) dom = inr c) /\
      (is_ok out = true -> length calls = length doms).
Proof.
  induction doms as [|dom rest IH]; intros ndom funcs resid tr tr' out H.
  - simpl in H. unfold fit_ret in H. injection H as <- <-.
    exists []. rewrite app_nil_r. repeat split.
    intros i c Hc. destruct i; discriminate.
  - simpl in H. unfold fit_bind, fit_lift, call_UnivariateSpline in H.
    destruct (domain_fit_call e0mesh qpcorrs k (ndom + 1) dom) as [e|c] eqn:D.
    + injection H as <- <-. exists []. rewrite app_nil_r. repeat split.
      * intros i c Hc. destruct i; discriminate.
      * discriminate.
    + destruct (UnivariateSpline c) as [f|] eqn:U.
      * apply IH in H. destruct H as [calls [Htr [Hcalls Hok]]].
        exists (c :: calls). repeat split.
        -- rewrite Htr, <- app_assoc. reflexivity.
        -- intros i c' Hc'. destruct i as [|i]; simpl in Hc'.
           ++ injection Hc' as <-. exists dom. split; [reflexivity|].
              simpl. rewrite Z.add_0_r. exact D.
           ++ destruct (Hcalls i c' Hc') as [dom' [Hd Hf]].
              exists dom'. split; [exact Hd|].
              replace (ndom + Z.of_nat (S i) + 1) with (ndom + 1 + Z.of_nat i + 1) by lia.
              exact Hf.
        -- intros Hout. simpl. f_equal. apply Hok. exact Hout.
      * injection H as <- <-. exists [c]. repeat split.
        -- intros i c' Hc'. destruct i as [|i]; simpl in Hc'.
           ++ injection Hc' as <-. exists dom. split; [reflexivity|].
              simpl. rewrite Z.add_0_r. exact D.
           ++ destruct i; discriminate.
        -- discriminate.
Qed.

(** The calls of build_scissors: none unless the domains pass the check;
    then the calls of the loop, on the sorted mesh and corrections. *)
Lemma build_scissors_calls (self : QPList K) (domains : list (Z * Z))
    (bounds : option (list (Z * Z))) (k : Z) (tr tr' : list FitCall)
    (out : res K Scissors) :
  build_scissors self domains bounds k tr = (tr', out) ->
  let qps := sorted e0 (items self) in
  exists calls,
    tr' = tr ++ calls /\
    (calls <> [] \/ is_ok out = true -> check_domains (K := K) (map e0 qps) domains = inr tt) /\
    (forall i c, nth_error calls i = Some c ->
       exists dom, nth_error domains i = Some dom /\
         domain_fit_call (K := K) (map e0 qps) (map qpeme0 qps) k
           (ndom0 domains + Z.of_nat i + 1) dom = inr c) /\
    (is_ok out = true -> length calls = length domains).
Proof.
  intros H qps. unfold build_scissors, fit_bind, fit_lift in H.
  rewrite get_e0mesh_sort_by_e0 in H. fold qps in H.
  destruct (check_domains (map e0 qps) domains) as [e|[]] eqn:C.
  - injection H as <- <-. exists []. rewrite app_nil_r. repeat split.
    + intros [Hc|Hc]; [contradiction Hc; reflexivity|discriminate].
    + intros i c Hc. destruct i; discriminate.
    + discriminate.
  - unfold get_qpeme0 in H. simpl items in H. fold qps in H.
    unfold fit_rows in H. destruct domains as [|dom0 doms0].
    + unfold fit_lift in H. injection H as <- <-.
      exists []. rewrite app_nil_r.
      split; [reflexivity|]. split; [intros _; reflexivity|].
      split; [|discriminate].
      intros i c Hc. destruct i; discriminate.
    + destruct (fit_domains (map e0 qps) (map qpeme0 qps) k
                  (ndom0 (dom0 :: doms0)) (dom0 :: doms0) [] [] tr)
        as [tr1 out1] eqn:F.
      apply fit_domains_calls in F. destruct F as [calls [Htr [Hcalls Hok]]].
      exists calls.
      assert (Hout : is_ok out = true -> is_ok out1 = true).
      { destruct out1; [injection H as _ <-; discriminate|reflexivity]. }
      assert (Htr' : tr' = tr1).
      { destruct out1; injection H as <- _; reflexivity. }
      subst tr'. repeat split.
      * exact Htr.
      * exact Hcalls.
      * intros Ho. apply Hok, Hout, Ho.
Qed.
End ScissorsFacts.

(** ** Positions found by the searches *)

Lemma first_index_where_at (p : Z -> bool) (a : list Z) :
  forall s i0,
    (s < length a)%nat ->
    p (nth s a 0) = true ->
    (forall i, (i < s)%nat -> p (nth i a 0) = false) ->
    first_index_where p a i0 = Some (i0 + s)%nat.
Proof.
  induction a as [|x t IH]; intros s i0 Hs Hp Hbefore; simpl in Hs; [lia|].
  simpl. destruct s as [|s].
  - simpl in Hp. rewrite Hp. f_equal. lia.
  - pose proof (Hbefore 0%nat ltac:(lia)) as H0. simpl in H0. rewrite H0.
    rewrite (IH s (S i0)).
    + f_equal. lia.
    + lia.
    + exact Hp.
    + intros i Hi. apply (Hbefore (S i)). lia.
Qed.

Lemma last_index_where_none (p : Z -> bool) (a : list Z) :
  forall i0, (forall i, (i < length a)%nat -> p (nth i a 0) = false) ->
             last_index_where p a i0 = None.
Proof.
  induction a as [|x t IH]; intros i0 H; simpl; [reflexivity|].
  rewrite IH.
  - pose proof (H 0%nat ltac:(simpl; lia)) as H0. simpl in H0. rewrite H0. reflexivity.
  - intros i Hi. apply (H (S i)). simpl. lia.
Qed.

Lemma last_index_where_at (p : Z -> bool) (a : list Z) :
  forall s i0,
    (s < length a)%nat ->
    p (nth s a 0) = true ->
    (forall i, (s < i < length a)%nat -> p (nth i a 0) = false) ->
    last_index_where p a i0 = Some (i0 + s)%nat.
Proof.
  induction a as [|x t IH]; intros s i0 Hs Hp Hafter; simpl in Hs; [lia|].
  simpl. destruct s as [|s].
  - rewrite last_index_where_none.
    + simpl in Hp. rewrite Hp. f_equal. lia.
    + intros i Hi. apply (Hafter (S i)). simpl. lia.
  - rewrite (IH s (S i0)).
    + f_equal. lia.
    + lia.
    + exact Hp.
    + intros i Hi. apply (Hafter (S i)). simpl. lia.
Qed.

Lemma find_ge_is_leftmost {K : Type} (a : list Z) (x : Z) (start : nat) :
  StronglySorted Z.le a ->
  find_ge (K := K) a x = inr start ->
  first_index_where (fun e => x <=? e) a 0 = Some start.
Proof.
  intros Hs H. apply find_ge_spec in H; [|exact Hs].
  destruct H as [H1 [H2 [H3 H4]]].
  apply (first_index_where_at _ a start 0%nat H1).
  - apply Z.leb_le. exact H2.
  - intros i Hi. apply Z.leb_gt. apply H3. exact Hi.
Qed.

Lemma find_le_is_rightmost {K : Type} (a : list Z) (x : Z) (stop : nat) :
  StronglySorted Z.le a ->
  find_le (K := K) a x = inr stop ->
  last_index_where (fun e => e <=? x) a 0 = Some stop.
Proof.
  intros Hs H. apply find_le_spec in H; [|exact Hs].
  destruct H as [H1 [H2 [H3 H4]]].
  apply (last_index_where_at _ a stop 0%nat H1).
  - apply Z.leb_le. exact H2.
  - intros i Hi. apply Z.leb_gt. apply H4. exact Hi.
Qed.

(** ** The runs and the weights of the fit calls *)

Section ScissorsClaims.
Context {K : Type} {KE : KpointEq K} {SL : SplineLib}.

(** C1, as the code has it.  For every QPList and every domain list, the
    [i]-th call that build_scissors makes to the fitter is made on a run of
    samples that, with exactly two domains, is not empty, and carries the
    weights: with exactly two domains, 1000 on the last sample of the
    first domain ([i = 0]) and on the first sample of the second domain
    ([i = 1]), 1 on every other sample; with any other number of domains,
    in particular more than two, no weight vector ([w = None], which the
    fitter reads as equal weights for every sample).  A run that returns a
    scissors operator has made one call per domain. *)
Theorem build_scissors_weights (self : QPList K) (domains : list (Z * Z))
    (bounds : option (list (Z * Z))) (k : Z) (i : nat) (c : FitCall) :
  nth_error (fit_calls self domains bounds k) i = Some c ->
  (length domains = 2%nat -> i = 0%nat ->
     fc_x c <> [] /\ fc_w c = Some (anchor_last (length (fc_x c)))) /\
  (length domains = 2%nat -> i = 1%nat ->
     fc_x c <> [] /\ fc_w c = Some (anchor_first (length (fc_x c)))) /\
  (length domains = 2%nat -> (i < 2)%nat) /\
  (length domains <> 2%nat -> fc_w c = None) /\
  (is_ok (outcome self domains bounds k) = true ->
     length (fit_calls self domains bounds k) = length domains).
Proof.
  intros Hc. unfold fit_calls, outcome in *.
  destruct (build_scissors self domains bounds k []) as [tr out] eqn:B.
  apply build_scissors_calls in B. cbv zeta in B.
  destruct B as [calls [Htr [_ [Hcalls Hall]]]].
  simpl in Htr, Hc. simpl fst. simpl snd. subst tr.
  destruct (Hcalls i c Hc) as [dom [Hdom Hfit]].
  apply domain_fit_call_inv in Hfit.
  destruct Hfit as [start [stop [w [_ [_ [Hw Hcall]]]]]].
  assert (Hx : fc_x c = slice (map e0 (sorted e0 (items self))) start (stop + 1))
    by (rewrite Hcall; reflexivity).
  assert (Hcw : fc_w c = w) by (rewrite Hcall; reflexivity).
  rewrite <- Hx in Hw. unfold ndom0 in Hw.
  assert (Hi : (i < length domains)%nat) by (apply nth_error_Some; congruence).
  split; [|split; [|split; [|split]]].
  - intros H2 Hi0. subst i. rewrite H2 in Hw. simpl in Hw.
    apply weights_first_domain in Hw. destruct Hw as [Hn Hw].
    split; [|congruence].
    intros E. rewrite E in Hn. apply Hn. reflexivity.
  - intros H2 Hi1. subst i. rewrite H2 in Hw. simpl in Hw.
    apply weights_second_domain in Hw. destruct Hw as [Hn Hw].
    split; [|congruence].
    intros E. rewrite E in Hn. apply Hn. reflexivity.
  - intros H2. lia.
  - intros H2. apply Nat.eqb_neq in H2. rewrite H2 in Hw.
    rewrite weights_other_domain in Hw by lia.
    injection Hw as <-. exact Hcw.
  - exact Hall.
Qed.

(** C2, as the code has it.  For every domain [low, high] for which
    build_scissors reaches the fitter, the samples fitted are the
    contiguous run of the e0-sorted samples with e0 in [low, high]; the run
    starts at the position of the leftmost sample that is at least [low]
    (found by [find_ge], the insertion point from the left) and ends at the
    position of the rightmost sample that is at most [high] (found by
    [find_le]). *)
Theorem build_scissors_domain_run (self : QPList K) (domains : list (Z * Z))
    (bounds : option (list (Z * Z))) (k : Z) (i : nat) (c : FitCall) (low high : Z) :
  nth_error (fit_calls self domains bounds k) i = Some c ->
  nth_error domains i = Some (low, high) ->
  let qps := items (sort_by_e0 self) in
  let e0mesh := map e0 qps in
  let run := filter (fun qp => in_domain low high (e0 qp)) qps in
  fc_x c = map e0 run /\
  fc_y c = map qpeme0 run /\
  exists start stop,
    find_ge (K := K) e0mesh low = inr start /\
    find_le (K := K) e0mesh high = inr stop /\
    run = slice qps start (stop + 1) /\
    first_index_where (fun e => low <=? e) e0mesh 0 = Some start /\
    last_index_where (fun e => e <=? high) e0mesh 0 = Some stop.
Proof.
  intros Hc Hd. unfold fit_calls in Hc.
  destruct (build_scissors self domains bounds k []) as [tr out] eqn:B.
  apply build_scissors_calls in B. cbv zeta in B.
  destruct B as [calls [Htr [_ [Hcalls _]]]].
  simpl in Htr, Hc. subst tr.
  destruct (Hcalls i c Hc) as [dom [Hdom Hfit]].
  rewrite Hd in Hdom. injection Hdom as <-.
  apply domain_fit_call_inv in Hfit. simpl fst in Hfit. simpl snd in Hfit.
  destruct Hfit as [start [stop [w [Hge [Hle [_ Hcall]]]]]].
  simpl. set (qps := sorted e0 (items self)) in *.
  assert (Hs : StronglySorted Z.le (map e0 qps)) by apply sorted_sorted.
  pose proof (run_is_slice e0 qps low high start stop Hs Hge Hle) as Hrun.
  repeat split.
  - rewrite Hcall. simpl. rewrite slice_map, Hrun. reflexivity.
  - rewrite Hcall. simpl. rewrite slice_map, Hrun. reflexivity.
  - exists start, stop. repeat split.
    + exact Hge.
    + exact Hle.
    + symmetry. exact Hrun.
    + eapply find_ge_is_leftmost; eassumption.
    + eapply find_le_is_rightmost; eassumption.
Qed.
End ScissorsClaims.

Lemma build_scissors_weights_witness :
  (length ex_domains = 2%nat -> 1%nat = 0%nat ->
     fc_x ex_call_1 <> [] /\ fc_w ex_call_1 = Some (anchor_last (length (fc_x ex_call_1)))) /\
  (length ex_domains = 2%nat -> 1%nat = 1%nat ->
     fc_x ex_call_1 <> [] /\ fc_w ex_call_1 = Some (anchor_first (length (fc_x ex_call_1)))) /\
  (length ex_domains = 2%nat -> (1 < 2)%nat) /\
  (length ex_domains <> 2%nat -> fc_w ex_call_1 = None) /\
  (is_ok (outcome ex_qplist ex_domains None 3) = true ->
     length (fit_calls ex_qplist ex_domains None 3) = length ex_domains).
Proof.
  apply (build_scissors_weights ex_qplist ex_domains None 3 1%nat ex_call_1).
  vm_compute. reflexivity.
Defined.

(** C1 as worded in the specification fails: on eight samples and two
    domains the anchors are on the two samples that face the junction, not
    on the outer ends. *)
Lemma build_scissors_weights_counterexample :
  fit_calls ex_qplist ex_domains None 3 = [ex_call_0; ex_call_1] /\
  ~ anchors_outer_edges (fit_calls ex_qplist ex_domains None 3).
Proof.
  split.
  - vm_compute. reflexivity.
  - intros H. destruct (H ex_call_0 ex_call_1) as [H0 _].
    + vm_compute. reflexivity.
    + vm_compute in H0. discriminate H0.
Qed.

Lemma build_scissors_domain_run_witness :
  let qps := items (sort_by_e0 ex_qplist) in
  let e0mesh := map e0 qps in
  let run := filter (fun qp => in_domain 50 100 (e0 qp)) qps in
  fc_x ex_call_1 = map e0 run /\
  fc_y ex_call_1 = map qpeme0 run /\
  exists start stop,
    find_ge (K := Z * Z * Z) e0mesh 50 = inr start /\
    find_le (K := Z * Z * Z) e0mesh 100 = inr stop /\
    run = slice qps start (stop + 1) /\
    first_index_where (fun e => 50 <=? e) e0mesh 0 = Some start /\
    last_index_where (fun e => e <=? 100) e0mesh 0 = Some stop.
Proof.
  apply (build_scissors_domain_run ex_qplist ex_domains None 3 1%nat ex_call_1 50 100).
  - vm_compute. reflexivity.
  - reflexivity.
Defined.

(** C2 as worded in the specification fails: for the second domain
    [50, 100] the greatest sample that is at most 50 is at position 3 (a
    sample outside the domain) and no sample is at least 100, while the run
    that is fitted starts at position 4. *)
Lemma build_scissors_domain_run_counterexample :
  let e0mesh := map e0 (items (sort_by_e0 ex_qplist)) in
  nth_error (fit_calls ex_qplist ex_domains None 3) 1 = Some ex_call_1 /\
  spec_start_index e0mesh 50 = Some 3%nat /\
  find_ge (K := Z * Z * Z) e0mesh 50 = inr 4%nat /\
  ~ spec_index_rule e0mesh (50, 100) ex_call_1.
Proof.
  cbv zeta. repeat split; try (vm_compute; reflexivity).
  intros [start [stop [_ [Hstop _]]]].
  vm_compute in Hstop. discriminate Hstop.
Qed.

(** ** The validation of the domains *)

Lemma min_of_sorted (a b : list Z) (mn : Z) :
  StronglySorted Z.le a -> Permutation a b -> minimum b = Some mn ->
  a <> [] /\ nth 0 a 0 = mn.
Proof.
  intros Hs Hp Hm. destruct b as [|x t]; [discriminate|].
  simpl in Hm. injection Hm as <-.
  destruct (fold_min_spec t x) as [Hin Hall].
  rewrite Forall_forall in Hall.
  destruct a as [|h a'].
  - apply Permutation_nil in Hp. discriminate.
  - split; [discriminate|]. simpl.
    apply StronglySorted_inv in Hs. destruct Hs as [_ Hh].
    rewrite Forall_forall in Hh.
    assert (H1 : fold_left Z.min t x <= h).
    { apply Hall. apply (Permutation_in _ Hp). left. reflexivity. }
    apply (Permutation_in _ (Permutation_sym Hp)) in Hin.
    destruct Hin as [Hin|Hin]; [lia|].
    specialize (Hh _ Hin). lia.
Qed.

Lemma max_of_sorted (a b : list Z) (mx : Z) :
  StronglySorted Z.le a -> Permutation a b -> maximum b = Some mx ->
  a <> [] /\ nth (length a - 1) a 0 = mx.
Proof.
  intros Hs Hp Hm. destruct b as [|x t]; [discriminate|].
  simpl in Hm. injection Hm as <-.
  destruct (fold_max_spec t x) as [Hin Hall].
  rewrite Forall_forall in Hall.
  assert (Ha : a <> []).
  { intros ->. apply Permutation_nil in Hp. discriminate. }
  split; [exact Ha|].
  assert (Hlen : (0 < length a)%nat) by (destruct a; [contradiction|simpl; lia]).
  assert (H1 : nth (length a - 1) a 0 <= fold_left Z.max t x).
  { apply Hall. apply (Permutation_in _ Hp). apply nth_In. lia. }
  apply (Permutation_in _ (Permutation_sym Hp)) in Hin.
  destruct (In_nth _ _ 0 Hin) as [i [Hi E]].
  pose proof (sorted_nth a Hs i (length a - 1)%nat). lia.
Qed.

Section ItemFacts.
Context {K A : Type}.

Lemma item_nat (a : list A) (i : nat) (d : A) :
  (i < length a)%nat -> item (K := K) a (Z.of_nat i) = inr (nth i a d).
Proof.
  intros Hi. unfold item, getitem.
  assert (E1 : (Z.of_nat i <? 0) = false) by (apply Z.ltb_ge; lia).
  rewrite E1.
  assert (E2 : (0 <=? Z.of_nat i) && (Z.of_nat i <? Z.of_nat (length a)) = true).
  { apply andb_true_iff. split; [apply Z.leb_le|apply Z.ltb_lt]; lia. }
  rewrite E2, Nat2Z.id. rewrite (nth_error_nth' a d Hi). reflexivity.
Qed.

Lemma item_last (a : list A) (d : A) :
  a <> [] -> item (K := K) a (-1) = inr (nth (length a - 1) a d).
Proof.
  intros Ha. unfold item, getitem.
  assert (Hlen : (0 < length a)%nat) by (destruct a; [contradiction|simpl; lia]).
  change (-1 <? 0) with true. cbv iota.
  assert (E2 : (0 <=? -1 + Z.of_nat (length a)) &&
               (-1 + Z.of_nat (length a) <? Z.of_nat (length a)) = true).
  { apply andb_true_iff. split; [apply Z.leb_le|apply Z.ltb_lt]; lia. }
  rewrite E2.
  replace (Z.to_nat (-1 + Z.of_nat (length a))) with (length a - 1)%nat by lia.
  rewrite (nth_error_nth' a d); [reflexivity|lia].
Qed.
End ItemFacts.

Lemma skipn_cons_nth {A : Type} (l : list A) (j : nat) (v : A) (rest : list A) (d : A) :
  skipn j l = v :: rest -> v = nth j l d /\ rest = skipn (S j) l /\ (j < length l)%nat.
Proof.
  revert j. induction l as [|x t IH]; intros j H.
  - rewrite skipn_nil in H. discriminate.
  - destruct j as [|j]; simpl in H.
    + injection H as <- <-. repeat split. simpl. lia.
    + destruct (IH j H) as [H1 [H2 H3]]. repeat split; [exact H1|exact H2|simpl; lia].
Qed.

Section CheckFacts.
Context {K : Type}.

Lemma check_boundary_spec (e0mesh dflat : list Z) (mn mx : Z) (j : nat) :
  item (K := K) e0mesh 0 = inr mn ->
  item (K := K) e0mesh (-1) = inr mx ->
  (j < length dflat)%nat ->
  match check_boundary (K := K) e0mesh dflat (Z.of_nat (length dflat)) (Z.of_nat j)
          (nth j dflat 0) with
  | inr _ =>
      (j = 0%nat -> nth 0 dflat 0 <= mn) /\
      (j = (length dflat - 1)%nat -> mx <= nth j dflat 0) /\
      ((S j < length dflat)%nat -> nth j dflat 0 <= nth (S j) dflat 0)
  | inl e => identifies_failed_check dflat mn mx e
  end.
Proof.
  intros Hmn Hmx Hj.
  unfold check_boundary, res_bind. rewrite Hmn, Hmx.
  rewrite (item_nat dflat j 0 Hj).
  set (n := length dflat) in *.
  set (v := nth j dflat 0).
  assert (Hfirst : j = 0%nat -> v > mn -> first_above_min dflat mn).
  { intros Hj0 Hv. exists v. split; [|exact Hv].
    unfold first_boundary, v. rewrite Hj0. apply nth_error_nth'. lia. }
  assert (Hlast : j = (n - 1)%nat -> v < mx -> last_below_max dflat mx).
  { intros Hjn Hv. exists v. split; [|exact Hv].
    unfold last_boundary. fold n. rewrite <- Hjn. apply nth_error_nth'. exact Hj. }
  assert (Hnext : (S j < n)%nat ->
                  item (K := K) dflat (Z.of_nat j + 1) = inr (nth (S j) dflat 0)).
  { intros H. replace (Z.of_nat j + 1) with (Z.of_nat (S j)) by lia.
    apply item_nat. exact H. }
  assert (Hprev : forall j', j = S j' ->
                  item (K := K) dflat (Z.of_nat j - 1) = inr (nth j' dflat 0)).
  { intros j' H. replace (Z.of_nat j - 1) with (Z.of_nat j') by lia.
    apply item_nat. lia. }
  assert (Hwrap : j = 0%nat -> j = (n - 1)%nat ->
                  item (K := K) dflat (Z.of_nat j - 1) = inr v).
  { intros H0 H1. replace (Z.of_nat j - 1) with (-1) by lia.
    rewrite (item_last dflat 0).
    - fold n. rewrite <- H1. reflexivity.
    - intros E. unfold n in Hj. rewrite E in Hj. simpl in Hj. lia. }
  destruct (Z.of_nat j =? 0) eqn:E0;
    [apply Z.eqb_eq in E0|apply Z.eqb_neq in E0];
    (destruct (Z.of_nat j =? Z.of_nat n - 1) eqn:En;
     [apply Z.eqb_eq in En|apply Z.eqb_neq in En]);
    simpl negb; cbv iota.
  - rewrite Hwrap by lia.
    destruct (Z.gtb_spec v mn) as [G|G]; [left; split; [reflexivity|apply Hfirst; lia]|].
    destruct (Z.ltb_spec v mx) as [L|L];
      [right; left; split; [reflexivity|apply Hlast; lia]|].
    rewrite Z.ltb_irrefl.
    repeat split; intros; try lia.
    replace 0%nat with j by lia. exact G.
  - rewrite Hnext by lia.
    destruct (Z.gtb_spec v mn) as [G|G]; [left; split; [reflexivity|apply Hfirst; lia]|].
    destruct (Z.gtb_spec v (nth (S j) dflat 0)) as [O|O].
    + right; right. split; [reflexivity|]. exists j. fold n. split; [lia|]. fold v. lia.
    + repeat split; intros; try lia.
      replace 0%nat with j by lia. exact G.
  - destruct j as [|j']; [lia|]. rewrite (Hprev j' eq_refl).
    destruct (Z.ltb_spec v mx) as [L|L];
      [right; left; split; [reflexivity|apply Hlast; lia]|].
    destruct (Z.ltb_spec v (nth j' dflat 0)) as [O|O].
    + right; right. split; [reflexivity|]. exists j'. fold n. split; [lia|]. fold v. lia.
    + repeat split; intros; try lia.
  - rewrite Hnext by lia.
    destruct (Z.gtb_spec v (nth (S j) dflat 0)) as [O|O].
    + right; right. split; [reflexivity|]. exists j. fold n. split; [lia|]. fold v. lia.
    + repeat split; intros; try lia.
Qed.

Lemma check_domains_from_spec (e0mesh dflat : list Z) (mn mx : Z) :
  item (K := K) e0mesh 0 = inr mn ->
  item (K := K) e0mesh (-1) = inr mx ->
  forall rest j,
    rest = skipn j dflat ->
    match check_domains_from (K := K) e0mesh dflat (Z.of_nat (length dflat))
            (Z.of_nat j) rest with
    | inr _ =>
        forall i, (j <= i < length dflat)%nat ->
          (i = 0%nat -> nth 0 dflat 0 <= mn) /\
          (i = (length dflat - 1)%nat -> mx <= nth i dflat 0) /\
          ((S i < length dflat)%nat -> nth i dflat 0 <= nth (S i) dflat 0)
    | inl e => identifies_failed_check dflat mn mx e
    end.
Proof.
  intros Hmn Hmx.
  induction rest as [|v rest' IH]; intros j Hrest.
  - simpl. intros i Hi.
    assert (L : length (skipn j dflat) = 0%nat) by (rewrite <- Hrest; reflexivity).
    rewrite length_skipn in L. lia.
  - symmetry in Hrest.
    destruct (skipn_cons_nth dflat j v rest' 0 Hrest) as [Hv [Hrest' Hj]].
    simpl. unfold res_bind.
    pose proof (check_boundary_spec e0mesh dflat mn mx j Hmn Hmx Hj) as Hb.
    rewrite <- Hv in Hb.
    destruct (check_boundary e0mesh dflat (Z.of_nat (length dflat)) (Z.of_nat j) v)
      as [e|u]; [exact Hb|].
    specialize (IH (S j) Hrest').
    replace (Z.of_nat (S j)) with (Z.of_nat j + 1) in IH by lia.
    destruct (check_domains_from e0mesh dflat (Z.of_nat (length dflat))
                (Z.of_nat j + 1) rest') as [e|u']; [exact IH|].
    intros i Hi.
    destruct (Nat.eq_dec i j) as [->|Hne].
    + rewrite <- Hv. exact Hb.
    + apply IH. lia.
Qed.

(** The validation passes only on boundaries that bracket the samples and
    ascend; otherwise its exception names a check that failed. *)
Lemma check_domains_spec (e0mesh : list Z) (domains : list (Z * Z)) (mn mx : Z) :
  e0mesh <> [] ->
  nth 0 e0mesh 0 = mn ->
  nth (length e0mesh - 1) e0mesh 0 = mx ->
  let dflat := ravel domains in
  match check_domains (K := K) e0mesh domains with
  | inr _ =>
      ~ first_above_min dflat mn /\ ~ last_below_max dflat mx /\ ~ out_of_order dflat
  | inl e => identifies_failed_check dflat mn mx e
  end.
Proof.
  intros Hne Hmn Hmx dflat.
  assert (Hlen : (0 < length e0mesh)%nat) by (destruct e0mesh; [contradiction|simpl; lia]).
  assert (I0 : item (K := K) e0mesh 0 = inr mn).
  { rewrite <- Hmn. apply (item_nat e0mesh 0%nat 0 Hlen). }
  assert (I1 : item (K := K) e0mesh (-1) = inr mx).
  { rewrite <- Hmx. apply item_last. exact Hne. }
  pose proof (check_domains_from_spec e0mesh dflat mn mx I0 I1 dflat 0%nat eq_refl) as H.
  unfold check_domains. fold dflat. simpl Z.of_nat in H.
  destruct (check_domains_from e0mesh dflat (Z.of_nat (length dflat)) 0 dflat)
    as [e|u]; [exact H|].
  split; [|split].
  - intros [b [Hb Hgt]]. unfold first_boundary in Hb.
    assert (Hi : (0 < length dflat)%nat) by (apply nth_error_Some; congruence).
    destruct (H 0%nat (conj (Nat.le_refl 0) Hi)) as [H0 _].
    rewrite (nth_error_nth _ _ 0 Hb) in H0. specialize (H0 eq_refl). lia.
  - intros [b [Hb Hlt]]. unfold last_boundary in Hb.
    assert (Hi : (length dflat - 1 < length dflat)%nat) by (apply nth_error_Some; congruence).
    destruct (H (length dflat - 1)%nat (conj (Nat.le_0_l _) Hi)) as [_ [H1 _]].
    rewrite (nth_error_nth _ _ 0 Hb) in H1. specialize (H1 eq_refl). lia.
  - intros [i [Hi Hgt]].
    destruct (H i) as [_ [_ H2]]; [lia|].
    specialize (H2 Hi). lia.
Qed.
End CheckFacts.

Section ValidationClaim.
Context {K : Type} {KE : KpointEq K} {SL : SplineLib}.

Lemma build_scissors_check_fails (self : QPList K) (domains : list (Z * Z))
    (bounds : option (list (Z * Z))) (k : Z) (tr : list FitCall) (e : exn K) :
  check_domains (K := K) (map e0 (sorted e0 (items self))) domains = inl e ->
  build_scissors self domains bounds k tr = (tr, inl e).
Proof.
  intros H. unfold build_scissors, fit_bind, fit_lift.
  rewrite get_e0mesh_sort_by_e0, H. reflexivity.
Qed.

(** C4, as the code has it.  For every QPList that is not empty (its
    samples have a minimum [mn] and a maximum [mx]) and every domain list:
    whenever the first boundary is above [mn], the last boundary is below
    [mx], or two consecutive flattened boundaries are out of ascending
    order, build_scissors raises a ValueError without any call to the
    fitter (the trace of calls is unchanged), and the message of the error
    is the one of a check that failed. *)
Theorem build_scissors_rejects_bad_domains (self : QPList K) (domains : list (Z * Z))
    (bounds : option (list (Z * Z))) (k : Z) (tr : list FitCall) (mn mx : Z) :
  minimum (map e0 (items self)) = Some mn ->
  maximum (map e0 (items self)) = Some mx ->
  first_above_min (ravel domains) mn \/
  last_below_max (ravel domains) mx \/
  out_of_order (ravel domains) ->
  exists fmt arg,
    build_scissors self domains bounds k tr = (tr, inl (ValueError fmt arg)) /\
    identifies_failed_check (ravel domains) mn mx (ValueError (K := K) fmt arg).
Proof.
  intros Hmin Hmax Hbad.
  set (e0mesh := map e0 (sorted e0 (items self))).
  assert (Hs : StronglySorted Z.le e0mesh) by apply sorted_sorted.
  assert (Hp : Permutation e0mesh (map e0 (items self))).
  { apply Permutation_map, sorted_perm. }
  destruct (min_of_sorted _ _ _ Hs Hp Hmin) as [Hne Hmn].
  destruct (max_of_sorted _ _ _ Hs Hp Hmax) as [_ Hmx].
  pose proof (check_domains_spec (K := K) e0mesh domains mn mx Hne Hmn Hmx) as H.
  cbv zeta in H.
  destruct (check_domains e0mesh domains) as [e|u] eqn:C.
  - assert (He : exists fmt arg, e = ValueError fmt arg).
    { destruct H as [[-> _]|[[-> _]|[-> _]]]; eexists; eexists; reflexivity. }
    destruct He as [fmt [arg ->]].
    exists fmt, arg. split; [|exact H].
    apply build_scissors_check_fails. exact C.
  - destruct H as [H1 [H2 H3]].
    destruct Hbad as [Hb|[Hb|Hb]]; contradiction.
Qed.
End ValidationClaim.

Lemma build_scissors_rejects_bad_domains_witness :
  exists fmt arg,
    build_scissors ex_qplist [(20, 100)] None 3 [] = ([], inl (ValueError fmt arg)) /\
    identifies_failed_check (ravel [(20, 100)]) 10 90 (ValueError (K := Z * Z * Z) fmt arg).
Proof.
  apply (build_scissors_rejects_bad_domains ex_qplist [(20, 100)] None 3 [] 10 90).
  - reflexivity.
  - reflexivity.
  - left. exists 20. split; [reflexivity|lia].
Defined.

(** C4 as worded in the specification fails on the empty QPList: with
    boundaries out of order the first test of the loop reads [e0mesh[0]] and
    the exception is IndexError, not ValueError. *)
Lemma build_scissors_rejects_bad_domains_counterexample :
  out_of_order (ravel [(2, 1)]) /\
  build_scissors (K := Z * Z * Z) (QPList_init [] None) [(2, 1)] None 3 [] =
    ([], inl IndexError).
Proof.
  split.
  - exists 0%nat. simpl. split; lia.
  - reflexivity.
Qed.

(** ** Merging *)

Section MergeFacts.
Context {K : Type} {KE : KpointEq K}.

Lemma QPState_copy_id (qp : QPState K) : QPState_copy qp = qp.
Proof. destruct qp. reflexivity. Qed.

Lemma map_QPState_copy (l : list (QPState K)) : map QPState_copy l = l.
Proof.
  induction l as [|x t IH]; simpl; [reflexivity|].
  rewrite QPState_copy_id, IH. reflexivity.
Qed.

Lemma skb_in_spec (key : Z * K * Z) (l : list (QPState K)) :
  skb_in key (map skb l) = true <-> exists p, In p l /\ skb_eqb key (skb p) = true.
Proof.
  unfold skb_in. rewrite existsb_exists. split.
  - intros [key0 [Hin He]]. apply in_map_iff in Hin.
    destruct Hin as [p [<- Hp]]. exists p. split; assumption.
  - intros [p [Hp He]]. exists (skb p). split; [apply in_map; exact Hp|exact He].
Qed.

(** The loop of [merge] raises exactly when the keys collide, and then
    with the key of the first record of [other] that collides. *)
Lemma merge_check_spec (self other : list (QPState K)) :
  match merge_check (map skb self) other with
  | inr _ => ~ keys_collide self other
  | inl e =>
      keys_collide self other /\
      exists q, In q other /\ e = ValueError msg_duplicated (ArgSkb (skb q))
  end.
Proof.
  induction other as [|q rest IH]; simpl.
  - intros [q [p [Hq _]]]. contradiction.
  - destruct (skb_in (skb q) (map skb self)) eqn:E.
    + split.
      * apply skb_in_spec in E. destruct E as [p [Hp He]].
        exists q, p. repeat split; [left; reflexivity|exact Hp|exact He].
      * exists q. split; [left; reflexivity|reflexivity].
    + destruct (merge_check (map skb self) rest) as [e|u].
      * destruct IH as [[q' [p [Hq' [Hp He]]]] [q'' [Hq'' Hee]]]. split.
        -- exists q', p. repeat split; [right; exact Hq'|exact Hp|exact He].
        -- exists q''. split; [right; exact Hq''|exact Hee].
      * intros [q' [p [[<-|Hq'] [Hp He]]]].
        -- assert (skb_in (skb q) (map skb self) = true)
             by (apply skb_in_spec; exists p; split; assumption).
           congruence.
        -- apply IH. exists q', p. repeat split; assumption.
Qed.

(** [merge_obj] computes [merge] on the values of its operands. *)
Lemma merge_obj_value (st : Store K) (self other : nat) (copy : bool) (s o : QPList K) :
  nth_error st self = Some s -> nth_error st other = Some o ->
  match merge s o copy with
  | inl e => merge_obj st self other copy = Some (st, inl e)
  | inr m =>
      exists st', merge_obj st self other copy = Some (st', inr (length st' - 1)%nat) /\
                  nth_error st' (length st' - 1) = Some m /\
                  firstn (length st) st' = st
  end.
Proof.
  intros Hs Ho. unfold merge, merge_obj, res_bind. rewrite Hs, Ho.
  destruct (merge_check (map skb (items s)) (items o)) as [e|u]; [reflexivity|].
  destruct copy; unfold new_QPList.
  - eexists. split; [|split].
    + f_equal. f_equal. f_equal. rewrite !length_app. simpl. lia.
    + rewrite nth_error_app2 by (rewrite !length_app; simpl; lia).
      rewrite !length_app. simpl.
      replace (length st + 1 + 1 + 1 - 1 - (length st + 1 + 1))%nat with 0%nat by lia.
      reflexivity.
    + rewrite <- !app_assoc. rewrite firstn_app, firstn_all, Nat.sub_diag. simpl.
      apply app_nil_r.
  - eexists. split; [|split].
    + f_equal. f_equal. f_equal. rewrite !length_app. simpl. lia.
    + rewrite nth_error_app2 by (rewrite !length_app; simpl; lia).
      rewrite !length_app. simpl.
      replace (length st + 1 - 1 - length st)%nat with 0%nat by lia.
      reflexivity.
    + rewrite firstn_app, firstn_all, Nat.sub_diag. simpl. apply app_nil_r.
Qed.

Lemma keys_collide_bool (self other : list (QPState K)) :
  keys_collide self other <->
  existsb (fun q => skb_in (skb q) (map skb self)) other = true.
Proof.
  rewrite existsb_exists. split.
  - intros [q [p [Hq [Hp He]]]]. exists q. split; [exact Hq|].
    apply skb_in_spec. exists p. split; assumption.
  - intros [q [Hq He]]. apply skb_in_spec in He. destruct He as [p [Hp He]].
    exists q, p. repeat split; assumption.
Qed.

Lemma has_duplicate_key_app_l (l1 l2 : list (QPState K)) :
  has_duplicate_key l1 -> has_duplicate_key (l1 ++ l2).
Proof.
  intros [i [j [p [q [Hij [Hp [Hq He]]]]]]].
  assert (Hj : (j < length l1)%nat) by (apply nth_error_Some; congruence).
  exists i, j, p, q. repeat split; try assumption.
  - rewrite nth_error_app1 by lia. exact Hp.
  - rewrite nth_error_app1 by lia. exact Hq.
Qed.

Lemma has_duplicate_key_app_r (l1 l2 : list (QPState K)) :
  has_duplicate_key l2 -> has_duplicate_key (l1 ++ l2).
Proof.
  intros [i [j [p [q [Hij [Hp [Hq He]]]]]]].
  exists (length l1 + i)%nat, (length l1 + j)%nat, p, q. repeat split; try assumption.
  - lia.
  - rewrite nth_error_app2 by lia.
    replace (length l1 + i - length l1)%nat with i by lia. exact Hp.
  - rewrite nth_error_app2 by lia.
    replace (length l1 + j - length l1)%nat with j by lia. exact Hq.
Qed.
End MergeFacts.

Lemma nth_error_app_old {A : Type} (st l : list A) (i : nat) (x : A) :
  nth_error st i = Some x -> nth_error (st ++ l) i = Some x.
Proof.
  intros H. rewrite nth_error_app1; [exact H|].
  apply nth_error_Some. congruence.
Qed.

Lemma nth_error_app_new {A : Type} (st : list A) (x : A) :
  nth_error (st ++ [x]) (length st) = Some x.
Proof.
  rewrite nth_error_app2 by lia. rewrite Nat.sub_diag. reflexivity.
Qed.

Section MergeClaims.
Context {K : Type} {KE : KpointEq K}.

(** C5.  For every pair of QPLists [self] and [other] (objects of a
    store), [merge] raises if and only if some record of [other] has a
    (spin, kpoint, band) key equal to the key of a record of [self]; the
    exception is then the duplicate-key ValueError, the store is left as
    it was, and in every case the two operands keep their value.  When the
    keys do not collide, [merge] returns a new object, a QPList whose
    length is [len(self) + len(other)] and whose records are those of
    [self] followed by those of [other]. *)
Theorem merge_obj_spec (st : Store K) (self other : nat) (copy : bool) (s o : QPList K) :
  nth_error st self = Some s ->
  nth_error st other = Some o ->
  exists st' r,
    merge_obj st self other copy = Some (st', r) /\
    nth_error st' self = Some s /\
    nth_error st' other = Some o /\
    (is_ok r = false <-> keys_collide (items s) (items o)) /\
    (keys_collide (items s) (items o) ->
       st' = st /\
       exists q, In q (items o) /\ r = inl (ValueError msg_duplicated (ArgSkb (skb q)))) /\
    (~ keys_collide (items s) (items o) ->
       exists new m,
         r = inr new /\
         nth_error st new = None /\
         nth_error st' new = Some m /\
         items m = items s ++ items o /\
         length (items m) = (length (items s) + length (items o))%nat).
Proof.
  intros Hs Ho. unfold merge_obj. rewrite Hs, Ho.
  pose proof (merge_check_spec (items s) (items o)) as HM.
  destruct (merge_check (map skb (items s)) (items o)) as [e|u].
  - destruct HM as [Hcol [q [Hq He]]].
    exists st, (inl e).
    split; [reflexivity|]. split; [exact Hs|]. split; [exact Ho|].
    split; [split; [intros _; exact Hcol|reflexivity]|].
    split.
    + intros _. split; [reflexivity|].
      exists q. split; [exact Hq|]. rewrite He. reflexivity.
    + intros Hn. contradiction.
  - destruct copy; unfold new_QPList; simpl.
    + eexists. eexists.
      split; [reflexivity|].
      split; [repeat apply nth_error_app_old; exact Hs|].
      split; [repeat apply nth_error_app_old; exact Ho|].
      split; [split; [discriminate|intros Hc; contradiction]|].
      split; [intros Hc; contradiction|].
      intros _. eexists. eexists.
      split; [reflexivity|].
      split; [apply nth_error_None; rewrite !length_app; simpl; lia|].
      split; [apply nth_error_app_new|].
      simpl. rewrite !map_QPState_copy.
      split; [reflexivity|apply length_app].
    + eexists. eexists.
      split; [reflexivity|].
      split; [apply nth_error_app_old; exact Hs|].
      split; [apply nth_error_app_old; exact Ho|].
      split; [split; [discriminate|intros Hc; contradiction]|].
      split; [intros Hc; contradiction|].
      intros _. eexists. eexists.
      split; [reflexivity|].
      split; [apply nth_error_None; lia|].
      split; [apply nth_error_app_new|].
      simpl. split; [reflexivity|apply length_app].
Qed.

(** C8.  For every pair of QPLists whose merge succeeds, whatever the
    flags of the operands, the result has [is_e0sorted] false, so that
    [get_e0mesh] on it raises ValueError; after [sort_by_e0] the mesh is
    returned. *)
Theorem merge_result_not_e0sorted (self other : QPList K) (copy : bool) (r : QPList K) :
  merge self other copy = inr r ->
  is_e0sorted r = false /\
  get_e0mesh r = inl (ValueError msg_not_sorted NoArg) /\
  get_e0mesh (sort_by_e0 r) = inr (map e0 (sorted e0 (items r))).
Proof.
  unfold merge, res_bind.
  destruct (merge_check (map skb (items self)) (items other)) as [e|u]; [discriminate|].
  intros H. injection H as <-. repeat split.
Qed.

(** C9.  [merge] compares keys across the two operands only: whenever no
    key of [other] occurs in [self] it succeeds and returns the records of
    both, and a key that occurs twice inside [self] or inside [other] then
    occurs twice in the result. *)
Theorem merge_keeps_internal_duplicates (self other : QPList K) (copy : bool) :
  ~ keys_collide (items self) (items other) ->
  exists r,
    merge self other copy = inr r /\
    items r = items self ++ items other /\
    (has_duplicate_key (items self) \/ has_duplicate_key (items other) ->
     has_duplicate_key (items r)).
Proof.
  intros Hn. unfold merge, res_bind.
  pose proof (merge_check_spec (items self) (items other)) as HM.
  destruct (merge_check (map skb (items self)) (items other)) as [e|u].
  - destruct HM as [Hc _]. contradiction.
  - eexists. split; [reflexivity|].
    assert (E : items (QPList_init
                  (if copy
                   then items (QPList_copy self) ++ items (QPList_copy other)
                   else items self ++ items other) None) = items self ++ items other).
    { destruct copy; simpl; [rewrite !map_QPState_copy|]; reflexivity. }
    split; [exact E|].
    rewrite E. intros [H|H].
    + apply has_duplicate_key_app_l. exact H.
    + apply has_duplicate_key_app_r. exact H.
Qed.

(** C7.  For every QPList (an object of a store), [sort_by_e0] returns a
    new object and leaves [self] as it was; the new list holds the records
    of [self] with their e0 in non-decreasing order, its flag
    [is_e0sorted] is true and [get_e0mesh] returns that non-decreasing
    sequence.  On any collection whose flag is false [get_e0mesh] raises
    ValueError. *)
Theorem sort_by_e0_spec (st : Store K) (self : nat) (s : QPList K) :
  nth_error st self = Some s ->
  exists st' new,
    sort_by_e0_obj st self = Some (st', new) /\
    nth_error st new = None /\
    nth_error st' new = Some (sort_by_e0 s) /\
    nth_error st' self = Some s /\
    Permutation (items (sort_by_e0 s)) (items s) /\
    StronglySorted Z.le (map e0 (items (sort_by_e0 s))) /\
    is_e0sorted (sort_by_e0 s) = true /\
    get_e0mesh (sort_by_e0 s) = inr (map e0 (items (sort_by_e0 s))) /\
    (forall q : QPList K,
       is_e0sorted q = false -> get_e0mesh q = inl (ValueError msg_not_sorted NoArg)).
Proof.
  intros Hs. unfold sort_by_e0_obj. rewrite Hs. unfold new_QPList.
  eexists. eexists. split; [reflexivity|]. repeat split.
  - apply nth_error_None. lia.
  - apply nth_error_app_new.
  - apply nth_error_app_old. exact Hs.
  - simpl. apply sorted_perm.
  - simpl. apply sorted_sorted.
  - intros q Hq. unfold get_e0mesh. rewrite Hq. reflexivity.
Qed.
End MergeClaims.

Lemma merge_obj_spec_witness :
  exists st' r,
    merge_obj ex_store 0 1 false = Some (st', r) /\
    nth_error st' 0 = Some ex_self /\
    nth_error st' 1 = Some ex_other /\
    (is_ok r = false <-> keys_collide (items ex_self) (items ex_other)) /\
    (keys_collide (items ex_self) (items ex_other) ->
       st' = ex_store /\
       exists q, In q (items ex_other) /\ r = inl (ValueError msg_duplicated (ArgSkb (skb q)))) /\
    (~ keys_collide (items ex_self) (items ex_other) ->
       exists new m,
         r = inr new /\
         nth_error ex_store new = None /\
         nth_error st' new = Some m /\
         items m = items ex_self ++ items ex_other /\
         length (items m) = (length (items ex_self) + length (items ex_other))%nat).
Proof.
  apply (merge_obj_spec ex_store 0%nat 1%nat false ex_self ex_other).
  - reflexivity.
  - reflexivity.
Defined.

Lemma merge_result_not_e0sorted_witness :
  let r := QPList_init (items ex_self ++ items ex_other) None in
  is_e0sorted ex_self = true /\ is_e0sorted ex_other = true /\
  is_e0sorted r = false /\
  get_e0mesh r = inl (ValueError msg_not_sorted NoArg) /\
  get_e0mesh (sort_by_e0 r) = inr (map e0 (sorted e0 (items r))).
Proof.
  split; [reflexivity|]. split; [reflexivity|].
  apply (merge_result_not_e0sorted ex_self ex_other false).
  reflexivity.
Defined.

Lemma merge_keeps_internal_duplicates_witness :
  exists r,
    merge ex_self ex_repeating false = inr r /\
    items r = items ex_self ++ items ex_repeating /\
    (has_duplicate_key (items ex_self) \/ has_duplicate_key (items ex_repeating) ->
     has_duplicate_key (items r)).
Proof.
  apply (merge_keeps_internal_duplicates ex_self ex_repeating false).
  intros H. apply keys_collide_bool in H. vm_compute in H. discriminate H.
Defined.

Lemma sort_by_e0_spec_witness :
  exists st' new,
    sort_by_e0_obj ex_store 0 = Some (st', new) /\
    nth_error ex_store new = None /\
    nth_error st' new = Some (sort_by_e0 ex_self) /\
    nth_error st' 0 = Some ex_self /\
    Permutation (items (sort_by_e0 ex_self)) (items ex_self) /\
    StronglySorted Z.le (map e0 (items (sort_by_e0 ex_self))) /\
    is_e0sorted (sort_by_e0 ex_self) = true /\
    get_e0mesh (sort_by_e0 ex_self) = inr (map e0 (items (sort_by_e0 ex_self))) /\
    (forall q : QPList (Z * Z * Z),
       is_e0sorted q = false -> get_e0mesh q = inl (ValueError msg_not_sorted NoArg)).
Proof.
  apply (sort_by_e0_spec ex_store 0%nat ex_self).
  reflexivity.
Defined.

(** ** Independence of the order and of the flag of the input *)

Section OrderFacts.
Context {K : Type} {KE : KpointEq K} {SL : SplineLib}.

Lemma sorted_samples_permutation (l l' : list (QPState K)) :
  Permutation l l' -> ties_agree l ->
  map sample (sorted e0 l) = map sample (sorted e0 l').
Proof.
  intros Hp Hties.
  apply sorted_perm_unique.
  - rewrite map_map. apply (sorted_sorted e0).
  - rewrite map_map. apply (sorted_sorted e0).
  - apply Permutation_map.
    apply Permutation_trans with l; [apply sorted_perm|].
    apply Permutation_trans with l'; [exact Hp|].
    apply Permutation_sym, sorted_perm.
  - intros x y Hx Hy Hxy.
    apply in_map_iff in Hx. destruct Hx as [p [<- Hpin]].
    apply in_map_iff in Hy. destruct Hy as [q [<- Hqin]].
    apply sorted_In in Hpin. apply sorted_In in Hqin.
    unfold sample in *. simpl in Hxy.
    rewrite (Hties p q Hpin Hqin Hxy), Hxy. reflexivity.
Qed.

Lemma map_e0_of_samples (l : list (QPState K)) : map e0 l = map fst (map sample l).
Proof. rewrite map_map. reflexivity. Qed.

Lemma map_qpeme0_of_samples (l : list (QPState K)) : map qpeme0 l = map snd (map sample l).
Proof. rewrite map_map. reflexivity. Qed.

(** build_scissors reads its input through the sorted samples only. *)
Lemma build_scissors_samples (a b : QPList K) (domains : list (Z * Z))
    (bounds : option (list (Z * Z))) (k : Z) (tr : list FitCall) :
  map sample (sorted e0 (items a)) = map sample (sorted e0 (items b)) ->
  build_scissors a domains bounds k tr = build_scissors b domains bounds k tr.
Proof.
  intros H. unfold build_scissors, fit_bind, fit_lift.
  rewrite !get_e0mesh_sort_by_e0. unfold get_qpeme0. simpl items.
  rewrite !map_e0_of_samples, !map_qpeme0_of_samples, H. reflexivity.
Qed.

Ltac split_branches :=
  repeat match goal with
         | |- context [match getitem ?a ?i with _ => _ end] => destruct (getitem a i)
         | |- context [match setitem ?a ?i ?v with _ => _ end] => destruct (setitem a i v)
         | |- context [if ?b then _ else _] => destruct b
         end.

Ltac other_error :=
  let H := fresh in
  intros H; try discriminate H; injection H as <-; vm_compute; discriminate.

Lemma check_boundary_no_flag_error (e0mesh dflat : list Z) (dsize idx v : Z) (e : exn K) :
  check_boundary (K := K) e0mesh dflat dsize idx v = inl e -> e <> flag_error.
Proof.
  unfold check_boundary, res_bind, item. split_branches; other_error.
Qed.

Lemma check_domains_from_no_flag_error (e0mesh dflat : list Z) (dsize : Z) :
  forall rest idx (e : exn K),
    check_domains_from (K := K) e0mesh dflat dsize idx rest = inl e -> e <> flag_error.
Proof.
  induction rest as [|v rest IH]; intros idx e; simpl; [discriminate|].
  unfold res_bind.
  destruct (check_boundary e0mesh dflat dsize idx v) as [e1|u] eqn:B.
  - intros H. injection H as <-. eapply check_boundary_no_flag_error. exact B.
  - apply IH.
Qed.

Lemma domain_fit_call_no_flag_error (e0mesh : list Z) (qpcorrs : list complex)
    (k ndom : Z) (dom : Z * Z) (e : exn K) :
  domain_fit_call (K := K) e0mesh qpcorrs k ndom dom = inl e -> e <> flag_error.
Proof.
  unfold domain_fit_call, res_bind, find_ge, find_le, weights.
  split_branches; other_error.
Qed.

Lemma fit_domains_no_flag_error (e0mesh : list Z) (qpcorrs : list complex) (k : Z) :
  forall doms ndom funcs resid tr tr' (e : exn K),
    fit_domains (K := K) e0mesh qpcorrs k ndom doms funcs resid tr = (tr', inl e) ->
    e <> flag_error.
Proof.
  induction doms as [|dom rest IH]; intros ndom funcs resid tr tr' e; simpl.
  - unfold fit_ret. discriminate.
  - unfold fit_bind, fit_lift, call_UnivariateSpline.
    destruct (domain_fit_call e0mesh qpcorrs k (ndom + 1) dom) as [e1|c] eqn:D.
    + intros H. injection H as _ <-. eapply domain_fit_call_no_flag_error. exact D.
    + destruct (UnivariateSpline c) as [f|].
      * apply IH.
      * intros H. injection H as _ <-. discriminate.
Qed.

Lemma build_scissors_no_flag_error (self : QPList K) (domains : list (Z * Z))
    (bounds : option (list (Z * Z))) (k : Z) (tr : list FitCall) :
  snd (build_scissors self domains bounds k tr) <> inl flag_error.
Proof.
  unfold build_scissors, fit_bind, fit_lift.
  rewrite get_e0mesh_sort_by_e0.
  destruct (check_domains (map e0 (sorted e0 (items self))) domains) as [e|u] eqn:C.
  - simpl. intros H. injection H as ->.
    unfold check_domains in C.
    apply check_domains_from_no_flag_error in C. apply C. reflexivity.
  - unfold fit_rows. destruct domains as [|dom0 doms0].
    + simpl. unfold flag_error. discriminate.
    + destruct (fit_domains (map e0 (sorted e0 (items self)))
                  (get_qpeme0 (sort_by_e0 self)) k (ndom0 (dom0 :: doms0))
                  (dom0 :: doms0) [] [] tr)
        as [tr1 [e|fq]] eqn:F.
      * simpl. intros H. injection H as ->.
        apply fit_domains_no_flag_error in F. apply F. reflexivity.
      * simpl. discriminate.
Qed.
End OrderFacts.

Section OrderClaim.
Context {K : Type} {KE : KpointEq K} {SL : SplineLib}.

(** C10, as the code has it.  build_scissors sorts the samples by e0
    itself, before it validates the domains and fits: whatever the
    sorted-by-e0 flags of the inputs, it never raises the error of an
    unsorted collection, and for every two QPLists that hold the same
    records in any order, in which records of equal e0 carry equal
    corrections (for instance when all e0 differ), it makes the same calls
    to the fitter and returns the same result. *)
Theorem build_scissors_order_independent (a b : QPList K) (domains : list (Z * Z))
    (bounds : option (list (Z * Z))) (k : Z) (tr : list FitCall) :
  Permutation (items a) (items b) ->
  ties_agree (items a) ->
  build_scissors a domains bounds k tr = build_scissors b domains bounds k tr /\
  get_e0mesh (sort_by_e0 a) = inr (map e0 (sorted e0 (items a))) /\
  snd (build_scissors a domains bounds k tr) <> inl flag_error.
Proof.
  intros Hp Hties. split; [|split].
  - apply build_scissors_samples. apply sorted_samples_permutation; assumption.
  - reflexivity.
  - apply build_scissors_no_flag_error.
Qed.
End OrderClaim.

Lemma ex_records_ties_agree : ties_agree ex_records.
Proof.
  intros p q Hp Hq.
  simpl in Hp, Hq.
  repeat (destruct Hp as [<-|Hp]; [|]); try contradiction;
    repeat (destruct Hq as [<-|Hq]; [|]); try contradiction;
    intros E; try reflexivity; vm_compute in E; discriminate E.
Qed.

Lemma build_scissors_order_independent_witness :
  build_scissors ex_qplist ex_domains None 3 [] =
    build_scissors (QPList_init (rev ex_records) (Some true)) ex_domains None 3 [] /\
  get_e0mesh (sort_by_e0 ex_qplist) = inr (map e0 (sorted e0 (items ex_qplist))) /\
  snd (build_scissors ex_qplist ex_domains None 3 []) <> inl flag_error.
Proof.
  apply (build_scissors_order_independent
           ex_qplist (QPList_init (rev ex_records) (Some true)) ex_domains None 3 []).
  - apply Permutation_rev.
  - exact ex_records_ties_agree.
Defined.

(** C10 as worded in the specification fails: two records of equal e0 and
    different corrections, last in the first of two domains, exchange the
    anchor when the input is permuted; the fitter receives other data. *)
Lemma build_scissors_order_independent_counterexample :
  Permutation ex_tie_records_a ex_tie_records_b /\
  fit_calls (QPList_init ex_tie_records_a None) ex_domains None 3 <>
  fit_calls (QPList_init ex_tie_records_b None) ex_domains None 3 /\
  outcome (QPList_init ex_tie_records_a None) ex_domains None 3 <>
  outcome (QPList_init ex_tie_records_b None) ex_domains None 3.
Proof.
  split; [|split].
  - unfold ex_tie_records_a, ex_tie_records_b.
    do 3 apply perm_skip. apply perm_swap.
  - vm_compute. discriminate.
  - vm_compute. discriminate.
Qed.

(** ** The guards of interpolate *)

Section InterpolateClaims.
Context {K S : Type} {KE : KpointEq K} {SE : StructureEq S}.

(** Every GW k-point of the file is found among the k-points of the IBZ. *)
Definition gwkpoints_in_ibz (self : SigresFile K S) : Prop :=
  forall gwk, In gwk (gwkpoints self) ->
    exists k, In k (ibz self) /\ kpt_eq k gwk = true.

Lemma ibz_index_found (kpoints : list K) (kpoint : K) :
  forall i, (exists k, In k kpoints /\ kpt_eq k kpoint = true) ->
    exists j, ibz_index kpoints kpoint i = inr j.
Proof.
  induction kpoints as [|k rest IH]; intros i [k' [Hin Hk']]; [destruct Hin|].
  cbn [ibz_index]. destruct (kpt_eq k kpoint) eqn:E; [exists i; reflexivity|].
  apply IH. exists k'. split; [|exact Hk'].
  destruct Hin as [<-|Hin]; [congruence|exact Hin].
Qed.

Lemma ibz_index_missing (kpoints : list K) (kpoint : K) :
  forall i, (forall k, In k kpoints -> kpt_eq k kpoint = false) ->
    ibz_index kpoints kpoint i = inl KpointsError.
Proof.
  induction kpoints as [|k rest IH]; intros i H; [reflexivity|].
  cbn [ibz_index]. rewrite (H k (or_introl eq_refl)).
  apply IH. intros k' Hk'. apply H. right. exact Hk'.
Qed.

Lemma ibz_index_inv (kpoints : list K) (kpoint : K) :
  forall i j, ibz_index kpoints kpoint i = inr j ->
    exists k, In k kpoints /\ kpt_eq k kpoint = true.
Proof.
  induction kpoints as [|k rest IH]; intros i j H; cbn [ibz_index] in H; [discriminate|].
  destruct (kpt_eq k kpoint) eqn:E.
  - exists k. split; [left; reflexivity|exact E].
  - destruct (IH _ _ H) as [k' [Hin Hk']]. exists k'. split; [right; exact Hin|exact Hk'].
Qed.

Lemma ibz_index_error (kpoints : list K) (kpoint : K) :
  forall i e, ibz_index kpoints kpoint i = inl e ->
    e = KpointsError /\ forall k, In k kpoints -> kpt_eq k kpoint = false.
Proof.
  induction kpoints as [|k rest IH]; intros i e H; cbn [ibz_index] in H.
  - injection H as <-. split; [reflexivity|intros k []].
  - destruct (kpt_eq k kpoint) eqn:E; [discriminate|].
    destruct (IH _ _ H) as [He Hall]. split; [exact He|].
    intros k' [<-|Hk']; [exact E|apply Hall; exact Hk'].
Qed.

(** The loop over the GW k-points passes exactly when every one of them is
    found in the IBZ; it fails with the exception of the look-up. *)
Lemma gwk_indices_spec (self : SigresFile K S) (gwks : list K) :
  match gwk_indices self gwks with
  | inr _ => forall gwk, In gwk gwks -> exists k, In k (ibz self) /\ kpt_eq k gwk = true
  | inl e =>
      e = KpointsError /\
      exists gwk, In gwk gwks /\ forall k, In k (ibz self) -> kpt_eq k gwk = false
  end.
Proof.
  induction gwks as [|gwk rest IH]; cbn [gwk_indices]; [intros gwk []|].
  unfold res_bind.
  destruct (ibz_index (ibz self) gwk 0) as [e|ik] eqn:E.
  - destruct (ibz_index_error _ _ _ _ E) as [-> Hall]. split; [reflexivity|].
    exists gwk. split; [left; reflexivity|exact Hall].
  - destruct (gwk_indices self rest) as [e|iks].
    + destruct IH as [-> [g [Hg Hall]]]. split; [reflexivity|].
      exists g. split; [right; exact Hg|exact Hall].
    + intros g [<-|Hg]; [exact (ibz_index_inv _ _ _ _ E)|apply IH; exact Hg].
Qed.

Lemma gwk_indices_pass (self : SigresFile K S) :
  gwkpoints_in_ibz self -> exists iks, gwk_indices self (gwkpoints self) = inr iks.
Proof.
  intros H. pose proof (gwk_indices_spec self (gwkpoints self)) as G.
  destruct (gwk_indices self (gwkpoints self)) as [e|iks]; [|exists iks; reflexivity].
  destruct G as [_ [gwk [Hg Hall]]]. destruct (H gwk Hg) as [k [Hk E]].
  rewrite (Hall k Hk) in E. discriminate E.
Qed.

Lemma gwk_indices_pass_inv (self : SigresFile K S) (iks : list Z) :
  gwk_indices self (gwkpoints self) = inr iks -> gwkpoints_in_ibz self.
Proof.
  intros E. pose proof (gwk_indices_spec self (gwkpoints self)) as G.
  rewrite E in G. exact G.
Qed.

Lemma gwk_indices_fail (self : SigresFile K S) :
  (exists gwk, In gwk (gwkpoints self) /\
               forall k, In k (ibz self) -> kpt_eq k gwk = false) ->
  gwk_indices self (gwkpoints self) = inl KpointsError.
Proof.
  intros [gwk [Hg Hall]]. pose proof (gwk_indices_spec self (gwkpoints self)) as G.
  destruct (gwk_indices self (gwkpoints self)) as [e|iks].
  - destruct G as [-> _]. reflexivity.
  - destruct (G gwk Hg) as [k [Hk E]]. rewrite (Hall k Hk) in E. discriminate E.
Qed.

(** With a single GW k-point the method raises ValueError before the
    interpolator is built. *)
Lemma interpolate_single_kpoint (self : SigresFile K S) (kpath kmesh : option (EBands S)) :
  length (gwkpoints self) = 1%nat ->
  exists msg, interpolate (K := K) self kpath kmesh = ([], inl (ValueError msg NoArg)).
Proof.
  intros H. unfold interpolate.
  destruct (errlines self) as [|line rest] eqn:E.
  - unfold errlines in E. rewrite H in E. simpl in E.
    apply app_eq_nil in E. destruct E as [_ E]. discriminate E.
  - eexists. reflexivity.
Qed.

(** C3, as the code has it.  When the k-point guard passes, every GW
    k-point is found in the IBZ and [ks_ebands_kpath] is supplied with a
    structure that differs from the structure of the SIGRES file: with no
    [ks_ebands_kmesh], the mismatch is printed as a warning, the
    interpolator is built and the call returns the bundle; with a
    [ks_ebands_kmesh] whose structure differs as well (and which has enough
    bands), the call raises ValueError: on the k-mesh path a mismatch of
    structures is fatal. *)
Theorem interpolate_structure_mismatch (self : SigresFile K S) (kp km : EBands S) :
  errlines self = [] ->
  gwkpoints_in_ibz self ->
  structure_neq (eb_structure kp) (structure self) = true ->
  (exists log b,
     interpolate (K := K) self (Some kp) None = (log, inr b) /\
     warned msg_kpath_structure log = true /\
     built_interpolator log = true /\
     ks_ebands_kpath b = Some kp /\
     qp_ebands_kmesh b = None) /\
  (structure_neq (eb_structure km) (structure self) = true ->
   Z.min (nband kp) (min_gwbstop self) <= nband km ->
   exists log,
     interpolate (K := K) self (Some kp) (Some km) =
       (log, inl (ValueError msg_kmesh_structure NoArg)) /\
     warned msg_kpath_structure log = true).
Proof.
  intros Herr Hibz Hneq. unfold interpolate. rewrite Herr.
  destruct (gwk_indices_pass self Hibz) as [iks Hiks]. rewrite Hiks.
  unfold band_range. rewrite Hneq.
  split.
  - destruct (nband kp <? min_gwbstop self);
      eexists; eexists; (split; [reflexivity|]); repeat split.
  - intros Hneq' Hbands. unfold kmesh_part.
    assert (E : (Z.min (nband kp) (min_gwbstop self) >? nband km) = false).
    { rewrite Z.gtb_ltb. apply Z.ltb_ge. exact Hbands. }
    rewrite E, Hneq.
    destruct (nband kp <? min_gwbstop self);
      eexists; (split; [reflexivity|]); reflexivity.
Qed.
End InterpolateClaims.

Lemma ex_sigres_gwkpoints_in_ibz : gwkpoints_in_ibz ex_sigres.
Proof.
  apply (gwk_indices_pass_inv ex_sigres [0; 1; 2]). reflexivity.
Defined.

Lemma interpolate_structure_mismatch_witness :
  (exists log b,
     interpolate (K := Z * Z * Z) ex_sigres (Some ex_kpath_other_structure) None = (log, inr b) /\
     warned msg_kpath_structure log = true /\
     built_interpolator log = true /\
     ks_ebands_kpath b = Some ex_kpath_other_structure /\
     qp_ebands_kmesh b = None) /\
  (structure_neq (eb_structure ex_kmesh_other_structure) (structure ex_sigres) = true ->
   Z.min (nband ex_kpath_other_structure) (min_gwbstop ex_sigres)
     <= nband ex_kmesh_other_structure ->
   exists log,
     interpolate (K := Z * Z * Z) ex_sigres (Some ex_kpath_other_structure)
       (Some ex_kmesh_other_structure) =
       (log, inl (ValueError msg_kmesh_structure NoArg)) /\
     warned msg_kpath_structure log = true).
Proof.
  apply (interpolate_structure_mismatch ex_sigres ex_kpath_other_structure
           ex_kmesh_other_structure).
  - reflexivity.
  - exact ex_sigres_gwkpoints_in_ibz.
  - reflexivity.
Defined.

(** C3 as worded in the specification fails: with reference bands on a
    path and on a mesh whose structure differs from the one of the file, the
    call raises ValueError on account of the mismatch. *)
Lemma interpolate_structure_mismatch_counterexample :
  structure_neq (eb_structure ex_kpath_other_structure) (structure ex_sigres) = true /\
  structure_neq (eb_structure ex_kmesh_other_structure) (structure ex_sigres) = true /\
  snd (interpolate (K := Z * Z * Z) ex_sigres (Some ex_kpath_other_structure)
         (Some ex_kmesh_other_structure)) =
    inl (ValueError msg_kmesh_structure NoArg).
Proof. repeat split. Qed.

(** C6, the code at the failing input.  With KS bands on a path (10 bands,
    GW corrections for 8) and KS bands on a mesh that has 5 bands only, the
    requested range [bstop = 8] exceeds the bands of the mesh; the call
    raises NameError, after the interpolator was built, where the claim
    announces ValueError. *)
Theorem interpolate_few_kmesh_bands :
  Z.min (nband ex_kpath_same_structure) (min_gwbstop ex_sigres) > nband ex_kmesh_few_bands /\
  interpolate (K := Z * Z * Z) ex_sigres (Some ex_kpath_same_structure)
    (Some ex_kmesh_few_bands) =
    ([BuildInterpolator 0 8; InterpKpath], inl (NameError "nband")).
Proof. split; reflexivity. Qed.


(** * Further functions of the module *)

(** ** Fields of a record and look-up by key *)

(** The data attributes of a QPState that [getattr] is asked for: the
    fields of the named tuple and the property [qpeme0]. *)
Inductive qpfield : Type :=
| F_spin | F_kpoint | F_band | F_e0 | F_qpe | F_qpe_diago
| F_vxcme | F_sigxme | F_sigcmee0 | F_vUme | F_ze0 | F_qpeme0.

(** The value of an attribute. *)
Inductive fieldval (K : Type) : Type :=
| IntVal (n : Z)
| KpointVal (k : K)
| RealVal (x : Z)
| ComplexVal (c : complex).
Arguments IntVal {K} n.
Arguments KpointVal {K} k.
Arguments RealVal {K} x.
Arguments ComplexVal {K} c.

Section Lookup.
Context {K : Type} {KE : KpointEq K}.

(** [getattr(qp, field)] *)
Definition getattr_qp (qp : QPState K) (f : qpfield) : fieldval K :=
  match f with
  | F_spin => IntVal (spin qp)
  | F_kpoint => KpointVal (kpoint qp)
  | F_band => IntVal (band qp)
  | F_e0 => RealVal (e0 qp)
  | F_qpe => ComplexVal (qpe qp)
  | F_qpe_diago => RealVal (qpe_diago qp)
  | F_vxcme => ComplexVal (vxcme qp)
  | F_sigxme => ComplexVal (sigxme qp)
  | F_sigcmee0 => ComplexVal (sigcmee0 qp)
  | F_vUme => ComplexVal (vUme qp)
  | F_ze0 => ComplexVal (ze0 qp)
  | F_qpeme0 => ComplexVal (qpeme0 qp)
  end.

(** [QPList.get_field(field)] *)
Definition get_field (self : QPList K) (f : qpfield) : list (fieldval K) :=
  map (fun qp => getattr_qp qp f) (items self).

(** [QPList.get_qpenes()] *)
Definition get_qpenes (self : QPList K) : list (fieldval K) := get_field self F_qpe.

(** The loop of [get_skb_field]: the first record with [qp.skb == skb]
    gives the value, [None] is returned when the loop ends. *)
Fixpoint get_skb_field_loop (l : list (QPState K)) (key : Z * K * Z) (f : qpfield)
  : option (fieldval K) :=
  match l with
  | [] => None
  | qp :: rest =>
      if skb_eqb (skb qp) key then Some (getattr_qp qp f)
      else get_skb_field_loop rest key f
  end.

(** [QPList.get_skb_field(skb, field)] *)
Definition get_skb_field (self : QPList K) (key : Z * K * Z) (f : qpfield)
  : option (fieldval K) :=
  get_skb_field_loop (items self) key f.

(** The record has the key [key]. *)
Definition has_key (key : Z * K * Z) (qp : QPState K) : bool := skb_eqb (skb qp) key.
End Lookup.

Section LookupFacts.
Context {K : Type} {KE : KpointEq K}.

Lemma get_skb_field_loop_app (l1 l2 : list (QPState K)) (key : Z * K * Z) (f : qpfield) :
  get_skb_field_loop (l1 ++ l2) key f =
  match get_skb_field_loop l1 key f with
  | Some v => Some v
  | None => get_skb_field_loop l2 key f
  end.
Proof.
  induction l1 as [|qp t IH]; cbn [get_skb_field_loop app]; [reflexivity|].
  destruct (skb_eqb (skb qp) key); [reflexivity|exact IH].
Qed.

Lemma get_skb_field_loop_filter (l : list (QPState K)) (key : Z * K * Z) (f : qpfield) :
  get_skb_field_loop l key f =
  match filter (has_key key) l with
  | [] => None
  | qp :: _ => Some (getattr_qp qp f)
  end.
Proof.
  induction l as [|qp t IH]; cbn [get_skb_field_loop filter]; [reflexivity|].
  unfold has_key at 1. destruct (skb_eqb (skb qp) key); [reflexivity|exact IH].
Qed.

Lemma merge_items (self other : QPList K) (copy : bool) (m : QPList K) :
  merge self other copy = inr m -> items m = items self ++ items other.
Proof.
  unfold merge, res_bind.
  destruct (merge_check (map skb (items self)) (items other)); [discriminate|].
  intros H. injection H as <-.
  destruct copy; simpl; [rewrite !map_QPState_copy|]; reflexivity.
Qed.

(** A missing key is answered by [None], never by an exception; a key that
    is present is answered with the attribute of the first record, in the
    order of the list, that carries it. *)
Theorem get_skb_field_first_match (self : QPList K) (key : Z * K * Z) (f : qpfield) :
  (get_skb_field self key f = None <->
   forall qp, In qp (items self) -> skb_eqb (skb qp) key = false) /\
  (forall v, get_skb_field self key f = Some v ->
     exists before qp after,
       items self = before ++ qp :: after /\
       (forall p, In p before -> skb_eqb (skb p) key = false) /\
       skb_eqb (skb qp) key = true /\
       v = getattr_qp qp f).
Proof.
  unfold get_skb_field.
  induction (items self) as [|qp t [IH1 IH2]]; cbn [get_skb_field_loop In].
  - split.
    + split; [intros _ qp []|reflexivity].
    + intros v H. discriminate H.
  - destruct (skb_eqb (skb qp) key) eqn:E.
    + split.
      * split; [discriminate|].
        intros H. specialize (H qp (or_introl eq_refl)). congruence.
      * intros v H. injection H as <-.
        exists [], qp, t. repeat split; [intros p []|exact E].
    + split.
      * rewrite IH1. split.
        -- intros H p [<-|Hp]; [exact E|apply H; exact Hp].
        -- intros H p Hp. apply H. right. exact Hp.
      * intros v H. destruct (IH2 v H) as [before [q [after [Ht [Hb [Hq Hv]]]]]].
        exists (qp :: before), q, after. repeat split.
        -- rewrite Ht. reflexivity.
        -- intros p [<-|Hp]; [exact E|apply Hb; exact Hp].
        -- exact Hq.
        -- exact Hv.
Qed.

(** Look-up in the result of a merge: the key is searched among the records
    of [self] first, and among those of [other] when [self] has none. *)
Theorem get_skb_field_merge (self other : QPList K) (copy : bool) (m : QPList K)
    (key : Z * K * Z) (f : qpfield) :
  merge self other copy = inr m ->
  get_skb_field m key f =
  match get_skb_field self key f with
  | Some v => Some v
  | None => get_skb_field other key f
  end.
Proof.
  intros H. unfold get_skb_field.
  rewrite (merge_items self other copy m H). apply get_skb_field_loop_app.
Qed.
End LookupFacts.

Section SortFacts.
Context {K : Type} {KE : KpointEq K}.

Lemma filter_head_unique (p : QPState K -> bool) (l l' : list (QPState K)) :
  Permutation l' l ->
  (forall a b, In a l -> In b l -> p a = true -> p b = true -> a = b) ->
  hd_error (filter p l') = hd_error (filter p l).
Proof.
  intros Hp Huniq.
  assert (Hf : Permutation (filter p l') (filter p l)).
  { clear Huniq. induction Hp; simpl.
    - apply perm_nil.
    - destruct (p x); [apply perm_skip|]; exact IHHp.
    - destruct (p x), (p y); try apply Permutation_refl. apply perm_swap.
    - eapply Permutation_trans; eassumption. }
  destruct (filter p l') as [|a t'] eqn:E1, (filter p l) as [|b t] eqn:E2.
  - reflexivity.
  - apply Permutation_nil in Hf. discriminate.
  - apply Permutation_sym, Permutation_nil in Hf. discriminate.
  - simpl. f_equal.
    assert (Ha : In a (filter p l)).
    { rewrite E2. apply (Permutation_in _ Hf). left. reflexivity. }
    assert (Hb : In b (filter p l)) by (rewrite E2; left; reflexivity).
    apply filter_In in Ha. apply filter_In in Hb.
    apply Huniq; tauto.
Qed.

(** When at most one record carries the key, [sort_by_e0] does not change
    what [get_skb_field] answers for it. *)
Theorem get_skb_field_sort_by_e0 (self : QPList K) (key : Z * K * Z) (f : qpfield) :
  (forall p q, In p (items self) -> In q (items self) ->
     skb_eqb (skb p) key = true -> skb_eqb (skb q) key = true -> p = q) ->
  get_skb_field (sort_by_e0 self) key f = get_skb_field self key f.
Proof.
  intros Huniq. unfold get_skb_field. rewrite !get_skb_field_loop_filter.
  pose proof (filter_head_unique (has_key key) (items self) (items (sort_by_e0 self))
                (sorted_perm e0 (items self)) Huniq) as H.
  destruct (filter (has_key key) (items (sort_by_e0 self))),
           (filter (has_key key) (items self)); simpl in H; try discriminate H.
  - reflexivity.
  - injection H as ->. reflexivity.
Qed.

Lemma sorted_id {A : Type} (key : A -> Z) (l : list A) :
  StronglySorted Z.le (map key l) -> sorted key l = l.
Proof.
  induction l as [|x t IH]; intros Hs; [reflexivity|].
  simpl in Hs. apply StronglySorted_inv in Hs. destruct Hs as [Ht Hx].
  simpl. rewrite (IH Ht).
  destruct t as [|y t']; [reflexivity|].
  simpl. apply Forall_inv in Hx.
  destruct (key x <=? key y) eqn:E; [reflexivity|].
  apply Z.leb_gt in E. lia.
Qed.

(** Sorting twice is sorting once: [sort_by_e0] leaves the records of a
    list that it has produced in their order. *)
Theorem sort_by_e0_idempotent (self : QPList K) :
  sort_by_e0 (sort_by_e0 self) = sort_by_e0 self.
Proof.
  unfold sort_by_e0 at 1. unfold QPList_init. simpl.
  rewrite (sorted_id e0 (sorted e0 (items self)) (sorted_sorted e0 (items self))).
  reflexivity.
Qed.

Lemma insert_by_filter_key {A : Type} (key : A -> Z) (v : Z) (x : A) (l : list A) :
  filter (fun a => key a =? v) (insert_by key x l) =
  filter (fun a => key a =? v) (x :: l).
Proof.
  induction l as [|y t IH]; [reflexivity|].
  cbn [insert_by]. destruct (key x <=? key y) eqn:E; [reflexivity|].
  apply Z.leb_gt in E.
  cbn [filter] in *. rewrite IH.
  destruct (key x =? v) eqn:Ex, (key y =? v) eqn:Ey; try reflexivity.
  apply Z.eqb_eq in Ex. apply Z.eqb_eq in Ey. lia.
Qed.

(** [sort_by_e0] is stable: for every energy, the records that have this
    e0 come out in the order in which they were given. *)
Theorem sort_by_e0_stable (self : QPList K) (v : Z) :
  filter (fun qp => e0 qp =? v) (items (sort_by_e0 self)) =
  filter (fun qp => e0 qp =? v) (items self).
Proof.
  simpl. induction (items self) as [|x t IH]; [reflexivity|].
  cbn [sorted]. rewrite insert_by_filter_key.
  cbn [filter]. rewrite IH. reflexivity.
Qed.
End SortFacts.

Lemma get_skb_field_first_match_witness :
  (exists before qp after,
     items ex_repeating = before ++ qp :: after /\
     (forall p, In p before -> skb_eqb (skb p) (0, (2, 0, 0), 0) = false) /\
     skb_eqb (skb qp) (0, (2, 0, 0), 0) = true /\
     RealVal 15 = getattr_qp qp F_e0) /\
  get_skb_field ex_self (0, (9, 9, 9), 0) F_e0 = None.
Proof.
  split.
  - apply (proj2 (get_skb_field_first_match ex_repeating (0, (2, 0, 0), 0) F_e0)).
    vm_compute. reflexivity.
  - apply (proj1 (get_skb_field_first_match ex_self (0, (9, 9, 9), 0) F_e0)).
    intros qp Hqp. simpl in Hqp.
    destruct Hqp as [<-|[<-|[]]]; reflexivity.
Defined.

Lemma get_skb_field_merge_witness :
  get_skb_field (QPList_init (items ex_self ++ items ex_other) None) (0, (1, 0, 0), 1) F_band =
  match get_skb_field ex_self (0, (1, 0, 0), 1) F_band with
  | Some v => Some v
  | None => get_skb_field ex_other (0, (1, 0, 0), 1) F_band
  end.
Proof.
  apply (get_skb_field_merge ex_self ex_other false).
  reflexivity.
Defined.

Lemma get_skb_field_sort_by_e0_witness :
  get_skb_field (sort_by_e0 ex_qplist) (0, (0, 0, 0), 4) F_e0 =
  get_skb_field ex_qplist (0, (0, 0, 0), 4) F_e0.
Proof.
  apply (get_skb_field_sort_by_e0 ex_qplist (0, (0, 0, 0), 4) F_e0).
  intros p q Hp Hq. simpl in Hp, Hq.
  repeat (destruct Hp as [<-|Hp]; [|]); try contradiction;
    repeat (destruct Hq as [<-|Hq]; [|]); try contradiction;
    intros E1 E2; try reflexivity; vm_compute in E1; vm_compute in E2; discriminate.
Defined.

(** ** Names of fields: get_fields and _get_fields_for_plot *)

(** Values that appear as arguments of messages. *)
Inductive pyvalue : Type :=
| PyStr (s : string)
| PyInt (n : Z)
| PyStrList (l : list string).

(** Exceptions of the functions below: the class, the format string of the
    source and the values it is applied to. *)
Inductive pyexc : Type :=
| PyValueError (fmt : string) (args : list pyvalue)
| PyTypeError (fmt : string) (args : list pyvalue)
| PyIndexError
| PyAssertionError
| PyKpointNotFound
| PyKeyError (key : string).

Definition pyres (A : Type) : Type := (pyexc + A)%type.

Definition py_bind {A B : Type} (m : pyres A) (f : A -> pyres B) : pyres B :=
  match m with
  | inl e => inl e
  | inr a => f a
  end.

Notation "'try!' x := m 'in' k" := (py_bind m (fun x => k))
  (at level 10, x name, m at level 100, k at level 200).

(** [QPState._fields] *)
Definition QPState_fields : list string :=
  ["spin"; "kpoint"; "band"; "e0"; "qpe"; "qpe_diago"; "vxcme"; "sigxme";
   "sigcmee0"; "vUme"; "ze0"]%string.

(** [list.remove(x)]: the first item equal to [x] is taken out; [None]
    stands for the ValueError raised when there is none. *)
Fixpoint list_remove (x : string) (l : list string) : option (list string) :=
  match l with
  | [] => None
  | y :: t =>
      if String.eqb y x then Some t
      else match list_remove x t with
           | Some t' => Some (y :: t')
           | None => None
           end
  end.

Definition msg_remove : string := "list.remove(x): x not in list".

(** [for e in exclude: fields.remove(e)] *)
Fixpoint remove_each (exclude fields : list string) : pyres (list string) :=
  match exclude with
  | [] => inr fields
  | e :: rest =>
      match list_remove e fields with
      | Some fields' => remove_each rest fields'
      | None => inl (PyValueError msg_remove [])
      end
  end.

(** [QPState.get_fields(exclude)] *)
Definition get_fields (exclude : list string) : pyres (list string) :=
  remove_each exclude (QPState_fields ++ ["qpeme0"%string]).

(** [str.split()] on an ASCII string: the words between runs of white
    space. *)
Definition is_space (c : Ascii.ascii) : bool :=
  let n := Ascii.nat_of_ascii c in
  ((9 <=? n) && (n <=? 13) || (28 <=? n) && (n <=? 32))%nat.

Fixpoint split_from (s : string) (word : option string) : list string :=
  match s with
  | EmptyString => match word with Some w => [w] | None => [] end
  | String c rest =>
      if is_space c then
        match word with
        | Some w => w :: split_from rest None
        | None => split_from rest None
        end
      else
        split_from rest
          (Some (match word with
                 | Some w => w ++ String c EmptyString
                 | None => String c EmptyString
                 end)%string)
  end.

Definition py_split (s : string) : list string := split_from s None.

(** The argument [with_fields]: a string or a list of strings; the
    argument [exclude_fields]: None, a string or a list of strings. *)
Inductive with_fields_arg : Type :=
| WithStr (s : string)
| WithList (l : list string).

Inductive exclude_fields_arg : Type :=
| ExcludeNone
| ExcludeStr (s : string)
| ExcludeList (l : list string).

Definition msg_field : string := "Field %s not in allowed values %s".

(** [for f in fields: if f not in all_fields: raise ValueError(...)] *)
Fixpoint check_allowed (fields all_fields : list string) : pyres unit :=
  match fields with
  | [] => inr tt
  | f :: rest =>
      if existsb (fun a => String.eqb a f) all_fields
      then check_allowed rest all_fields
      else inl (PyValueError msg_field [PyStr f; PyStrList all_fields])
  end.

(** [_get_fields_for_plot(with_fields, exclude_fields)].  [list_strings]
    (monty) turns a string into the list of that one string and returns a
    list as it is. *)
Definition _get_fields_for_plot (with_fields : with_fields_arg)
    (exclude_fields : exclude_fields_arg) : pyres (list string) :=
  try! all_fields := get_fields ["spin"; "kpoint"]%string in
  try! fields :=
    match with_fields with
    | WithStr s =>
        if String.eqb s "all" then inr all_fields
        else try! _ := check_allowed [s] all_fields in inr [s]
    | WithList l => try! _ := check_allowed l all_fields in inr l
    end in
  match exclude_fields with
  | ExcludeNone => inr fields
  | ExcludeStr s =>
      if String.eqb s EmptyString then inr fields
      else remove_each (py_split s) fields
  | ExcludeList l =>
      match l with
      | [] => inr fields
      | _ :: _ => remove_each l fields
      end
  end.

(** The fields that can be plotted: all of them but "spin" and "kpoint". *)
Definition plot_fields : list string :=
  ["band"; "e0"; "qpe"; "qpe_diago"; "vxcme"; "sigxme"; "sigcmee0"; "vUme"; "ze0";
   "qpeme0"]%string.

(** The name occurs in the list. *)
Definition mem_string (x : string) (l : list string) : bool :=
  existsb (fun a => String.eqb a x) l.

Lemma mem_string_In (x : string) (l : list string) : mem_string x l = true <-> In x l.
Proof.
  unfold mem_string. rewrite existsb_exists. split.
  - intros [a [Ha E]]. apply String.eqb_eq in E. subst a. exact Ha.
  - intros H. exists x. split; [exact H|apply String.eqb_refl].
Qed.

Lemma mem_string_false (x : string) (l : list string) : mem_string x l = false <-> ~ In x l.
Proof.
  rewrite <- mem_string_In. destruct (mem_string x l); split; congruence.
Qed.

Lemma filter_other_names (x : string) (l : list string) :
  ~ In x l -> filter (fun a => negb (String.eqb a x)) l = l.
Proof.
  induction l as [|y t IH]; intros H; [reflexivity|].
  simpl. destruct (String.eqb y x) eqn:E.
  - apply String.eqb_eq in E. subst y. exfalso. apply H. left. reflexivity.
  - simpl. rewrite IH; [reflexivity|]. intros Hin. apply H. right. exact Hin.
Qed.

Lemma list_remove_spec (x : string) (l : list string) :
  NoDup l ->
  list_remove x l =
  if mem_string x l then Some (filter (fun a => negb (String.eqb a x)) l) else None.
Proof.
  induction l as [|y t IH]; intros Hnd; [reflexivity|].
  apply NoDup_cons_iff in Hnd. destruct Hnd as [Hy Ht].
  cbn [list_remove mem_string existsb filter]. fold (mem_string x t).
  destruct (String.eqb y x) eqn:E.
  - apply String.eqb_eq in E. subst y. simpl.
    rewrite filter_other_names by exact Hy. reflexivity.
  - simpl. rewrite (IH Ht). destruct (mem_string x t); reflexivity.
Qed.

Lemma list_remove_incl (x : string) (l l' : list string) :
  list_remove x l = Some l' -> incl l' l.
Proof.
  revert l'. induction l as [|y t IH]; intros l' H; [discriminate|].
  simpl in H. destruct (String.eqb y x).
  - injection H as <-. apply incl_tl, incl_refl.
  - destruct (list_remove x t) as [t'|]; [|discriminate].
    injection H as <-. apply incl_cons; [left; reflexivity|].
    apply incl_tl. apply IH. reflexivity.
Qed.

Lemma remove_each_incl (exclude fields r : list string) :
  remove_each exclude fields = inr r -> incl r fields.
Proof.
  revert fields. induction exclude as [|e rest IH]; intros fields H; simpl in H.
  - injection H as <-. apply incl_refl.
  - destruct (list_remove e fields) as [fields'|] eqn:E; [|discriminate].
    eapply incl_tran; [apply IH; exact H|].
    eapply list_remove_incl. exact E.
Qed.

Lemma remove_each_spec (exclude : list string) :
  forall fields, NoDup fields ->
    match remove_each exclude fields with
    | inr r =>
        NoDup exclude /\ incl exclude fields /\
        r = filter (fun a => negb (mem_string a exclude)) fields
    | inl e =>
        e = PyValueError msg_remove [] /\
        (~ NoDup exclude \/ exists x, In x exclude /\ ~ In x fields)
    end.
Proof.
  induction exclude as [|e rest IH]; intros fields Hnd; cbn [remove_each].
  - split; [constructor|]. split; [intros x []|].
    clear Hnd. induction fields as [|a t IHt]; [reflexivity|].
    simpl. f_equal. exact IHt.
  - rewrite (list_remove_spec e fields Hnd).
    destruct (mem_string e fields) eqn:M.
    + apply mem_string_In in M.
      set (fields' := filter (fun a => negb (String.eqb a e)) fields).
      assert (Hnd' : NoDup fields') by (apply NoDup_filter; exact Hnd).
      specialize (IH fields' Hnd').
      destruct (remove_each rest fields') as [err|r].
      * destruct IH as [-> [Hdup|[x [Hx Hnx]]]]; split; try reflexivity.
        -- left. intros H. apply NoDup_cons_iff in H. tauto.
        -- destruct (string_dec x e) as [->|Hne].
           ++ left. intros H. apply NoDup_cons_iff in H. tauto.
           ++ right. exists x. split; [right; exact Hx|].
              intros Hin. apply Hnx. apply filter_In. split; [exact Hin|].
              apply negb_true_iff. apply String.eqb_neq. exact Hne.
      * destruct IH as [Hr [Hincl ->]].
        assert (He : ~ In e rest).
        { intros Hin. apply Hincl in Hin. apply filter_In in Hin.
          destruct Hin as [_ Hin]. rewrite String.eqb_refl in Hin. discriminate. }
        split; [constructor; assumption|]. split.
        -- intros x [<-|Hx]; [exact M|].
           apply Hincl in Hx. apply filter_In in Hx. tauto.
        -- unfold fields'. clear. induction fields as [|a t IHt]; [reflexivity|].
           cbn [filter mem_string existsb]. fold (mem_string a rest).
           rewrite (String.eqb_sym e a).
           destruct (String.eqb a e); simpl; [exact IHt|].
           destruct (mem_string a rest); simpl; [exact IHt|].
           f_equal. exact IHt.
    + apply mem_string_false in M. split; [reflexivity|].
      right. exists e. split; [left; reflexivity|exact M].
Qed.

Lemma QPState_names_NoDup : NoDup (QPState_fields ++ ["qpeme0"%string]).
Proof.
  simpl. repeat (constructor; [simpl; intuition discriminate|]). constructor.
Qed.

Lemma plot_fields_NoDup : NoDup plot_fields.
Proof.
  unfold plot_fields. repeat (constructor; [simpl; intuition discriminate|]). constructor.
Qed.

(** [get_fields] succeeds exactly on excluded names that are distinct
    names of the record; it returns the names that are left, in the order of
    the tuple.  A name given twice, or a name that is not a field, ends in
    the ValueError of [list.remove]. *)
Theorem get_fields_spec (exclude : list string) :
  match get_fields exclude with
  | inr r =>
      NoDup exclude /\
      incl exclude (QPState_fields ++ ["qpeme0"%string]) /\
      r = filter (fun a => negb (mem_string a exclude)) (QPState_fields ++ ["qpeme0"%string])
  | inl e =>
      e = PyValueError msg_remove [] /\
      (~ NoDup exclude \/
       exists x, In x exclude /\ ~ In x (QPState_fields ++ ["qpeme0"%string]))
  end.
Proof.
  unfold get_fields. apply remove_each_spec. exact QPState_names_NoDup.
Qed.

Lemma get_fields_plot : get_fields ["spin"; "kpoint"]%string = inr plot_fields.
Proof. reflexivity. Qed.

Lemma check_allowed_spec (fields all_fields : list string) :
  match check_allowed fields all_fields with
  | inr _ => incl fields all_fields
  | inl e =>
      exists f, In f fields /\ ~ In f all_fields /\
                e = PyValueError msg_field [PyStr f; PyStrList all_fields]
  end.
Proof.
  induction fields as [|f rest IH]; cbn [check_allowed].
  - intros x [].
  - fold (mem_string f all_fields).
    destruct (mem_string f all_fields) eqn:M.
    + apply mem_string_In in M.
      destruct (check_allowed rest all_fields) as [e|u].
      * destruct IH as [g [Hg [Hng He]]]. exists g. repeat split; try assumption.
        right. exact Hg.
      * apply incl_cons; assumption.
    + apply mem_string_false in M. exists f. repeat split; [left; reflexivity|exact M].
Qed.

(** The names that [_get_fields_for_plot] removes. *)
Definition excluded_names (exclude_fields : exclude_fields_arg) : list string :=
  match exclude_fields with
  | ExcludeNone => []
  | ExcludeStr s => py_split s
  | ExcludeList l => l
  end.

(** The names that [_get_fields_for_plot] checks: none for the string
    "all", the string itself for any other string, the items of a list. *)
Definition requested_names (with_fields : with_fields_arg) : list string :=
  match with_fields with
  | WithStr s => if String.eqb s "all" then [] else [s]
  | WithList l => l
  end.

Lemma get_fields_for_plot_unfold (w : with_fields_arg) (x : exclude_fields_arg) :
  _get_fields_for_plot w x =
  match check_allowed (requested_names w) plot_fields with
  | inl e => inl e
  | inr _ =>
      remove_each (excluded_names x)
        (match w with
         | WithStr s => if String.eqb s "all" then plot_fields else [s]
         | WithList l => l
         end)
  end.
Proof.
  unfold _get_fields_for_plot. rewrite get_fields_plot. cbn [py_bind].
  destruct w as [s|l]; cbn [requested_names].
  - destruct (String.eqb s "all").
    + cbn [check_allowed py_bind].
      destruct x as [|t|[|a l]]; cbn [excluded_names]; try reflexivity.
      destruct (String.eqb t EmptyString) eqn:E; [|reflexivity].
      apply String.eqb_eq in E. subst t. reflexivity.
    + destruct (check_allowed [s] plot_fields) as [e|u]; cbn [py_bind]; [reflexivity|].
      destruct x as [|t|[|a l]]; cbn [excluded_names]; try reflexivity.
      destruct (String.eqb t EmptyString) eqn:E; [|reflexivity].
      apply String.eqb_eq in E. subst t. reflexivity.
  - destruct (check_allowed l plot_fields) as [e|u]; cbn [py_bind]; [reflexivity|].
    destruct x as [|t|[|a l']]; cbn [excluded_names]; try reflexivity.
    destruct (String.eqb t EmptyString) eqn:E; [|reflexivity].
    apply String.eqb_eq in E. subst t. reflexivity.
Qed.

(** Whatever is asked, a list returned by [_get_fields_for_plot] holds
    names of plottable fields only ("spin" and "kpoint" are not among them);
    when all fields are asked for, it is the list of the plottable fields
    without the excluded names, in the order of the tuple. *)
Theorem get_fields_for_plot_allowed (w : with_fields_arg) (x : exclude_fields_arg)
    (r : list string) :
  _get_fields_for_plot w x = inr r ->
  incl r plot_fields /\
  (w = WithStr "all" ->
   r = filter (fun a => negb (mem_string a (excluded_names x))) plot_fields).
Proof.
  rewrite get_fields_for_plot_unfold.
  pose proof (check_allowed_spec (requested_names w) plot_fields) as HC.
  destruct (check_allowed (requested_names w) plot_fields) as [e|u]; [discriminate|].
  intros H. split.
  - apply remove_each_incl in H. eapply incl_tran; [exact H|].
    destruct w as [s|l]; cbn [requested_names] in HC.
    + destruct (String.eqb s "all"); [apply incl_refl|exact HC].
    + exact HC.
  - intros ->. cbn in H.
    pose proof (remove_each_spec (excluded_names x) plot_fields plot_fields_NoDup) as HR.
    rewrite H in HR. tauto.
Qed.

(** A requested name that is not a plottable field is rejected with a
    ValueError that carries this name.  A string other than "all" is
    one name: it is not cut at blanks. *)
Theorem get_fields_for_plot_rejects (w : with_fields_arg) (x : exclude_fields_arg) :
  (exists f, In f (requested_names w) /\ ~ In f plot_fields) ->
  exists f,
    In f (requested_names w) /\ ~ In f plot_fields /\
    _get_fields_for_plot w x = inl (PyValueError msg_field [PyStr f; PyStrList plot_fields]).
Proof.
  intros [g [Hg Hng]]. rewrite get_fields_for_plot_unfold.
  pose proof (check_allowed_spec (requested_names w) plot_fields) as HC.
  destruct (check_allowed (requested_names w) plot_fields) as [e|u].
  - destruct HC as [f [Hf [Hnf ->]]]. exists f. repeat split; assumption.
  - exfalso. apply Hng. apply HC. exact Hg.
Qed.

Lemma get_fields_for_plot_allowed_witness :
  incl ["band"; "qpe_diago"; "vxcme"; "sigxme"; "sigcmee0"; "vUme"; "ze0"; "qpeme0"]%string
       plot_fields /\
  (WithStr "all" = WithStr "all" ->
   ["band"; "qpe_diago"; "vxcme"; "sigxme"; "sigcmee0"; "vUme"; "ze0"; "qpeme0"]%string =
   filter (fun a => negb (mem_string a (excluded_names (ExcludeStr "e0 qpe")))) plot_fields).
Proof.
  apply (get_fields_for_plot_allowed (WithStr "all") (ExcludeStr "e0 qpe")).
  reflexivity.
Defined.

Lemma get_fields_for_plot_rejects_witness :
  exists f,
    In f (requested_names (WithStr "e0 qpe")) /\ ~ In f plot_fields /\
    _get_fields_for_plot (WithStr "e0 qpe") ExcludeNone =
      inl (PyValueError msg_field [PyStr f; PyStrList plot_fields]).
Proof.
  apply (get_fields_for_plot_rejects (WithStr "e0 qpe") ExcludeNone).
  exists "e0 qpe"%string. split; [left; reflexivity|].
  simpl. intuition discriminate.
Defined.

(** ** torange *)

(** The values produced by [range(start, stop, step)]. *)
Definition msg_range_step : string := "range() arg 3 must not be zero".

Definition range_length (start stop step : Z) : Z :=
  if 0 <? step then (stop - start + step - 1) / step
  else (start - stop - step - 1) / (- step).

Definition py_range (start stop step : Z) : pyres (list Z) :=
  if step =? 0 then inl (PyValueError msg_range_step [])
  else inr (map (fun i => start + Z.of_nat i * step)
                (seq 0 (Z.to_nat (range_length start stop step)))).

(** The argument of [torange]: an integer, a slice object, an object with
    [__iter__] (given by the values it yields) or anything else (given by
    its [str]). *)
Inductive range_arg : Type :=
| ArgInt (n : Z)
| ArgSlice (start stop step : option Z)
| ArgIterable (l : list Z)
| ArgOther (str : string).

Definition msg_none_int : string := "'NoneType' object cannot be interpreted as an integer".
Definition msg_torange : string := "Don't know how to convert %s into a range object".

Definition torange (obj : range_arg) : pyres (list Z) :=
  match obj with
  | ArgInt n => py_range n (n + 1) 1
  | ArgSlice start stop step =>
      let start := match start with Some a => a | None => 0 end in
      let step := match step with Some s => s | None => 1 end in
      match stop with
      | Some stop => py_range start stop step
      | None => inl (PyTypeError msg_none_int [])
      end
  | ArgIterable l => inr l
  | ArgOther str => inl (PyTypeError msg_torange [PyStr str])
  end.

(** ** The grid of sub-plots *)

(** The shape [(ncols, nrows)] chosen by the plotting methods for
    [num_plots] plots. *)
Definition plot_grid (num_plots : Z) : Z * Z :=
  if num_plots >? 1 then (2, num_plots / 2 + num_plots mod 2) else (1, 1).

(** The test [num_plots % ncols != 0], under which the last axis of the
    grid is switched off. *)
Definition last_axis_off (num_plots : Z) : bool :=
  negb (num_plots mod fst (plot_grid num_plots) =? 0).

Lemma range_members (start stop step e : Z) :
  0 < step ->
  In e (map (fun i => start + Z.of_nat i * step)
            (seq 0 (Z.to_nat (range_length start stop step)))) <->
  start <= e < stop /\ (e - start) mod step = 0.
Proof.
  intros Hs. unfold range_length.
  assert (E : (0 <? step) = true) by (apply Z.ltb_lt; exact Hs). rewrite E.
  set (n := (stop - start + step - 1) / step).
  rewrite in_map_iff. split.
  - intros [i [<- Hi]]. apply in_seq in Hi.
    assert (Hin : Z.of_nat i + 1 <= n) by lia.
    assert (Hmul : step * n <= stop - start + step - 1)
      by (apply Z.mul_div_le; exact Hs).
    split; [nia|].
    replace (start + Z.of_nat i * step - start) with (Z.of_nat i * step) by ring.
    apply Z_mod_mult.
  - intros [[H1 H2] H3].
    pose proof (Z_div_mod_eq_full (e - start) step) as D. rewrite H3 in D.
    set (q := (e - start) / step) in *.
    assert (Hq0 : 0 <= q) by (apply Z.div_pos; lia).
    assert (Hqn : q + 1 <= n).
    { apply Z.div_le_lower_bound; [exact Hs|]. nia. }
    exists (Z.to_nat q). split.
    + rewrite Z2Nat.id by exact Hq0. lia.
    + apply in_seq. lia.
Qed.

(** For a slice with a positive step (1 when it is not given) and a stop,
    [torange] yields exactly the integers from the start (0 when it is not
    given) up to the stop, excluded, that lie a multiple of the step after
    the start. *)
Theorem torange_slice_members (start step : option Z) (stop e : Z) :
  0 < match step with Some s => s | None => 1 end ->
  exists r,
    torange (ArgSlice start (Some stop) step) = inr r /\
    (In e r <->
     match start with Some a => a | None => 0 end <= e < stop /\
     (e - match start with Some a => a | None => 0 end)
       mod match step with Some s => s | None => 1 end = 0).
Proof.
  intros Hs. unfold torange, py_range.
  set (a := match start with Some a => a | None => 0 end) in *.
  set (s := match step with Some s => s | None => 1 end) in *.
  assert (E : (s =? 0) = false) by (apply Z.eqb_neq; lia). rewrite E.
  eexists. split; [reflexivity|].
  apply range_members. exact Hs.
Qed.

(** An integer gives the range of that one integer, an iterable is handed
    back as it is; a slice without stop ends in the TypeError of [range], a
    slice with step 0 in its ValueError, and an object of another kind in
    the TypeError of [torange]. *)
Theorem torange_other_arguments (n : Z) (l : list Z) (start step : option Z)
    (stop : Z) (str : string) :
  torange (ArgInt n) = inr [n] /\
  torange (ArgIterable l) = inr l /\
  torange (ArgSlice start None step) = inl (PyTypeError msg_none_int []) /\
  torange (ArgSlice start (Some stop) (Some 0)) = inl (PyValueError msg_range_step []) /\
  torange (ArgOther str) = inl (PyTypeError msg_torange [PyStr str]).
Proof.
  repeat split.
  unfold torange, py_range, range_length. simpl.
  replace (n + 1 - n + 1 - 1) with 1 by ring.
  simpl. f_equal. f_equal. ring.
Qed.

Lemma torange_slice_members_witness :
  exists r,
    torange (ArgSlice (Some 0) (Some 4) (Some 2)) = inr r /\
    (In 2 r <-> 0 <= 2 < 4 /\ (2 - 0) mod 2 = 0).
Proof.
  apply (torange_slice_members (Some 0) (Some 2) 4 2).
  simpl. lia.
Defined.

(** With at least one plot, the grid has a cell for every plot and at most
    one cell more; the spare cell exists exactly when the test that switches
    the last axis off holds. *)
Theorem plot_grid_cells (num_plots : Z) :
  1 <= num_plots ->
  let ncols := fst (plot_grid num_plots) in
  let nrows := snd (plot_grid num_plots) in
  num_plots <= nrows * ncols <= num_plots + 1 /\
  (last_axis_off num_plots = true <-> nrows * ncols = num_plots + 1).
Proof.
  intros Hn. unfold last_axis_off, plot_grid.
  destruct (num_plots >? 1) eqn:E; cbn [fst snd].
  - pose proof (Z_div_mod_eq_full num_plots 2) as D.
    pose proof (Z.mod_pos_bound num_plots 2 ltac:(lia)) as B.
    split; [lia|].
    rewrite negb_true_iff, Z.eqb_neq. lia.
  - assert (num_plots = 1) by (rewrite Z.gtb_ltb in E; apply Z.ltb_ge in E; lia).
    subst num_plots. split; [lia|]. simpl. split; [discriminate|lia].
Qed.

Lemma plot_grid_cells_witness :
  let ncols := fst (plot_grid 5) in
  let nrows := snd (plot_grid 5) in
  5 <= nrows * ncols <= 5 + 1 /\
  (last_axis_off 5 = true <-> nrows * ncols = 5 + 1).
Proof.
  apply (plot_grid_cells 5). lia.
Defined.

(** ** More on interpolate *)

Section InterpolateFacts.
Context {K S : Type} {KE : KpointEq K} {SE : StructureEq S}.

Lemma errlines_nil (self : SigresFile K S) :
  errlines self = [] <->
  length (gwkpoints self) = length (ibz self) /\ length (gwkpoints self) <> 1%nat.
Proof.
  unfold errlines.
  destruct (Nat.eqb_spec (length (gwkpoints self)) (length (ibz self))) as [E1|E1];
    destruct (Nat.eqb_spec (length (gwkpoints self)) 1) as [E2|E2]; simpl;
    split; try discriminate; try tauto; intros [H1 H2]; contradiction.
Qed.

Lemma built_interpolator_app (l1 l2 : list event) :
  built_interpolator (l1 ++ l2) = built_interpolator l1 || built_interpolator l2.
Proof. unfold built_interpolator. apply existsb_app. Qed.

Lemma built_build (bstart bstop : Z) :
  built_interpolator [BuildInterpolator bstart bstop; InterpKpath] = true.
Proof. reflexivity. Qed.

(** The messages printed before the loop over the GW k-points hold no
    event of the interpolator. *)
Lemma warnings_not_built (self : SigresFile K S) (kpath : option (EBands S)) :
  built_interpolator
    (snd (band_range self kpath) ++
     match kpath with
     | Some eb =>
         if structure_neq (eb_structure eb) (structure self)
         then [Cprint msg_kpath_structure] else []
     | None => []
     end) = false.
Proof.
  destruct kpath as [eb|]; cbn [band_range snd]; [|reflexivity].
  destruct (nband eb <? min_gwbstop self),
           (structure_neq (eb_structure eb) (structure self)); reflexivity.
Qed.

(** A GW k-point that no k-point of the IBZ equals. *)
Definition gwkpoint_outside_ibz (self : SigresFile K S) : Prop :=
  exists gwk, In gwk (gwkpoints self) /\
              forall k, In k (ibz self) -> kpt_eq k gwk = false.

(** The interpolator is built exactly when QP energies are given on as
    many k-points as the IBZ has, on more than one, and every GW k-point is
    found in the IBZ.  A call that fails the count check raises ValueError
    with nothing done; a call that passes it with a GW k-point outside the
    IBZ raises KpointsError, after the warnings and before the interpolator
    is built; every other call builds the interpolator, also when it fails
    afterwards. *)
Theorem interpolate_builds_interpolator (self : SigresFile K S)
    (kpath kmesh : option (EBands S)) :
  (built_interpolator (fst (interpolate self kpath kmesh)) = true <->
   (length (gwkpoints self) = length (ibz self) /\ length (gwkpoints self) <> 1%nat) /\
   gwkpoints_in_ibz self) /\
  (~ (length (gwkpoints self) = length (ibz self) /\ length (gwkpoints self) <> 1%nat) ->
   exists msg, interpolate self kpath kmesh = ([], inl (ValueError msg NoArg))) /\
  (length (gwkpoints self) = length (ibz self) -> length (gwkpoints self) <> 1%nat ->
   gwkpoint_outside_ibz self ->
   exists log,
     interpolate self kpath kmesh = (log, inl KpointsError) /\
     built_interpolator log = false).
Proof.
  rewrite <- errlines_nil. unfold interpolate.
  pose proof (warnings_not_built self kpath) as W.
  pose proof (gwk_indices_spec self (gwkpoints self)) as G.
  destruct (errlines self) as [|line rest] eqn:E.
  - destruct (band_range self kpath) as [[bstart bstop] log1]. cbn [snd] in W.
    destruct (gwk_indices self (gwkpoints self)) as [e|iks] eqn:I.
    + destruct G as [-> [gwk [Hg Hall]]]. cbn [fst]. rewrite W.
      split; [|split].
      * split; [discriminate|]. intros [_ Hibz].
        destruct (Hibz gwk Hg) as [k [Hk Ek]]. rewrite (Hall k Hk) in Ek. discriminate Ek.
      * intros H. contradiction H. reflexivity.
      * intros _ _ _. eexists. split; [reflexivity|exact W].
    + split; [|split].
      * split; [intros _; split; [reflexivity|exact G]|]. intros _.
        destruct kmesh as [km|];
          [destruct (kmesh_part self kpath km bstart bstop) as [log3 [e|b]]|];
          cbn [fst]; rewrite !built_interpolator_app, built_build;
          repeat (rewrite orb_true_r || rewrite orb_true_l); reflexivity.
      * intros H. contradiction H. reflexivity.
      * intros _ _ [gwk [Hg Hall]].
        destruct (G gwk Hg) as [k [Hk Ek]]. rewrite (Hall k Hk) in Ek. discriminate Ek.
  - cbn [fst]. split; [|split].
    + split; [discriminate|]. intros [H _]. discriminate H.
    + intros _. eexists. reflexivity.
    + intros H1 H2 _. exfalso.
      assert (Hnil : line :: rest = []) by (rewrite <- E; apply errlines_nil; split; assumption).
      discriminate Hnil.
Qed.

(** The call returns the bundle exactly when the k-point check passes,
    every GW k-point is found in the IBZ, and either no [ks_ebands_kmesh]
    is given, or both reference band structures are given, the mesh one has
    at least [bstop] bands and the structure of the path one equals the
    structure of the file. *)
Theorem interpolate_returns_iff (self : SigresFile K S) (kpath kmesh : option (EBands S)) :
  is_ok (snd (interpolate self kpath kmesh)) = true <->
  (length (gwkpoints self) = length (ibz self) /\ length (gwkpoints self) <> 1%nat) /\
  gwkpoints_in_ibz self /\
  (kmesh = None \/
   exists kp km,
     kpath = Some kp /\ kmesh = Some km /\
     Z.min (nband kp) (min_gwbstop self) <= nband km /\
     structure_neq (eb_structure kp) (structure self) = false).
Proof.
  rewrite <- errlines_nil. unfold interpolate.
  pose proof (gwk_indices_spec self (gwkpoints self)) as G.
  destruct (errlines self) as [|line rest] eqn:E.
  - destruct (gwk_indices self (gwkpoints self)) as [e|iks] eqn:I.
    + destruct G as [-> [gwk [Hg Hall]]].
      destruct (band_range self kpath) as [[bstart bstop] log1]. cbn.
      split; [discriminate|]. intros [_ [Hibz _]].
      destruct (Hibz gwk Hg) as [k [Hk Ek]]. rewrite (Hall k Hk) in Ek. discriminate Ek.
    + destruct kmesh as [km|].
      * destruct kpath as [kp|]; cbn [band_range]; unfold kmesh_part.
        -- destruct (Z.min (nband kp) (min_gwbstop self) >? nband km) eqn:Gt.
           ++ cbn. split; [discriminate|].
              intros [_ [_ [H|[kp' [km' [H1 [H2 [H3 H4]]]]]]]]; [discriminate|].
              injection H1 as <-. injection H2 as <-.
              rewrite Z.gtb_ltb in Gt. apply Z.ltb_lt in Gt. lia.
           ++ rewrite Z.gtb_ltb in Gt. apply Z.ltb_ge in Gt.
              destruct (structure_neq (eb_structure kp) (structure self)) eqn:N; cbn.
              ** split; [discriminate|].
                 intros [_ [_ [H|[kp' [km' [H1 [H2 [H3 H4]]]]]]]]; [discriminate|].
                 injection H1 as <-. congruence.
              ** split; [|reflexivity]. intros _. split; [reflexivity|].
                 split; [exact G|].
                 right. exists kp, km. repeat split; assumption.
        -- destruct (-1 >? nband km); cbn; (split; [discriminate|]);
             intros [_ [_ [H|[kp' [km' [H1 _]]]]]]; discriminate.
      * destruct (band_range self kpath) as [[bstart bstop] log1]. cbn.
        split; [|reflexivity]. intros _. split; [reflexivity|].
        split; [exact G|]. left. reflexivity.
  - cbn. split; [discriminate|]. intros [H _]. discriminate H.
Qed.

(** [ks_ebands_kmesh] cannot be used without [ks_ebands_kpath]: when the
    k-point check passes and every GW k-point is found in the IBZ, such a
    call ends in AttributeError, after the interpolation on the path. *)
Theorem interpolate_kmesh_without_kpath (self : SigresFile K S) (km : EBands S) :
  length (gwkpoints self) = length (ibz self) ->
  length (gwkpoints self) <> 1%nat ->
  gwkpoints_in_ibz self ->
  0 <= nband km ->
  interpolate self None (Some km) =
    ([BuildInterpolator 0 (-1); InterpKpath], inl (AttributeError "structure")).
Proof.
  intros H1 H2 Hibz Hn.
  assert (E : errlines self = []) by (apply errlines_nil; split; assumption).
  unfold interpolate. rewrite E.
  destruct (gwk_indices_pass self Hibz) as [iks Hiks]. rewrite Hiks.
  cbn [band_range]. unfold kmesh_part.
  assert (G : (-1 >? nband km) = false).
  { rewrite Z.gtb_ltb. apply Z.ltb_ge. lia. }
  rewrite G. reflexivity.
Qed.
End InterpolateFacts.

Lemma interpolate_returns_iff_witness :
  is_ok (snd (interpolate ex_sigres (Some ex_kpath_same_structure)
                (Some ex_kmesh_other_structure))) = true.
Proof.
  apply (proj2 (interpolate_returns_iff ex_sigres (Some ex_kpath_same_structure)
                  (Some ex_kmesh_other_structure))).
  split; [|split].
  - split; [reflexivity|discriminate].
  - exact ex_sigres_gwkpoints_in_ibz.
  - right. exists ex_kpath_same_structure, ex_kmesh_other_structure.
    repeat split. simpl. lia.
Defined.

Lemma interpolate_kmesh_without_kpath_witness :
  interpolate ex_sigres None (Some ex_kmesh_few_bands) =
    ([BuildInterpolator 0 (-1); InterpKpath], inl (AttributeError "structure")).
Proof.
  apply (interpolate_kmesh_without_kpath ex_sigres ex_kmesh_few_bands).
  - reflexivity.
  - discriminate.
  - exact ex_sigres_gwkpoints_in_ibz.
  - simpl. lia.
Defined.

(** A file whose second GW k-point is not a k-point of the IBZ: the count
    check passes, the look-up of that k-point fails. *)
Definition ex_sigres_outside : SigresFile (Z * Z * Z) nat :=
  mkSigresFile [(0, 0, 0); (5, 5, 5)] [(0, 0, 0); (1, 0, 0)] 8 0%nat.

Lemma interpolate_builds_interpolator_witness :
  exists log,
    interpolate ex_sigres_outside (Some ex_kpath_other_structure) None =
      (log, inl KpointsError) /\
    built_interpolator log = false.
Proof.
  apply (proj2 (proj2 (interpolate_builds_interpolator ex_sigres_outside
                         (Some ex_kpath_other_structure) None))).
  - reflexivity.
  - discriminate.
  - exists (5, 5, 5). split; [right; left; reflexivity|].
    intros k [<-|[<-|[]]]; reflexivity.
Defined.

(** ** A single domain *)

Lemma find_ge_first {K : Type} (a : list Z) (low : Z) :
  StronglySorted Z.le a -> a <> [] -> low <= nth 0 a 0 ->
  find_ge (K := K) a low = inr 0%nat.
Proof.
  intros Hs Hne Hlow. unfold find_ge.
  destruct (bisect_left_spec a low Hs) as [R1 [R2 R3]].
  assert (Hlen : (0 < length a)%nat) by (destruct a; [contradiction|simpl; lia]).
  assert (E : bisect_left a low = 0%nat).
  { destruct (bisect_left a low) as [|r]; [reflexivity|].
    specialize (R2 0%nat ltac:(lia)). lia. }
  rewrite E.
  destruct (Nat.eqb_spec 0 (length a)) as [H|H]; [lia|reflexivity].
Qed.

Lemma find_le_last {K : Type} (a : list Z) (high : Z) :
  StronglySorted Z.le a -> a <> [] -> nth (length a - 1) a 0 <= high ->
  find_le (K := K) a high = inr (length a - 1)%nat.
Proof.
  intros Hs Hne Hhigh. unfold find_le.
  destruct (bisect_right_spec a high Hs) as [R1 [R2 R3]].
  assert (Hlen : (0 < length a)%nat) by (destruct a; [contradiction|simpl; lia]).
  assert (E : bisect_right a high = length a).
  { destruct (Nat.eq_dec (bisect_right a high) (length a)) as [H|H]; [exact H|].
    specialize (R3 (bisect_right a high) ltac:(lia)).
    pose proof (sorted_nth a Hs (bisect_right a high) (length a - 1)%nat ltac:(lia)).
    lia. }
  rewrite E.
  destruct (Nat.eqb_spec (length a) 0) as [H|H]; [lia|reflexivity].
Qed.

Lemma slice_all {A : Type} (l : list A) (n : nat) :
  (0 < n)%nat -> n = length l -> slice l 0 (n - 1 + 1) = l.
Proof.
  intros Hn ->. unfold slice. replace (length l - 1 + 1)%nat with (length l) by lia.
  rewrite firstn_all. reflexivity.
Qed.

Section SingleDomain.
Context {K : Type} {KE : KpointEq K} {SL : SplineLib}.

(** With one domain [low, high] that brackets the samples of a QPList that
    is not empty, build_scissors makes one call to the fitter, on all the
    samples in the order of their e0 and without weights, and returns the
    scissors operator made of that fit (or fails as the fitter does). *)
Theorem build_scissors_single_domain (self : QPList K) (low high : Z)
    (bounds : option (list (Z * Z))) (k : Z) (tr : list FitCall) (mn mx : Z) :
  minimum (map e0 (items self)) = Some mn ->
  maximum (map e0 (items self)) = Some mx ->
  low <= mn -> mx <= high ->
  let qps := items (sort_by_e0 self) in
  let c := mkFitCall (map e0 qps) (map qpeme0 qps) None k in
  build_scissors self [(low, high)] bounds k tr =
    (tr ++ [c],
     match UnivariateSpline c with
     | Some f => inr (mkScissors [f] [(low, high)] [get_residual f] bounds)
     | None => inl ExternalError
     end).
Proof.
  intros Hmin Hmax Hlow Hhigh. cbn zeta. simpl items.
  set (qps := sorted e0 (items self)).
  set (e0mesh := map e0 qps).
  assert (Hs : StronglySorted Z.le e0mesh) by apply sorted_sorted.
  assert (Hp : Permutation e0mesh (map e0 (items self))).
  { apply Permutation_map, sorted_perm. }
  destruct (min_of_sorted _ _ _ Hs Hp Hmin) as [Hne Hmn].
  destruct (max_of_sorted _ _ _ Hs Hp Hmax) as [_ Hmx].
  assert (Hlen : (0 < length e0mesh)%nat) by (destruct e0mesh; [contradiction|simpl; lia]).
  assert (Hmm : mn <= mx).
  { rewrite <- Hmn, <- Hmx. apply sorted_nth; [exact Hs|lia]. }
  assert (C : check_domains (K := K) e0mesh [(low, high)] = inr tt).
  { pose proof (check_domains_spec (K := K) e0mesh [(low, high)] mn mx Hne Hmn Hmx) as H.
    cbv zeta in H.
    destruct (check_domains e0mesh [(low, high)]) as [e|[]]; [|reflexivity].
    exfalso. destruct H as [[_ [b [Hb Hgt]]]|[[_ [b [Hb Hlt]]]|[_ [i [Hi Hgt]]]]].
    - injection Hb as <-. lia.
    - injection Hb as <-. lia.
    - simpl in Hi. assert (i = 0%nat) by lia. subst i. simpl in Hgt. lia. }
  unfold build_scissors, fit_bind, fit_lift.
  rewrite get_e0mesh_sort_by_e0. fold qps. fold e0mesh. rewrite C.
  unfold get_qpeme0. simpl items. fold qps.
  cbn [fit_rows fit_domains]. unfold fit_bind, fit_lift, call_UnivariateSpline, fit_ret.
  unfold domain_fit_call. cbn [fst snd].
  rewrite (find_ge_first e0mesh low Hs Hne) by lia.
  rewrite (find_le_last e0mesh high Hs Hne) by lia.
  cbn [res_bind].
  rewrite (slice_all e0mesh (length e0mesh) Hlen eq_refl).
  rewrite (slice_all (map qpeme0 qps) (length e0mesh) Hlen)
    by (unfold e0mesh; rewrite !length_map; reflexivity).
  unfold ndom0. cbn [length Nat.eqb].
  rewrite weights_other_domain by lia.
  cbn [res_bind].
  destruct (UnivariateSpline (mkFitCall e0mesh (map qpeme0 qps) None k)); reflexivity.
Qed.
End SingleDomain.

Lemma build_scissors_single_domain_witness :
  let qps := items (sort_by_e0 ex_qplist) in
  let c := mkFitCall (map e0 qps) (map qpeme0 qps) None 3 in
  build_scissors ex_qplist [(0, 100)] None 3 [] =
    ([] ++ [c],
     match UnivariateSpline c with
     | Some f => inr (mkScissors [f] [(0, 100)] [get_residual f] None)
     | None => inl ExternalError
     end).
Proof.
  apply (build_scissors_single_domain ex_qplist 0 100 None 3 [] 10 90).
  - reflexivity.
  - reflexivity.
  - lia.
  - lia.
Defined.

(** ** SigresPlotter *)

(** Inequality of two lists of k-points, as [!=] on [KpointList] objects. *)
Class KpointListNe (K : Type) := kpoint_list_ne : list K -> list K -> bool.

Section Plotter.
Context {K : Type} {KN : KpointListNe K}.

(** What the plotter reads of a SigresFile. *)
Record SigresData : Type := mkSigresData {
  sg_filepath : string;
  sg_nsppol : Z;
  sg_gwkpoints : list K;
  sg_max_gwbstart : Z;
  sg_min_gwbstop : Z;
  sg_params : list (string * Z)
}.

(** The attributes of the plotter.  An attribute that [hasattr] does not
    find yet is [None]. *)
Record SigresPlotter : Type := mkSigresPlotter {
  sigres_files : list (string * SigresData);
  labels : list (option string);
  pl_nsppol : option Z;
  computed_gwkpoints : option (list K);
  pl_max_gwbstart : option Z;
  pl_min_gwbstop : option Z;
  pl_param_name : option (option string);
  pl_xvalues : option (list Z)
}.

(** [SigresPlotter()] *)
Definition new_plotter : SigresPlotter :=
  mkSigresPlotter [] [] None None None None None None.

(** [d[key] = value] on an OrderedDict: a key that is present keeps its
    place, a new key goes to the end. *)
Fixpoint odict_set {V : Type} (d : list (string * V)) (key : string) (value : V)
  : list (string * V) :=
  match d with
  | [] => [(key, value)]
  | (k, v) :: rest =>
      if String.eqb k key then (k, value) :: rest
      else (k, v) :: odict_set rest key value
  end.

(** [len(self)] and [iter(self)] *)
Definition plotter_len (self : SigresPlotter) : nat := length (sigres_files self).
Definition plotter_iter (self : SigresPlotter) : list SigresData := map snd (sigres_files self).

Definition msg_nsppol : string := "Found two SIGRES files with different nsppol".
Definition msg_gwkpoints : string :=
  "Found two SIGRES files with different list of GW k-points.".

(** [add_file], from the opened file on: the state of the plotter after the
    call and the outcome of the call. *)
Definition add_file (self : SigresPlotter) (sigres : SigresData) (label : option string)
  : SigresPlotter * pyres unit :=
  let files := odict_set (sigres_files self) (sg_filepath sigres) sigres in
  let lbls := labels self ++ [label] in
  let nsppol := match pl_nsppol self with Some n => n | None => sg_nsppol sigres end in
  if negb (nsppol =? sg_nsppol sigres) then
    (mkSigresPlotter files lbls (Some nsppol) (computed_gwkpoints self)
       (pl_max_gwbstart self) (pl_min_gwbstop self)
       (pl_param_name self) (pl_xvalues self),
     inl (PyValueError msg_nsppol []))
  else
    let gwk := match computed_gwkpoints self with
               | Some g => g
               | None => sg_gwkpoints sigres
               end in
    if kpoint_list_ne gwk (sg_gwkpoints sigres) then
      (mkSigresPlotter files lbls (Some nsppol) (Some gwk)
         (pl_max_gwbstart self) (pl_min_gwbstop self)
         (pl_param_name self) (pl_xvalues self),
       inl (PyValueError msg_gwkpoints []))
    else
      let bstart := match pl_max_gwbstart self with
                    | Some b => Z.max b (sg_max_gwbstart sigres)
                    | None => sg_max_gwbstart sigres
                    end in
      let bstop := match pl_min_gwbstop self with
                   | Some b => Z.min b (sg_min_gwbstop sigres)
                   | None => sg_min_gwbstop sigres
                   end in
      (mkSigresPlotter files lbls (Some nsppol) (Some gwk) (Some bstart) (Some bstop)
         (pl_param_name self) (pl_xvalues self),
       inr tt).

(** [add_files], from the opened files on: the files are added in turn,
    the first failure ends the loop.  [file_labels] is the argument
    [labels]. *)
Fixpoint add_files_from (self : SigresPlotter) (i : Z) (files : list SigresData)
    (file_labels : option (list string)) : SigresPlotter * pyres unit :=
  match files with
  | [] => (self, inr tt)
  | sigres :: rest =>
      match (match file_labels with
             | None => Some None
             | Some ls => match getitem ls i with
                          | Some l => Some (Some l)
                          | None => None
                          end
             end) with
      | None => (self, inl PyIndexError)
      | Some label =>
          match add_file self sigres label with
          | (self', inl e) => (self', inl e)
          | (self', inr _) => add_files_from self' (i + 1) rest file_labels
          end
      end
  end.

Definition add_files (self : SigresPlotter) (files : list SigresData)
    (file_labels : option (list string)) : SigresPlotter * pyres unit :=
  add_files_from self 0 files file_labels.
(** [defaultdict(list)]: [d[key].append(value)] and [d[key]]. *)
Fixpoint dd_append (d : list (string * list Z)) (key : string) (value : Z)
  : list (string * list Z) :=
  match d with
  | [] => [(key, [value])]
  | (k, l) :: rest =>
      if String.eqb k key then (k, l ++ [value]) :: rest
      else (k, l) :: dd_append rest key value
  end.

Fixpoint dd_get (d : list (string * list Z)) (key : string) : list Z :=
  match d with
  | [] => []
  | (k, l) :: rest => if String.eqb k key then l else dd_get rest key
  end.

(** [_get_param_list]: for every name, the values of the parameter in the
    files, in the order of the files. *)
Definition _get_param_list (self : SigresPlotter) : list (string * list Z) :=
  fold_left
    (fun param_list sigres =>
       fold_left (fun pl kv => dd_append pl (fst kv) (snd kv)) (sg_params sigres) param_list)
    (plotter_iter self) [].

(** [any(v != value_list[0] for v in value_list)] *)
Definition any_differs (value_list : list Z) : bool :=
  match value_list with
  | [] => false
  | v0 :: _ => existsb (fun v => negb (v =? v0)) value_list
  end.

(** The loop of [prepare_plot] over the parameters: the first name whose
    values differ is kept, a further one sets [problem] (and logs a
    warning, counted in the third component). *)
Fixpoint detect_param (param_list : list (string * list Z)) (param_name : option string)
    (problem : bool) (warnings : nat) : option string * bool * nat :=
  match param_list with
  | [] => (param_name, problem, warnings)
  | (key, value_list) :: rest =>
      if any_differs value_list then
        match param_name with
        | None => detect_param rest (Some key) problem warnings
        | Some _ => detect_param rest param_name true (S warnings)
        end
      else detect_param rest param_name problem warnings
  end.

(** [files[i]] for each index, IndexError ([None]) out of range. *)
Fixpoint pick_files (files : list SigresData) (indices : list nat)
  : option (list SigresData) :=
  match indices with
  | [] => Some []
  | i :: rest =>
      match nth_error files i, pick_files files rest with
      | Some f, Some fs => Some (f :: fs)
      | _, _ => None
      end
  end.

(** The new dictionary of [prepare_plot]. *)
Definition rebuild_files (files : list SigresData) : list (string * SigresData) :=
  fold_left (fun newd sigres => odict_set newd (sg_filepath sigres) sigres) files [].

Definition with_files (self : SigresPlotter) (files : list (string * SigresData))
  : SigresPlotter :=
  mkSigresPlotter files (labels self) (pl_nsppol self) (computed_gwkpoints self)
    (pl_max_gwbstart self) (pl_min_gwbstop self) (pl_param_name self) (pl_xvalues self).

Definition set_param_name (self : SigresPlotter) (param_name : option string)
  : SigresPlotter :=
  mkSigresPlotter (sigres_files self) (labels self) (pl_nsppol self)
    (computed_gwkpoints self) (pl_max_gwbstart self) (pl_min_gwbstop self)
    (Some param_name) (pl_xvalues self).

(** [set_xvalues]: the assertion [len(xvalues) == len(self)], then the
    assignment. *)
Definition set_xvalues (self : SigresPlotter) (xvalues : list Z)
  : SigresPlotter * pyres unit :=
  if (length xvalues =? plotter_len self)%nat then
    (mkSigresPlotter (sigres_files self) (labels self) (pl_nsppol self)
       (computed_gwkpoints self) (pl_max_gwbstart self) (pl_min_gwbstop self)
       (pl_param_name self) (Some xvalues),
     inr tt)
  else (self, inl PyAssertionError).

(** [prepare_plot].  The number of warnings logged is not part of the
    result. *)
Definition prepare_plot (self : SigresPlotter) : SigresPlotter * pyres unit :=
  let param_list := _get_param_list self in
  let '(param_name, problem, _) := detect_param param_list None false 0 in
  let param_name := if problem then None else param_name in
  let self := set_param_name self param_name in
  match param_name with
  | None =>
      set_xvalues self (map Z.of_nat (seq 0 (plotter_len self)))
  | Some name =>
      let xvalues := dd_get param_list name in
      let items := sorted snd (combine (seq 0 (length xvalues)) xvalues) in
      let indices := map fst items in
      match pick_files (plotter_iter self) indices with
      | None => (self, inl PyIndexError)
      | Some files =>
          let self := with_files self (rebuild_files files) in
          let param_list := _get_param_list self in
          set_xvalues self (dd_get param_list name)
      end
  end.
End Plotter.
Arguments SigresData : clear implicits.
Arguments SigresPlotter : clear implicits.

Section PlotterFacts.
Context {K : Type} {KN : KpointListNe K}.

(** The key is present in the dictionary. *)
Definition odict_has {V : Type} (d : list (string * V)) (key : string) : bool :=
  existsb (fun kv => String.eqb (fst kv) key) d.

Lemma odict_set_In {V : Type} (d : list (string * V)) (key : string) (value : V) :
  In (key, value) (odict_set d key value).
Proof.
  induction d as [|[k v] rest IH]; simpl.
  - left. reflexivity.
  - destruct (String.eqb k key) eqn:E.
    + apply String.eqb_eq in E. subst k. left. reflexivity.
    + right. exact IH.
Qed.

Lemma odict_set_length {V : Type} (d : list (string * V)) (key : string) (value : V) :
  length (odict_set d key value) =
  if odict_has d key then length d else S (length d).
Proof.
  induction d as [|[k v] rest IH]; simpl; [reflexivity|].
  destruct (String.eqb k key); simpl; [reflexivity|].
  rewrite IH. destruct (odict_has rest key); reflexivity.
Qed.

(** [add_file] stores the file and its label before it compares the file
    with the ones already there: whatever the outcome, the file is in the
    plotter afterwards (in place of a file of the same path, at the end
    otherwise) and the list of labels is one longer.  A call that raises
    does so with one of the two ValueErrors and leaves the band bounds of
    the plotter as they were. *)
Theorem add_file_registers_first (self : SigresPlotter K) (sigres : SigresData K)
    (label : option string) :
  let self' := fst (add_file self sigres label) in
  In (sg_filepath sigres, sigres) (sigres_files self') /\
  plotter_len self' =
    (if odict_has (sigres_files self) (sg_filepath sigres)
     then plotter_len self else S (plotter_len self)) /\
  labels self' = labels self ++ [label] /\
  (forall e, snd (add_file self sigres label) = inl e ->
     (e = PyValueError msg_nsppol [] \/ e = PyValueError msg_gwkpoints []) /\
     pl_max_gwbstart self' = pl_max_gwbstart self /\
     pl_min_gwbstop self' = pl_min_gwbstop self).
Proof.
  unfold add_file, plotter_len.
  destruct (negb (_ =? sg_nsppol sigres)); [|destruct (kpoint_list_ne _ _)];
    cbn [fst snd sigres_files labels pl_max_gwbstart pl_min_gwbstop];
    (split; [apply odict_set_In|]);
    (split; [apply odict_set_length|]);
    (split; [reflexivity|]);
    intros e He; try discriminate He; injection He as <-; auto.
Qed.

Lemma maximum_snoc (l : list Z) (x : Z) :
  maximum (l ++ [x]) =
  Some (match maximum l with Some b => Z.max b x | None => x end).
Proof.
  destruct l as [|y t]; [reflexivity|].
  simpl. rewrite fold_left_app. reflexivity.
Qed.

Lemma minimum_snoc (l : list Z) (x : Z) :
  minimum (l ++ [x]) =
  Some (match minimum l with Some b => Z.min b x | None => x end).
Proof.
  destruct l as [|y t]; [reflexivity|].
  simpl. rewrite fold_left_app. reflexivity.
Qed.

(** What the attributes of the plotter record of the files [done] added so
    far. *)
Definition plotter_records (self : SigresPlotter K) (done : list (SigresData K)) : Prop :=
  pl_max_gwbstart self = maximum (map sg_max_gwbstart done) /\
  pl_min_gwbstop self = minimum (map sg_min_gwbstop done) /\
  (forall f, In f done -> pl_nsppol self = Some (sg_nsppol f)) /\
  (forall f, In f done ->
     exists g, computed_gwkpoints self = Some g /\
               kpoint_list_ne g (sg_gwkpoints f) = false) /\
  length (labels self) = length done.

Lemma add_file_records (self self' : SigresPlotter K) (done : list (SigresData K))
    (sigres : SigresData K) (label : option string) :
  plotter_records self done ->
  add_file self sigres label = (self', inr tt) ->
  plotter_records self' (done ++ [sigres]).
Proof.
  intros [Hmax [Hmin [Hns [Hgw Hlen]]]] H. unfold add_file in H.
  destruct (negb (_ =? sg_nsppol sigres)) eqn:N; [discriminate|].
  destruct (kpoint_list_ne _ (sg_gwkpoints sigres)) eqn:G; [discriminate|].
  injection H as <-.
  apply negb_false_iff, Z.eqb_eq in N.
  unfold plotter_records.
  cbn [pl_max_gwbstart pl_min_gwbstop pl_nsppol computed_gwkpoints labels].
  rewrite !map_app. cbn [map]. rewrite maximum_snoc, minimum_snoc, <- Hmax, <- Hmin.
  split; [reflexivity|]. split; [reflexivity|]. split; [|split].
  - intros f Hf. apply in_app_or in Hf. destruct Hf as [Hf|[<-|[]]].
    + rewrite (Hns f Hf) in *. reflexivity.
    + rewrite N. reflexivity.
  - intros f Hf. apply in_app_or in Hf. destruct Hf as [Hf|[<-|[]]].
    + destruct (Hgw f Hf) as [g [Hg Hne]]. rewrite Hg. exists g. split; [reflexivity|exact Hne].
    + eexists. split; [reflexivity|exact G].
  - rewrite !length_app, Hlen. reflexivity.
Qed.

Lemma add_files_from_records (files : list (SigresData K)) :
  forall (self self' : SigresPlotter K) (done : list (SigresData K)) (i : Z)
         (file_labels : option (list string)),
    plotter_records self done ->
    add_files_from self i files file_labels = (self', inr tt) ->
    plotter_records self' (done ++ files).
Proof.
  induction files as [|sigres rest IH]; intros self self' done i file_labels Hrec H.
  - simpl in H. injection H as <-. rewrite app_nil_r. exact Hrec.
  - cbn [add_files_from] in H.
    destruct (match file_labels with
              | Some ls => match getitem ls i with
                           | Some l => Some (Some l)
                           | None => None
                           end
              | None => Some None
              end) as [label|]; [|discriminate].
    destruct (add_file self sigres label) as [self1 [e|[]]] eqn:A; [discriminate|].
    replace (done ++ sigres :: rest) with ((done ++ [sigres]) ++ rest)
      by (rewrite <- app_assoc; reflexivity).
    eapply IH; [|exact H].
    eapply add_file_records; eassumption.
Qed.

(** After [add_files] has added all the files to a new plotter, the
    plotter's [max_gwbstart] is the greatest [max_gwbstart] of the files, its
    [min_gwbstop] the least [min_gwbstop], its [nsppol] is the one of every
    file, no file has GW k-points that differ from [computed_gwkpoints], and
    there is one label per file. *)
Theorem add_files_records (files : list (SigresData K)) (file_labels : option (list string))
    (self' : SigresPlotter K) :
  add_files new_plotter files file_labels = (self', inr tt) ->
  pl_max_gwbstart self' = maximum (map sg_max_gwbstart files) /\
  pl_min_gwbstop self' = minimum (map sg_min_gwbstop files) /\
  (forall f, In f files -> pl_nsppol self' = Some (sg_nsppol f)) /\
  (forall f, In f files ->
     exists g, computed_gwkpoints self' = Some g /\
               kpoint_list_ne g (sg_gwkpoints f) = false) /\
  length (labels self') = length files.
Proof.
  intros H.
  apply (add_files_from_records files new_plotter self' [] 0 file_labels); [|exact H].
  unfold plotter_records. simpl. repeat split; intros f [].
Qed.
End PlotterFacts.

Section PrepareFacts.
Context {K : Type} {KN : KpointListNe K}.

(** The values that a dictionary of parameters gives for a name. *)
Definition values_of (name : string) (params : list (string * Z)) : list Z :=
  map snd (filter (fun kv => String.eqb (fst kv) name) params).

(** [sigres.params[name]] *)
Definition param_value (name : string) (sigres : SigresData K) : Z :=
  hd 0 (values_of name (sg_params sigres)).

Lemma dd_get_append (d : list (string * list Z)) (key name : string) (v : Z) :
  dd_get (dd_append d key v) name =
  if String.eqb key name then dd_get d name ++ [v] else dd_get d name.
Proof.
  induction d as [|[k l] rest IH]; cbn [dd_append dd_get].
  - destruct (String.eqb key name); reflexivity.
  - destruct (String.eqb k key) eqn:E; cbn [dd_get].
    + apply String.eqb_eq in E. subst k.
      destruct (String.eqb key name); reflexivity.
    + rewrite IH. destruct (String.eqb k name) eqn:E2; [|reflexivity].
      apply String.eqb_eq in E2. subst k. rewrite String.eqb_sym in E. rewrite E.
      reflexivity.
Qed.

Lemma dd_get_fold_params (params : list (string * Z)) :
  forall (d : list (string * list Z)) (name : string),
    dd_get (fold_left (fun pl kv => dd_append pl (fst kv) (snd kv)) params d) name =
    dd_get d name ++ values_of name params.
Proof.
  unfold values_of.
  induction params as [|[k v] rest IH]; intros d name; cbn [fold_left filter map fst snd].
  - rewrite app_nil_r. reflexivity.
  - rewrite IH, dd_get_append.
    destruct (String.eqb k name); cbn [map snd]; [rewrite <- app_assoc|]; reflexivity.
Qed.

Lemma dd_get_fold_files (files : list (SigresData K)) :
  forall (d : list (string * list Z)) (name : string),
    dd_get (fold_left
              (fun param_list sigres =>
                 fold_left (fun pl kv => dd_append pl (fst kv) (snd kv))
                           (sg_params sigres) param_list) files d) name =
    dd_get d name ++ flat_map (fun f => values_of name (sg_params f)) files.
Proof.
  induction files as [|f rest IH]; intros d name; cbn [fold_left flat_map].
  - rewrite app_nil_r. reflexivity.
  - rewrite IH, dd_get_fold_params, <- app_assoc. reflexivity.
Qed.

Lemma dd_get_param_list (self : SigresPlotter K) (name : string) :
  dd_get (_get_param_list self) name =
  flat_map (fun f => values_of name (sg_params f)) (plotter_iter self).
Proof. unfold _get_param_list. rewrite dd_get_fold_files. reflexivity. Qed.

Lemma dd_append_keys (d : list (string * list Z)) (key : string) (v : Z) :
  map fst (dd_append d key v) =
  if existsb (fun kl => String.eqb (fst kl) key) d then map fst d else map fst d ++ [key].
Proof.
  induction d as [|[k l] rest IH]; cbn [dd_append existsb map fst]; [reflexivity|].
  destruct (String.eqb k key); cbn [map fst orb]; [reflexivity|].
  rewrite IH. destruct (existsb _ rest); reflexivity.
Qed.

Lemma dd_append_NoDup (d : list (string * list Z)) (key : string) (v : Z) :
  NoDup (map fst d) -> NoDup (map fst (dd_append d key v)).
Proof.
  intros H. rewrite dd_append_keys.
  destruct (existsb (fun kl => String.eqb (fst kl) key) d) eqn:E; [exact H|].
  apply NoDup_app; [exact H|constructor; [intros []|constructor]|].
  intros x Hx [<-|[]].
  apply in_map_iff in Hx. destruct Hx as [kl [Hk Hin]].
  assert (existsb (fun kl => String.eqb (fst kl) key) d = true).
  { apply existsb_exists. exists kl. split; [exact Hin|]. rewrite Hk. apply String.eqb_refl. }
  congruence.
Qed.

Lemma param_list_NoDup (self : SigresPlotter K) : NoDup (map fst (_get_param_list self)).
Proof.
  unfold _get_param_list.
  assert (G : forall (files : list (SigresData K)) d, NoDup (map fst d) ->
            NoDup (map fst (fold_left
              (fun param_list sigres =>
                 fold_left (fun pl kv => dd_append pl (fst kv) (snd kv))
                           (sg_params sigres) param_list) files d))).
  { induction files as [|f rest IH]; intros d Hd; cbn [fold_left]; [exact Hd|].
    apply IH. generalize dependent d.
    induction (sg_params f) as [|kv ps IHp]; intros d Hd; cbn [fold_left]; [exact Hd|].
    apply IHp. apply dd_append_NoDup. exact Hd. }
  apply G. constructor.
Qed.

Lemma dd_get_In (d : list (string * list Z)) (name : string) (l : list Z) :
  NoDup (map fst d) -> In (name, l) d -> dd_get d name = l.
Proof.
  induction d as [|[k l'] rest IH]; intros Hnd Hin; [contradiction|].
  cbn [map fst] in Hnd. apply NoDup_cons_iff in Hnd. destruct Hnd as [Hk Hnd].
  cbn [dd_get]. destruct Hin as [Heq|Hin].
  - injection Heq as -> ->. rewrite String.eqb_refl. reflexivity.
  - destruct (String.eqb k name) eqn:E.
    + apply String.eqb_eq in E. subst k. exfalso. apply Hk.
      apply in_map_iff. exists (name, l). split; [reflexivity|exact Hin].
    + apply IH; assumption.
Qed.

Lemma detect_param_spec (param_list : list (string * list Z)) :
  forall (pn : option string) (problem : bool) (w : nat) (name : string) (w' : nat),
    detect_param param_list pn problem w = (Some name, false, w') ->
    pn = Some name \/ exists l, In (name, l) param_list /\ any_differs l = true.
Proof.
  induction param_list as [|[key vl] rest IH]; intros pn problem w name w' H;
    cbn [detect_param] in H.
  - injection H as -> _ _. left. reflexivity.
  - destruct (any_differs vl) eqn:A.
    + destruct pn as [p|].
      * apply IH in H. destruct H as [H|[l [Hl Hd]]]; [left; exact H|].
        right. exists l. split; [right; exact Hl|exact Hd].
      * apply IH in H. destruct H as [H|[l [Hl Hd]]].
        -- injection H as ->. right. exists vl. split; [left; reflexivity|exact A].
        -- right. exists l. split; [right; exact Hl|exact Hd].
    + apply IH in H. destruct H as [H|[l [Hl Hd]]]; [left; exact H|].
      right. exists l. split; [right; exact Hl|exact Hd].
Qed.

Lemma values_of_absent (name : string) (params : list (string * Z)) :
  ~ In name (map fst params) -> values_of name params = [].
Proof.
  unfold values_of. induction params as [|[k v] rest IH]; intros H; [reflexivity|].
  cbn [filter fst]. destruct (String.eqb k name) eqn:E.
  - apply String.eqb_eq in E. subst k. exfalso. apply H. left. reflexivity.
  - apply IH. intros Hin. apply H. right. exact Hin.
Qed.

Lemma values_of_single (name : string) (params : list (string * Z)) :
  NoDup (map fst params) -> In name (map fst params) ->
  values_of name params = [hd 0 (values_of name params)].
Proof.
  induction params as [|[k v] rest IH]; intros Hnd Hin; [contradiction|].
  cbn [map fst] in Hnd, Hin. apply NoDup_cons_iff in Hnd. destruct Hnd as [Hk Hnd].
  unfold values_of in *. cbn [filter fst].
  destruct (String.eqb k name) eqn:E.
  - apply String.eqb_eq in E. subst k. cbn [map snd hd].
    fold (values_of name rest). rewrite (values_of_absent name rest Hk). reflexivity.
  - destruct Hin as [Heq|Hin]; [subst k; rewrite String.eqb_refl in E; discriminate|].
    apply IH; assumption.
Qed.

(** The files carry the same names of parameters. *)
Definition uniform_params (names : list string) (files : list (SigresData K)) : Prop :=
  NoDup names /\ forall f, In f files -> map fst (sg_params f) = names.

Lemma flat_values_uniform (names : list string) (files : list (SigresData K))
    (name : string) :
  uniform_params names files ->
  flat_map (fun f => values_of name (sg_params f)) files =
  if mem_string name names then map (param_value name) files else [].
Proof.
  intros [Hnd Hu].
  induction files as [|f rest IH]; cbn [flat_map map].
  - destruct (mem_string name names); reflexivity.
  - rewrite IH by (intros g Hg; apply Hu; right; exact Hg).
    pose proof (Hu f (or_introl eq_refl)) as Hf.
    destruct (mem_string name names) eqn:M.
    + apply mem_string_In in M. unfold param_value at 1.
      rewrite (values_of_single name (sg_params f)) at 1;
        [reflexivity|rewrite Hf; exact Hnd|rewrite Hf; exact M].
    + apply mem_string_false in M.
      rewrite values_of_absent; [reflexivity|rewrite Hf; exact M].
Qed.

Lemma map_nth_seq {A : Type} (l : list A) (d : A) :
  map (fun i => nth i l d) (seq 0 (length l)) = l.
Proof.
  apply (nth_ext _ _ (nth 0 l d) d).
  - rewrite length_map, length_seq. reflexivity.
  - intros n Hn. rewrite length_map, length_seq in Hn.
    rewrite (map_nth (fun i => nth i l d) (seq 0 (length l)) 0%nat n).
    rewrite seq_nth by exact Hn. reflexivity.
Qed.

Lemma pick_files_nth (files : list (SigresData K)) (d : SigresData K) (indices : list nat) :
  (forall i, In i indices -> (i < length files)%nat) ->
  pick_files files indices = Some (map (fun i => nth i files d) indices).
Proof.
  induction indices as [|i rest IH]; intros H; [reflexivity|].
  cbn [pick_files map].
  rewrite (nth_error_nth' files d (H i (or_introl eq_refl))).
  rewrite IH by (intros j Hj; apply H; right; exact Hj). reflexivity.
Qed.

Lemma in_combine_seq (xs : list Z) :
  forall (a : nat) (i : nat) (v : Z),
    In (i, v) (combine (seq a (length xs)) xs) ->
    (a <= i < a + length xs)%nat /\ nth (i - a) xs 0 = v.
Proof.
  induction xs as [|x t IH]; intros a i v H; [contradiction|].
  cbn [length seq combine] in H. destruct H as [H|H].
  - injection H as <- <-. split; [simpl; lia|]. rewrite Nat.sub_diag. reflexivity.
  - apply IH in H. destruct H as [Hi Hv]. split; [simpl; lia|].
    replace (i - a)%nat with (S (i - S a)) by lia. exact Hv.
Qed.

Lemma map_fst_combine_seq (xs : list Z) (a : nat) :
  map fst (combine (seq a (length xs)) xs) = seq a (length xs).
Proof.
  revert a. induction xs as [|x t IH]; intros a; [reflexivity|].
  cbn [length seq combine map fst]. rewrite IH. reflexivity.
Qed.

Lemma odict_set_new {V : Type} (d : list (string * V)) (key : string) (value : V) :
  ~ In key (map fst d) -> odict_set d key value = d ++ [(key, value)].
Proof.
  induction d as [|[k v] rest IH]; intros H; [reflexivity|].
  cbn [odict_set]. destruct (String.eqb k key) eqn:E.
  - apply String.eqb_eq in E. subst k. exfalso. apply H. left. reflexivity.
  - rewrite IH; [reflexivity|]. intros Hin. apply H. right. exact Hin.
Qed.

Lemma rebuild_files_from (files : list (SigresData K)) :
  forall d : list (string * SigresData K),
    NoDup (map fst d ++ map sg_filepath files) ->
    fold_left (fun newd sigres => odict_set newd (sg_filepath sigres) sigres) files d =
    d ++ map (fun f => (sg_filepath f, f)) files.
Proof.
  induction files as [|f rest IH]; intros d H; cbn [fold_left map].
  - rewrite app_nil_r. reflexivity.
  - cbn [map] in H.
    assert (Hf : ~ In (sg_filepath f) (map fst d)).
    { intros Hin. apply NoDup_remove_2 in H. apply H.
      apply in_or_app. left. exact Hin. }
    rewrite (odict_set_new d _ f Hf). rewrite IH.
    + rewrite <- app_assoc. reflexivity.
    + rewrite map_app, <- app_assoc. exact H.
Qed.

Lemma rebuild_files_NoDup (files : list (SigresData K)) :
  NoDup (map sg_filepath files) ->
  rebuild_files files = map (fun f => (sg_filepath f, f)) files.
Proof.
  intros H. unfold rebuild_files. rewrite rebuild_files_from; [reflexivity|exact H].
Qed.

(** The dictionary of the plotter has one entry per path, filed under the
    path of the SIGRES file, and the files carry the parameters [names]. *)
Definition plotter_well_formed (names : list string) (self : SigresPlotter K) : Prop :=
  NoDup (map fst (sigres_files self)) /\
  (forall kv, In kv (sigres_files self) -> fst kv = sg_filepath (snd kv)) /\
  uniform_params names (plotter_iter self).

Lemma plotter_paths_NoDup (names : list string) (self : SigresPlotter K) :
  plotter_well_formed names self -> NoDup (map sg_filepath (plotter_iter self)).
Proof.
  intros [Hnd [Hkey _]]. unfold plotter_iter. rewrite map_map.
  rewrite <- (map_ext_in fst (fun kv => sg_filepath (snd kv)) _ Hkey). exact Hnd.
Qed.

Lemma sorted_by_value (files : list (SigresData K)) (d : SigresData K) (name : string) :
  let xs := map (param_value name) files in
  let items := sorted snd (combine (seq 0 (length xs)) xs) in
  let files' := map (fun i => nth i files d) (map fst items) in
  (forall i, In i (map fst items) -> (i < length files)%nat) /\
  Permutation files' files /\
  map (param_value name) files' = map snd items /\
  StronglySorted Z.le (map snd items).
Proof.
  intros xs items files'.
  assert (Hlen : length xs = length files) by (unfold xs; apply length_map).
  assert (Hz : forall iv, In iv items ->
                 (fst iv < length files)%nat /\
                 param_value name (nth (fst iv) files d) = snd iv).
  { intros [i v] Hiv. apply sorted_In in Hiv. apply in_combine_seq in Hiv.
    destruct Hiv as [Hi Hv]. cbn [fst snd]. rewrite Nat.sub_0_r in Hv.
    split; [lia|]. rewrite <- Hv. unfold xs.
    rewrite (nth_indep _ 0 (param_value name d)) by (rewrite length_map; lia).
    symmetry. apply map_nth. }
  split; [|split; [|split]].
  - intros i Hi. apply in_map_iff in Hi. destruct Hi as [iv [<- Hiv]].
    apply Hz. exact Hiv.
  - unfold files'. rewrite map_map.
    apply Permutation_trans with
      (map (fun iv : nat * Z => nth (fst iv) files d) (combine (seq 0 (length xs)) xs)).
    + apply Permutation_map. apply sorted_perm.
    + rewrite <- (map_map fst (fun i => nth i files d)).
      rewrite map_fst_combine_seq, Hlen, map_nth_seq. apply Permutation_refl.
  - unfold files'. rewrite !map_map. apply map_ext_in.
    intros iv Hiv. apply Hz. exact Hiv.
  - apply sorted_sorted.
Qed.

(** On a well-formed plotter [prepare_plot] does not fail.  It keeps the
    files, possibly in another order, and sets [param_name] and [xvalues]:
    when exactly one parameter takes different values in the files, it is
    [param_name], the files are put in the order, non-decreasing, of its
    values and [xvalues] holds these values; otherwise [param_name] is None,
    the order of the files is kept and [xvalues] counts them from 0. *)
Theorem prepare_plot_spec (names : list string) (self : SigresPlotter K) :
  plotter_well_formed names self ->
  exists self' pn xs,
    prepare_plot self = (self', inr tt) /\
    Permutation (plotter_iter self') (plotter_iter self) /\
    pl_param_name self' = Some pn /\
    pl_xvalues self' = Some xs /\
    match pn with
    | Some name =>
        In name names /\
        xs = map (param_value name) (plotter_iter self') /\
        StronglySorted Z.le xs
    | None =>
        plotter_iter self' = plotter_iter self /\
        xs = map Z.of_nat (seq 0 (plotter_len self))
    end.
Proof.
  intros Hwf. pose proof (plotter_paths_NoDup names self Hwf) as Hpaths.
  destruct Hwf as [Hnd [Hkey Huni]].
  assert (Hnone : exists self' xs,
            set_xvalues (set_param_name self None)
              (map Z.of_nat (seq 0 (plotter_len (set_param_name self None)))) =
              (self', inr tt) /\
            Permutation (plotter_iter self') (plotter_iter self) /\
            pl_param_name self' = Some None /\
            pl_xvalues self' = Some xs /\
            plotter_iter self' = plotter_iter self /\
            xs = map Z.of_nat (seq 0 (plotter_len self))).
  { unfold set_xvalues. rewrite length_map, length_seq, Nat.eqb_refl.
    eexists. eexists. split; [reflexivity|].
    repeat split. apply Permutation_refl. }
  unfold prepare_plot.
  destruct (detect_param (_get_param_list self) None false 0) as [[pn problem] w] eqn:D.
  destruct problem.
  { destruct Hnone as [self' [xs [H1 [H2 [H3 [H4 [H5 H6]]]]]]].
    exists self', None, xs. repeat split; assumption. }
  destruct pn as [name|].
  2:{ destruct Hnone as [self' [xs [H1 [H2 [H3 [H4 [H5 H6]]]]]]].
      exists self', None, xs. repeat split; assumption. }
  apply detect_param_spec in D. destruct D as [D|[l [Hl Hdiff]]]; [discriminate|].
  pose proof (dd_get_In _ name l (param_list_NoDup self) Hl) as Hget.
  rewrite dd_get_param_list, (flat_values_uniform names _ name Huni) in Hget.
  destruct (mem_string name names) eqn:M;
    [|subst l; discriminate Hdiff].
  apply mem_string_In in M.
  set (files := plotter_iter self) in *.
  assert (Hd : exists d : SigresData K, In d files).
  { destruct files as [|d rest]; [subst l; discriminate Hdiff|].
    exists d. left. reflexivity. }
  destruct Hd as [d _].
  assert (Hx0 : dd_get (_get_param_list self) name = map (param_value name) files).
  { rewrite dd_get_param_list. fold files.
    rewrite (flat_values_uniform names files name Huni).
    apply mem_string_In in M. rewrite M. reflexivity. }
  rewrite Hx0.
  destruct (sorted_by_value files d name) as [Hidx [Hperm [Hvals Hsorted]]].
  cbv zeta in Hidx, Hperm, Hvals, Hsorted.
  set (items := sorted snd (combine (seq 0 (length (map (param_value name) files)))
                              (map (param_value name) files))) in *.
  change (plotter_iter (set_param_name self (Some name))) with files.
  rewrite (pick_files_nth files d (map fst items) Hidx).
  set (files' := map (fun i => nth i files d) (map fst items)) in *.
  assert (Hpaths' : NoDup (map sg_filepath files')).
  { apply (Permutation_NoDup (l := map sg_filepath files)); [|exact Hpaths].
    apply Permutation_map, Permutation_sym. exact Hperm. }
  rewrite (rebuild_files_NoDup files' Hpaths').
  set (self2 := with_files (set_param_name self (Some name))
                  (map (fun f => (sg_filepath f, f)) files')).
  assert (Hiter : plotter_iter self2 = files').
  { unfold self2, plotter_iter, with_files. cbn [sigres_files].
    rewrite map_map. cbn [snd]. apply map_id. }
  assert (Huni' : uniform_params names files').
  { destruct Huni as [Hn Hu]. split; [exact Hn|].
    intros f Hf. apply Hu. apply (Permutation_in _ Hperm). exact Hf. }
  assert (Hx1 : dd_get (_get_param_list self2) name = map (param_value name) files').
  { rewrite dd_get_param_list, Hiter.
    rewrite (flat_values_uniform names files' name Huni').
    apply mem_string_In in M. rewrite M. reflexivity. }
  rewrite Hx1. unfold set_xvalues.
  assert (Hlen : (length (map (param_value name) files') =? plotter_len self2)%nat = true).
  { apply Nat.eqb_eq. unfold plotter_len, self2, with_files. cbn [sigres_files].
    rewrite !length_map. reflexivity. }
  rewrite Hlen.
  eexists. exists (Some name). eexists. split; [reflexivity|].
  cbn [pl_param_name pl_xvalues]. unfold plotter_iter. cbn [sigres_files].
  change (map snd (sigres_files self2)) with (plotter_iter self2). rewrite Hiter.
  split; [exact Hperm|]. split; [reflexivity|]. split; [reflexivity|].
  split; [exact M|]. split; [reflexivity|].
  rewrite Hvals. exact Hsorted.
Qed.
End PrepareFacts.

Section PlotterKeys.
Context {K : Type} {KN : KpointListNe K}.

Lemma odict_set_keys {V : Type} (d : list (string * V)) (key : string) (value : V) :
  map fst (odict_set d key value) =
  if odict_has d key then map fst d else map fst d ++ [key].
Proof.
  induction d as [|[k v] rest IH]; cbn [odict_set odict_has existsb map fst]; [reflexivity|].
  destruct (String.eqb k key) eqn:E; cbn [map fst orb]; [reflexivity|].
  rewrite IH. fold (odict_has rest key). destruct (odict_has rest key); reflexivity.
Qed.

Lemma odict_set_elements {V : Type} (d : list (string * V)) (key : string) (value : V)
    (kv : string * V) :
  In kv (odict_set d key value) -> In kv d \/ kv = (key, value).
Proof.
  induction d as [|[k v] rest IH]; cbn [odict_set]; intros H.
  - destruct H as [H|[]]. right. symmetry. exact H.
  - destruct (String.eqb k key) eqn:E.
    + apply String.eqb_eq in E. subst k. destruct H as [H|H].
      * right. symmetry. exact H.
      * left. right. exact H.
    + destruct H as [H|H]; [left; left; exact H|].
      destruct (IH H) as [H'|H']; [left; right; exact H'|right; exact H'].
Qed.

(** [add_file] keeps the dictionary of the plotter keyed by the paths of
    its files, one entry per path, whatever its outcome. *)
Lemma add_file_keeps_keys (self : SigresPlotter K) (sigres : SigresData K)
    (label : option string) :
  NoDup (map fst (sigres_files self)) ->
  (forall kv, In kv (sigres_files self) -> fst kv = sg_filepath (snd kv)) ->
  let self' := fst (add_file self sigres label) in
  NoDup (map fst (sigres_files self')) /\
  (forall kv, In kv (sigres_files self') -> fst kv = sg_filepath (snd kv)).
Proof.
  intros Hnd Hkey.
  assert (G : NoDup (map fst (odict_set (sigres_files self) (sg_filepath sigres) sigres)) /\
              (forall kv, In kv (odict_set (sigres_files self) (sg_filepath sigres) sigres) ->
                          fst kv = sg_filepath (snd kv))).
  { split.
    - rewrite odict_set_keys.
      destruct (odict_has (sigres_files self) (sg_filepath sigres)) eqn:E; [exact Hnd|].
      apply NoDup_app; [exact Hnd|constructor; [intros []|constructor]|].
      intros a Ha [<-|[]].
      apply in_map_iff in Ha. destruct Ha as [kv [Hk Hin]].
      assert (odict_has (sigres_files self) (sg_filepath sigres) = true).
      { apply existsb_exists. exists kv. split; [exact Hin|].
        rewrite Hk. apply String.eqb_refl. }
      congruence.
    - intros kv Hin. apply odict_set_elements in Hin.
      destruct Hin as [Hin| ->]; [apply Hkey; exact Hin|reflexivity]. }
  unfold add_file.
  destruct (negb (_ =? sg_nsppol sigres)); [|destruct (kpoint_list_ne _ _)];
    cbn [fst sigres_files]; exact G.
Qed.
End PlotterKeys.

(** *** Sample plotter *)

(** Lists of k-points compared item by item. *)
Fixpoint list_eqb {A : Type} (eqb : A -> A -> bool) (l1 l2 : list A) : bool :=
  match l1, l2 with
  | [], [] => true
  | x :: t, y :: u => eqb x y && list_eqb eqb t u
  | _, _ => false
  end.

#[export] Instance coords_list_ne : KpointListNe (Z * Z * Z) :=
  fun a b => negb (list_eqb kpt_eq a b).

(** Three SIGRES files of a convergence study on [ecuteps]. *)
Definition ex_file (path : string) (ecuteps bstart bstop : Z) : SigresData (Z * Z * Z) :=
  mkSigresData path 1 [(0, 0, 0); (1, 0, 0)] bstart bstop
    [("ecutwfn", 20); ("ecuteps", ecuteps); ("nkibz", 2)]%string.

Definition ex_files : list (SigresData (Z * Z * Z)) :=
  [ex_file "c_SIGRES.nc" 8 2 9; ex_file "a_SIGRES.nc" 4 3 8; ex_file "b_SIGRES.nc" 6 1 10].

Definition ex_plotter : SigresPlotter (Z * Z * Z) := fst (add_files new_plotter ex_files None).

Lemma add_files_records_witness :
  pl_max_gwbstart ex_plotter = maximum (map sg_max_gwbstart ex_files) /\
  pl_min_gwbstop ex_plotter = minimum (map sg_min_gwbstop ex_files) /\
  (forall f, In f ex_files -> pl_nsppol ex_plotter = Some (sg_nsppol f)) /\
  (forall f, In f ex_files ->
     exists g, computed_gwkpoints ex_plotter = Some g /\
               kpoint_list_ne g (sg_gwkpoints f) = false) /\
  length (labels ex_plotter) = length ex_files.
Proof.
  apply (add_files_records ex_files None ex_plotter).
  vm_compute. reflexivity.
Defined.

Lemma ex_plotter_well_formed :
  plotter_well_formed ["ecutwfn"; "ecuteps"; "nkibz"]%string ex_plotter.
Proof.
  split; [|split; [|split]].
  - vm_compute. repeat (constructor; [simpl; intuition discriminate|]). constructor.
  - intros kv Hin. vm_compute in Hin.
    destruct Hin as [<-|[<-|[<-|[]]]]; reflexivity.
  - repeat (constructor; [simpl; intuition discriminate|]). constructor.
  - intros f Hin. vm_compute in Hin.
    destruct Hin as [<-|[<-|[<-|[]]]]; reflexivity.
Qed.

Lemma prepare_plot_spec_witness :
  exists self' pn xs,
    prepare_plot ex_plotter = (self', inr tt) /\
    Permutation (plotter_iter self') (plotter_iter ex_plotter) /\
    pl_param_name self' = Some pn /\
    pl_xvalues self' = Some xs /\
    match pn with
    | Some name =>
        In name ["ecutwfn"; "ecuteps"; "nkibz"]%string /\
        xs = map (param_value name) (plotter_iter self') /\
        StronglySorted Z.le xs
    | None =>
        plotter_iter self' = plotter_iter ex_plotter /\
        xs = map Z.of_nat (seq 0 (plotter_len ex_plotter))
    end.
Proof.
  apply (prepare_plot_spec ["ecutwfn"; "ecuteps"; "nkibz"]%string ex_plotter).
  exact ex_plotter_well_formed.
Defined.

(** ** SigresReader: from the arrays of the file to QPState records *)

(** [range(a, b)] *)
Definition range2 (a b : Z) : list Z :=
  map (fun i => a + Z.of_nat i) (seq 0 (Z.to_nat (b - a))).

(** [a[i, j]] and [a[i, j, k]] on arrays: every index follows the rules of
    [getitem]; IndexError is [None]. *)
Definition index2 {A : Type} (a : list (list A)) (i j : Z) : option A :=
  match getitem a i with
  | Some row => getitem row j
  | None => None
  end.

Definition index3 {A : Type} (a : list (list (list A))) (i j k : Z) : option A :=
  match getitem a i with
  | Some plane => index2 plane j k
  | None => None
  end.

Definition py_item {A : Type} (o : option A) : pyres A :=
  match o with
  | Some v => inr v
  | None => inl PyIndexError
  end.

(** A loop that appends the result of [f] for every item and stops at the
    first exception. *)
Fixpoint py_for {A B : Type} (f : A -> pyres B) (l : list A) : pyres (list B) :=
  match l with
  | [] => inr []
  | a :: rest =>
      try! b := f a in
      try! bs := py_for f rest in
      inr (b :: bs)
  end.

Section Reader.
Context {K : Type} {KE : KpointEq K}.

(** The attributes of a SigresReader that the methods below use.  The
    arrays are indexed as in the file: [spin, k-point of the IBZ, band] for
    the energies, [spin, k-point of the IBZ, band counted from the first GW
    band] for the matrix elements, [spin, GW k-point] for the band bounds. *)
Record SigresReader : Type := mkSigresReader {
  rd_nsppol : Z;
  rd_ibz : list K;
  rd_gwkpoints : list K;
  gwbstart_sk : list (list Z);
  gwbstop_sk : list (list Z);
  ks_eigens : list (list (list Z));
  rd_egw : list (list (list complex));
  rd_en_qp_diago : list (list (list Z));
  rd_vxcme : list (list (list complex));
  rd_sigxme : list (list (list complex));
  rd_sigcmee0 : list (list (list complex));
  rd_vUme : list (list (list complex));
  rd_ze0 : list (list (list complex))
}.

(** Modelled from the spec: [KpointList.index] (abipy.core.kpoints) is not
    among the sources.  Resolving a k-point gives the position of the first
    k-point of the list that equals it and fails when there is none. *)
Fixpoint kpoints_index (l : list K) (kpoint : K) (i : Z) : pyres Z :=
  match l with
  | [] => inl PyKpointNotFound
  | k :: rest => if kpt_eq k kpoint then inr i else kpoints_index rest kpoint (i + 1)
  end.

(** The k-point argument of the reader: an integer or a [Kpoint]. *)
Inductive kpoint_arg : Type :=
| KIndex (i : Z)
| KObject (k : K).

Definition kpt2fileindex (self : SigresReader) (kpoint : kpoint_arg) : pyres Z :=
  match kpoint with
  | KIndex i => inr i
  | KObject k => kpoints_index (rd_ibz self) k 0
  end.

Definition gwkpt2seqindex (self : SigresReader) (gwkpoint : kpoint_arg) : pyres Z :=
  match gwkpoint with
  | KIndex i => inr i
  | KObject k => kpoints_index (rd_gwkpoints self) k 0
  end.

Definition read_e0 (self : SigresReader) (spin kfile band : Z) : pyres Z :=
  py_item (index3 (ks_eigens self) spin kfile band).

(** [read_qp(spin, kpoint, band)].  The k-point is given as a [Kpoint] or
    as an integer: [A] is the type of the argument and [view] tells which of
    the two it is ([duck.is_intlike] and [int]).  An integer goes through
    [kpt2fileindex] and [gwkpt2seqindex] without any look-up.  The record
    keeps the argument as it was given. *)
Definition read_qp {A : Type} (view : A -> kpoint_arg) (self : SigresReader) (spin : Z)
    (kpoint : A) (band : Z) : pyres (QPState A) :=
  try! ik_file := kpt2fileindex self (view kpoint) in
  try! ik_gw := gwkpt2seqindex self (view kpoint) in
  try! bstart := py_item (index2 (gwbstart_sk self) spin ik_gw) in
  let ib_file := band - bstart in
  try! v_e0 := read_e0 self spin ik_file band in
  try! v_qpe := py_item (index3 (rd_egw self) spin ik_file band) in
  try! v_diago := py_item (index3 (rd_en_qp_diago self) spin ik_file band) in
  try! v_vxcme := py_item (index3 (rd_vxcme self) spin ik_file ib_file) in
  try! v_sigxme := py_item (index3 (rd_sigxme self) spin ik_file ib_file) in
  try! v_sigcmee0 := py_item (index3 (rd_sigcmee0 self) spin ik_file ib_file) in
  try! v_vUme := py_item (index3 (rd_vUme self) spin ik_file ib_file) in
  try! v_ze0 := py_item (index3 (rd_ze0 self) spin ik_file ib_file) in
  inr (mkQPState spin kpoint band v_e0 v_qpe v_diago v_vxcme v_sigxme v_sigcmee0
         v_vUme v_ze0).

(** The bands of the loops of [read_allqps] and [read_qplist_sk]:
    [range(gwbstart_sk[spin, ik], gwbstop_sk[spin, ik])] with
    [ik = gwkpt2seqindex(kpoint)]. *)
Definition gw_bands (self : SigresReader) (spin : Z) (kpoint : K) : pyres (list Z) :=
  try! ik := gwkpt2seqindex self (KObject kpoint) in
  try! bstart := py_item (index2 (gwbstart_sk self) spin ik) in
  try! bstop := py_item (index2 (gwbstop_sk self) spin ik) in
  inr (range2 bstart bstop).

Definition read_qplist_sk (self : SigresReader) (spin : Z) (kpoint : K)
  : pyres (QPList K) :=
  try! bands := gw_bands self spin kpoint in
  try! qps := py_for (fun band => read_qp KObject self spin kpoint band) bands in
  inr (QPList_init qps None).

(** [read_allqps]: one QPList per spin. *)
Definition read_allqps (self : SigresReader) : pyres (list (QPList K)) :=
  py_for
    (fun spin =>
       try! per_k := py_for (fun gwkpoint =>
                               try! bands := gw_bands self spin gwkpoint in
                               py_for (fun band => read_qp KObject self spin gwkpoint band) bands)
                            (rd_gwkpoints self) in
       inr (QPList_init (concat per_k) None))
    (range2 0 (rd_nsppol self)).
End Reader.
Arguments SigresReader : clear implicits.
Arguments kpoint_arg : clear implicits.

Section ReaderFacts.
Context {K : Type} {KE : KpointEq K}.



Lemma read_qp_inv {A : Type} (view : A -> kpoint_arg K) (self : SigresReader K)
    (spin : Z) (kpoint : A) (band : Z) (qp : QPState A) :
  read_qp view self spin kpoint band = inr qp ->
  skb qp = (spin, kpoint, band) /\
  exists ik_file ik_gw bstart,
    kpt2fileindex self (view kpoint) = inr ik_file /\
    gwkpt2seqindex self (view kpoint) = inr ik_gw /\
    index2 (gwbstart_sk self) spin ik_gw = Some bstart /\
    index3 (ks_eigens self) spin ik_file band = Some (e0 qp) /\
    index3 (rd_egw self) spin ik_file band = Some (qpe qp) /\
    index3 (rd_vxcme self) spin ik_file (band - bstart) = Some (vxcme qp) /\
    index3 (rd_sigxme self) spin ik_file (band - bstart) = Some (sigxme qp) /\
    index3 (rd_ze0 self) spin ik_file (band - bstart) = Some (ze0 qp).
Proof.
  intros H. unfold read_qp, read_e0, py_item in H.
  destruct (kpt2fileindex self (view kpoint)) as [e|ik_file] eqn:E1;
    cbn [py_bind] in H; [discriminate|].
  destruct (gwkpt2seqindex self (view kpoint)) as [e|ik_gw] eqn:E2;
    cbn [py_bind] in H; [discriminate|].
  destruct (index2 (gwbstart_sk self) spin ik_gw) as [bstart|] eqn:E3;
    cbn [py_bind] in H; [|discriminate].
  destruct (index3 (ks_eigens self) spin ik_file band) eqn:E4;
    cbn [py_bind] in H; [|discriminate].
  destruct (index3 (rd_egw self) spin ik_file band) eqn:E5;
    cbn [py_bind] in H; [|discriminate].
  destruct (index3 (rd_en_qp_diago self) spin ik_file band) eqn:E6;
    cbn [py_bind] in H; [|discriminate].
  destruct (index3 (rd_vxcme self) spin ik_file (band - bstart)) eqn:E7;
    cbn [py_bind] in H; [|discriminate].
  destruct (index3 (rd_sigxme self) spin ik_file (band - bstart)) eqn:E8;
    cbn [py_bind] in H; [|discriminate].
  destruct (index3 (rd_sigcmee0 self) spin ik_file (band - bstart)) eqn:E9;
    cbn [py_bind] in H; [|discriminate].
  destruct (index3 (rd_vUme self) spin ik_file (band - bstart)) eqn:E10;
    cbn [py_bind] in H; [|discriminate].
  destruct (index3 (rd_ze0 self) spin ik_file (band - bstart)) eqn:E11;
    cbn [py_bind] in H; [|discriminate].
  injection H as <-. split; [reflexivity|].
  exists ik_file, ik_gw, bstart. cbn [e0 qpe vxcme sigxme ze0].
  repeat split; assumption.
Qed.

Lemma read_qp_skb {A : Type} (view : A -> kpoint_arg K) (self : SigresReader K)
    (spin : Z) (kpoint : A) (band : Z) (qp : QPState A) :
  read_qp view self spin kpoint band = inr qp -> skb qp = (spin, kpoint, band).
Proof. intros H. apply (proj1 (read_qp_inv view self spin kpoint band qp H)). Qed.



Lemma py_for_inv {A B : Type} (f : A -> pyres B) :
  forall l r, py_for f l = inr r -> Forall2 (fun a b => f a = inr b) l r.
Proof.
  induction l as [|a l IH]; intros r H; cbn [py_for] in H.
  - injection H as <-. constructor.
  - destruct (f a) as [e|b] eqn:E; cbn [py_bind] in H; [discriminate|].
    destruct (py_for f l) as [e|bs] eqn:E'; cbn [py_bind] in H; [discriminate|].
    injection H as <-. constructor; [exact E|apply IH; reflexivity].
Qed.

Lemma read_band_keys (self : SigresReader K) (spin : Z) (kpoint : K) :
  forall bands qps,
    py_for (read_qp KObject self spin kpoint) bands = inr qps ->
    map skb qps = map (fun b => (spin, kpoint, b)) bands.
Proof.
  intros bands qps H. apply py_for_inv in H.
  induction H as [|b qp bands qps Hb _ IH]; [reflexivity|].
  cbn [map]. rewrite (read_qp_skb _ _ _ _ _ _ Hb), IH. reflexivity.
Qed.

Lemma Forall2_nth_error_r {A B : Type} (P : A -> B -> Prop) (l : list A) (r : list B) :
  Forall2 P l r ->
  forall n b, nth_error r n = Some b -> exists a, nth_error l n = Some a /\ P a b.
Proof.
  induction 1 as [|a b l r Hab _ IH]; intros n b' Hn.
  - destruct n; discriminate.
  - destruct n as [|n]; cbn [nth_error] in *.
    + injection Hn as <-. exists a. split; [reflexivity|exact Hab].
    + apply IH. exact Hn.
Qed.

Lemma Forall2_length_eq {A B : Type} (P : A -> B -> Prop) (l : list A) (r : list B) :
  Forall2 P l r -> length r = length l.
Proof. induction 1; simpl; congruence. Qed.

Lemma range2_length (a b : Z) : length (range2 a b) = Z.to_nat (b - a).
Proof. unfold range2. rewrite length_map, length_seq. reflexivity. Qed.

Lemma range2_nth_error (a b : Z) (n : nat) (x : Z) :
  nth_error (range2 a b) n = Some x -> x = a + Z.of_nat n.
Proof.
  unfold range2. intros H. rewrite nth_error_map in H.
  destruct (nth_error (seq 0 (Z.to_nat (b - a))) n) as [m|] eqn:E; [|discriminate].
  injection H as <-.
  assert (Hlt : (n < Z.to_nat (b - a))%nat).
  { assert (Hs : (n < length (seq 0 (Z.to_nat (b - a))))%nat)
      by (apply nth_error_Some; rewrite E; discriminate).
    rewrite length_seq in Hs. exact Hs. }
  rewrite nth_error_nth' with (d := 0%nat) in E by (rewrite length_seq; exact Hlt).
  rewrite seq_nth in E by exact Hlt. injection E as <-. reflexivity.
Qed.

(** The records of one spin, k-point by k-point. *)
Definition spin_keys (spin : Z) (kpoints : list K) (bands : list (list Z))
  : list (Z * K * Z) :=
  flat_map (fun kb => map (fun b => (spin, fst kb, b)) (snd kb)) (combine kpoints bands).

Lemma read_spin_keys (self : SigresReader K) (spin : Z) :
  forall kpoints per_k,
    py_for (fun gwkpoint =>
              try! bands := gw_bands self spin gwkpoint in
              py_for (fun band => read_qp KObject self spin gwkpoint band) bands)
           kpoints = inr per_k ->
    exists lists bands,
      Forall2 (fun k l => read_qplist_sk self spin k = inr l) kpoints lists /\
      concat per_k = concat (map items lists) /\
      Forall2 (fun k bs => gw_bands self spin k = inr bs) kpoints bands /\
      map skb (concat per_k) = spin_keys spin kpoints bands.
Proof.
  induction kpoints as [|k kpoints IH]; intros per_k H; cbn [py_for] in H.
  - injection H as <-. exists [], []. repeat split; constructor.
  - destruct (gw_bands self spin k) as [e|bs] eqn:Eb; cbn [py_bind] in H; [discriminate|].
    destruct (py_for (fun band => read_qp KObject self spin k band) bs) as [e|qps] eqn:Eq;
      cbn [py_bind] in H; [discriminate|].
    match type of H with
    | py_bind ?m _ = _ => destruct m as [e|rest] eqn:Er; cbn [py_bind] in H; [discriminate|]
    end.
    injection H as <-.
    destruct (IH rest eq_refl) as [lists [bands [Hl [Hc [Hb Hk]]]]].
    exists (QPList_init qps None :: lists), (bs :: bands). repeat split.
    + constructor; [|exact Hl]. unfold read_qplist_sk. rewrite Eb. cbn [py_bind].
      rewrite Eq. reflexivity.
    + cbn [concat map QPList_init items]. rewrite Hc. reflexivity.
    + constructor; [exact Eb|exact Hb].
    + cbn [concat]. rewrite map_app, Hk.
      unfold spin_keys. cbn [combine flat_map fst snd].
      rewrite (read_band_keys self spin k bs qps Eq). reflexivity.
Qed.

(** [read_allqps] returns one list per spin, none of them flagged as
    sorted.  The list of a spin holds, GW k-point after GW k-point in the
    order of [gwkpoints], the records that [read_qplist_sk] returns for that
    spin and k-point; its keys are (spin, k-point, band) with the band
    running over the GW bands of that spin and k-point. *)
Theorem read_allqps_spec (self : SigresReader K) (qplists : list (QPList K)) :
  read_allqps self = inr qplists ->
  length qplists = Z.to_nat (rd_nsppol self) /\
  forall (s : nat) (ql : QPList K),
    nth_error qplists s = Some ql ->
    is_e0sorted ql = false /\
    exists lists bands,
      Forall2 (fun k l => read_qplist_sk self (Z.of_nat s) k = inr l)
              (rd_gwkpoints self) lists /\
      items ql = concat (map items lists) /\
      Forall2 (fun k bs => gw_bands self (Z.of_nat s) k = inr bs)
              (rd_gwkpoints self) bands /\
      map skb (items ql) = spin_keys (Z.of_nat s) (rd_gwkpoints self) bands.
Proof.
  intros H. unfold read_allqps in H. apply py_for_inv in H. split.
  - rewrite (Forall2_length_eq _ _ _ H), range2_length. f_equal. lia.
  - intros s ql Hs.
    destruct (Forall2_nth_error_r _ _ _ H s ql Hs) as [spin [Hspin Hql]].
    apply range2_nth_error in Hspin. cbn in Hspin. subst spin.
    match type of Hql with
    | py_bind ?m _ = _ => destruct m as [e|per_k] eqn:Er; cbn [py_bind] in Hql; [discriminate|]
    end.
    injection Hql as <-. split; [reflexivity|].
    destruct (read_spin_keys self (Z.of_nat s) _ _ Er) as [lists [bands [Hl [Hc [Hb Hk]]]]].
    exists lists, bands. cbn [QPList_init items]. repeat split; assumption.
Qed.

(** The records of [read_qplist_sk]: one per GW band of the k-point, in
    ascending band order, under the key that was asked for; the list is not
    flagged as sorted. *)
Theorem read_qplist_sk_keys (self : SigresReader K) (spin : Z) (kpoint : K) (ql : QPList K) :
  read_qplist_sk self spin kpoint = inr ql ->
  is_e0sorted ql = false /\
  exists ik bstart bstop,
    kpoints_index (rd_gwkpoints self) kpoint 0 = inr ik /\
    index2 (gwbstart_sk self) spin ik = Some bstart /\
    index2 (gwbstop_sk self) spin ik = Some bstop /\
    length (items ql) = Z.to_nat (bstop - bstart) /\
    map skb (items ql) = map (fun b => (spin, kpoint, b)) (range2 bstart bstop).
Proof.
  intros H. unfold read_qplist_sk in H.
  destruct (gw_bands self spin kpoint) as [e|bands] eqn:Eb; cbn [py_bind] in H; [discriminate|].
  destruct (py_for (fun band => read_qp KObject self spin kpoint band) bands) as [e|qps] eqn:Eq;
    cbn [py_bind] in H; [discriminate|].
  injection H as <-. split; [reflexivity|].
  unfold gw_bands, gwkpt2seqindex, py_item in Eb.
  destruct (kpoints_index (rd_gwkpoints self) kpoint 0) as [e|ik] eqn:E1;
    cbn [py_bind] in Eb; [discriminate|].
  destruct (index2 (gwbstart_sk self) spin ik) as [bstart|] eqn:E2;
    cbn [py_bind] in Eb; [|discriminate].
  destruct (index2 (gwbstop_sk self) spin ik) as [bstop|] eqn:E3;
    cbn [py_bind] in Eb; [|discriminate].
  injection Eb as <-.
  exists ik, bstart, bstop. cbn [QPList_init items].
  pose proof (read_band_keys self spin kpoint _ _ Eq) as Hk.
  repeat split; try assumption.
  rewrite <- (length_map skb), Hk, length_map. apply range2_length.
Qed.

End ReaderFacts.

(** A reader with one spin, three k-points in the IBZ and two GW k-points
    that are listed in another order than in the IBZ. *)
Definition cplx (x : Z) : complex := mkComplex x 0.

Definition ex_reader : SigresReader (Z * Z * Z) :=
  mkSigresReader 1
    [(0, 0, 0); (1, 0, 0); (2, 0, 0)]
    [(2, 0, 0); (0, 0, 0)]
    [[1; 2]] [[3; 4]]
    [[[-5; -1; 2; 6]; [-4; 0; 3; 7]; [-6; -2; 1; 5]]]
    [[[cplx (-6); cplx (-2); cplx 3; cplx 8]; [cplx (-5); cplx (-1); cplx 4; cplx 9];
      [cplx (-7); cplx (-3); cplx 2; cplx 7]]]
    [[[-6; -2; 3; 8]; [-5; -1; 4; 9]; [-7; -3; 2; 7]]]
    [[[cplx 10; cplx 11]; [cplx 12; cplx 13]; [cplx 14; cplx 15]]]
    [[[cplx 20; cplx 21]; [cplx 22; cplx 23]; [cplx 24; cplx 25]]]
    [[[cplx 30; cplx 31]; [cplx 32; cplx 33]; [cplx 34; cplx 35]]]
    [[[cplx 40; cplx 41]; [cplx 42; cplx 43]; [cplx 44; cplx 45]]]
    [[[cplx 50; cplx 51]; [cplx 52; cplx 53]; [cplx 54; cplx 55]]].

Definition ex_allqps : list (QPList (Z * Z * Z)) :=
  Eval vm_compute in
    match read_allqps ex_reader with inr l => l | inl _ => [] end.

Definition ex_qplist_sk : QPList (Z * Z * Z) :=
  Eval vm_compute in
    match read_qplist_sk ex_reader 0 (2, 0, 0) with
    | inr l => l
    | inl _ => QPList_init [] None
    end.



Lemma read_allqps_spec_witness :
  read_allqps ex_reader = inr ex_allqps /\
  length ex_allqps = Z.to_nat (rd_nsppol ex_reader) /\
  forall (s : nat) (ql : QPList (Z * Z * Z)),
    nth_error ex_allqps s = Some ql ->
    is_e0sorted ql = false /\
    exists lists bands,
      Forall2 (fun k l => read_qplist_sk ex_reader (Z.of_nat s) k = inr l)
              (rd_gwkpoints ex_reader) lists /\
      items ql = concat (map items lists) /\
      Forall2 (fun k bs => gw_bands ex_reader (Z.of_nat s) k = inr bs)
              (rd_gwkpoints ex_reader) bands /\
      map skb (items ql) = spin_keys (Z.of_nat s) (rd_gwkpoints ex_reader) bands.
Proof.
  split; [vm_compute; reflexivity|].
  apply (read_allqps_spec ex_reader ex_allqps). vm_compute. reflexivity.
Defined.

Lemma read_qplist_sk_keys_witness :
  read_qplist_sk ex_reader 0 (2, 0, 0) = inr ex_qplist_sk /\
  is_e0sorted ex_qplist_sk = false /\
  exists ik bstart bstop,
    kpoints_index (rd_gwkpoints ex_reader) (2, 0, 0) 0 = inr ik /\
    index2 (gwbstart_sk ex_reader) 0 ik = Some bstart /\
    index2 (gwbstop_sk ex_reader) 0 ik = Some bstop /\
    length (items ex_qplist_sk) = Z.to_nat (bstop - bstart) /\
    map skb (items ex_qplist_sk) = map (fun b => (0, (2, 0, 0), b)) (range2 bstart bstop).
Proof.
  split; [vm_compute; reflexivity|].
  apply (read_qplist_sk_keys ex_reader 0 (2, 0, 0) ex_qplist_sk). vm_compute. reflexivity.
Defined.

(** ** print_qps: the bands of the tables *)

Section PrintQps.
Context {K : Type} {KE : KpointEq K}.

(** A table of [print_qps].  The header holds the names of the columns; a
    row is kept as the record that [read_qp] returned for it, before it is
    turned into strings; [tb_kpoint] and [tb_spin] are the values written to
    the stream above the table. *)
Record QPTable : Type := mkQPTable {
  tb_header : list string;
  tb_kpoint : K;
  tb_spin : Z;
  tb_rows : list (QPState K)
}.

(** The loop over the k-points.  [bands] is the local variable of that name:
    it is assigned inside the loop when it is [None] and never reset. *)
Fixpoint print_qps_kpoints (self : SigresReader K) (header : list string) (spin : Z)
    (kpoints : list K) (bands : option (list Z))
  : pyres (list QPTable * option (list Z)) :=
  match kpoints with
  | [] => inr ([], bands)
  | kpoint :: rest =>
      try! bands1 := match bands with
                     | None => gw_bands self spin kpoint
                     | Some bs => inr bs
                     end in
      try! rows := py_for (fun band => read_qp KObject self spin kpoint band) bands1 in
      try! r := print_qps_kpoints self header spin rest (Some bands1) in
      inr (mkQPTable header kpoint spin rows :: fst r, snd r)
  end.

(** The loop over the spins. *)
Fixpoint print_qps_spins (self : SigresReader K) (header : list string) (spins : list Z)
    (kpoints : list K) (bands : option (list Z))
  : pyres (list QPTable * option (list Z)) :=
  match spins with
  | [] => inr ([], bands)
  | spin :: rest =>
      try! r1 := print_qps_kpoints self header spin kpoints bands in
      try! r2 := print_qps_spins self header rest kpoints (snd r1) in
      inr (fst r1 ++ fst r2, snd r2)
  end.

(** [print_qps(spin, kpoints, bands)], the tables that it returns. *)
Definition print_qps (self : SigresReader K) (spin : option Z) (kpoints : option K)
    (bands : option Z) : pyres (list QPTable) :=
  let spins := match spin with None => range2 0 (rd_nsppol self) | Some s => [s] end in
  let kpoints := match kpoints with None => rd_gwkpoints self | Some k => [k] end in
  let bands := match bands with None => None | Some b => Some [b] end in
  try! header := get_fields ["spin"; "kpoint"]%string in
  try! r := print_qps_spins self header spins kpoints bands in
  inr (fst r).

(** What a table holds when its rows are the bands [bs]. *)
Definition table_of_bands (header : list string) (bs : list Z) (t : QPTable) : Prop :=
  tb_header t = header /\
  map skb (tb_rows t) = map (fun b => (tb_spin t, tb_kpoint t, b)) bs.

Definition table_key (t : QPTable) : Z * K := (tb_spin t, tb_kpoint t).

Lemma print_qps_kpoints_some (self : SigresReader K) (header : list string) (spin : Z)
    (bs : list Z) :
  forall kpoints tables st,
    print_qps_kpoints self header spin kpoints (Some bs) = inr (tables, st) ->
    (kpoints <> [] -> st = Some bs) /\
    (kpoints = [] -> st = Some bs) /\
    map table_key tables = map (pair spin) kpoints /\
    Forall (table_of_bands header bs) tables.
Proof.
  induction kpoints as [|k rest IH]; intros tables st H; cbn [print_qps_kpoints] in H.
  - injection H as <- <-. repeat split; try reflexivity; constructor.
  - cbn [py_bind] in H.
    destruct (py_for (fun band => read_qp KObject self spin k band) bs) as [e|rows] eqn:Er;
      cbn [py_bind] in H; [discriminate|].
    destruct (print_qps_kpoints self header spin rest (Some bs)) as [e|[ts st']] eqn:Ek;
      cbn [py_bind fst snd] in H; [discriminate|].
    injection H as <- <-.
    destruct (IH ts st' eq_refl) as [H1 [H2 [H3 H4]]].
    assert (Hst : st' = Some bs).
    { destruct rest; [apply H2; reflexivity|apply H1; discriminate]. }
    repeat split.
    + intros _. exact Hst.
    + discriminate.
    + cbn [map]. rewrite H3. reflexivity.
    + constructor; [|exact H4]. split; [reflexivity|].
      cbn [tb_rows tb_spin tb_kpoint]. apply (read_band_keys self spin k bs rows Er).
Qed.

Lemma print_qps_spins_some (self : SigresReader K) (header : list string) (kpoints : list K)
    (bs : list Z) :
  forall spins tables st,
    print_qps_spins self header spins kpoints (Some bs) = inr (tables, st) ->
    st = Some bs /\
    map table_key tables = flat_map (fun s => map (pair s) kpoints) spins /\
    Forall (table_of_bands header bs) tables.
Proof.
  induction spins as [|s rest IH]; intros tables st H; cbn [print_qps_spins] in H.
  - injection H as <- <-. repeat split; constructor.
  - destruct (print_qps_kpoints self header s kpoints (Some bs)) as [e|[t1 st1]] eqn:E1;
      cbn [py_bind fst snd] in H; [discriminate|].
    destruct (print_qps_kpoints_some self header s bs kpoints t1 st1 E1) as [H1 [H2 [H3 H4]]].
    assert (Hst : st1 = Some bs).
    { destruct kpoints; [apply H2; reflexivity|apply H1; discriminate]. }
    subst st1.
    destruct (print_qps_spins self header rest kpoints (Some bs)) as [e|[t2 st2]] eqn:E2;
      cbn [py_bind fst snd] in H; [discriminate|].
    injection H as <- <-.
    destruct (IH t2 st2 eq_refl) as [G1 [G2 G3]].
    repeat split.
    + exact G1.
    + cbn [flat_map]. rewrite map_app, H3, G2. reflexivity.
    + apply Forall_app. split; assumption.
Qed.

Lemma range2_cons (n : Z) : 0 < n -> range2 0 n = 0 :: range2 1 n.
Proof.
  intros Hn. unfold range2.
  replace (Z.to_nat (n - 0)) with (S (Z.to_nat (n - 1))) by lia.
  cbn [seq map]. f_equal. rewrite <- seq_shift, map_map.
  apply map_ext. intros i. lia.
Qed.

(** With no spin, k-point or band selected, [print_qps] makes one table per
    spin and GW k-point, in that order, with the columns of a record other
    than spin and k-point.  The bands of the rows are computed once, for the
    first spin and the first GW k-point: every table, whatever its spin and
    k-point, has its rows read at these bands. *)
Theorem print_qps_bands_of_first_kpoint (self : SigresReader K) (k0 : K) (rest : list K)
    (tables : list QPTable) :
  0 < rd_nsppol self ->
  rd_gwkpoints self = k0 :: rest ->
  print_qps self None None None = inr tables ->
  exists bs,
    gw_bands self 0 k0 = inr bs /\
    map table_key tables =
      flat_map (fun s => map (pair s) (rd_gwkpoints self)) (range2 0 (rd_nsppol self)) /\
    Forall (table_of_bands
              ["band"; "e0"; "qpe"; "qpe_diago"; "vxcme"; "sigxme"; "sigcmee0"; "vUme";
               "ze0"; "qpeme0"]%string bs) tables.
Proof.
  intros Hn Hk H. unfold print_qps in H.
  change (get_fields ["spin"; "kpoint"]%string)
    with (@inr pyexc _ ["band"; "e0"; "qpe"; "qpe_diago"; "vxcme"; "sigxme"; "sigcmee0";
                        "vUme"; "ze0"; "qpeme0"]%string) in H.
  cbn [py_bind] in H.
  set (header := ["band"; "e0"; "qpe"; "qpe_diago"; "vxcme"; "sigxme"; "sigcmee0"; "vUme";
                  "ze0"; "qpeme0"]%string) in *.
  rewrite (range2_cons _ Hn) in *. rewrite Hk in *.
  cbn [print_qps_spins print_qps_kpoints] in H.
  destruct (gw_bands self 0 k0) as [e|bs] eqn:Eb; cbn [py_bind] in H; [discriminate|].
  exists bs. split; [reflexivity|].
  destruct (py_for (fun band => read_qp KObject self 0 k0 band) bs) as [e|rows] eqn:Er;
    cbn [py_bind] in H; [discriminate|].
  destruct (print_qps_kpoints self header 0 rest (Some bs)) as [e|[t1 st1]] eqn:E1;
    cbn [py_bind fst snd] in H; [discriminate|].
  destruct (print_qps_kpoints_some self header 0 bs rest t1 st1 E1) as [H1 [H2 [H3 H4]]].
  assert (Hst : st1 = Some bs).
  { destruct rest; [apply H2; reflexivity|apply H1; discriminate]. }
  subst st1.
  destruct (print_qps_spins self header (range2 1 (rd_nsppol self)) (k0 :: rest) (Some bs))
    as [e|[t2 st2]] eqn:E2; cbn [py_bind fst snd] in H; [discriminate|].
  injection H as <-.
  destruct (print_qps_spins_some self header (k0 :: rest) bs _ t2 st2 E2) as [G1 [G2 G3]].
  split.
  - cbn [flat_map map app]. rewrite map_app, H3, G2. reflexivity.
  - constructor.
    + split; [reflexivity|]. cbn [tb_rows tb_spin tb_kpoint].
      apply (read_band_keys self 0 k0 bs rows Er).
    + apply Forall_app. split; assumption.
Qed.
End PrintQps.
Arguments QPTable : clear implicits.

(** The tables of the sample reader: the second GW k-point has the bands 2
    and 3, its table is read at the bands 1 and 2 of the first one. *)
Definition ex_tables : list (QPTable (Z * Z * Z)) :=
  Eval vm_compute in
    match print_qps ex_reader None None None with inr t => t | inl _ => [] end.

Lemma print_qps_bands_of_first_kpoint_witness :
  0 < rd_nsppol ex_reader /\
  rd_gwkpoints ex_reader = [(2, 0, 0); (0, 0, 0)] /\
  print_qps ex_reader None None None = inr ex_tables /\
  gw_bands ex_reader 0 (0, 0, 0) = inr [2; 3] /\
  exists bs,
    gw_bands ex_reader 0 (2, 0, 0) = inr bs /\
    map table_key ex_tables =
      flat_map (fun s => map (pair s) (rd_gwkpoints ex_reader))
               (range2 0 (rd_nsppol ex_reader)) /\
    Forall (table_of_bands
              ["band"; "e0"; "qpe"; "qpe_diago"; "vxcme"; "sigxme"; "sigcmee0"; "vUme";
               "ze0"; "qpeme0"]%string bs) ex_tables.
Proof.
  split; [reflexivity|]. split; [reflexivity|]. split; [vm_compute; reflexivity|].
  split; [vm_compute; reflexivity|].
  apply (print_qps_bands_of_first_kpoint ex_reader (2, 0, 0) [(0, 0, 0)] ex_tables).
  - reflexivity.
  - reflexivity.
  - vm_compute. reflexivity.
Defined.

(** * The scripts *)

(** ** run_phonons: to_vec and to_vecs *)

(** The value of an input variable: a list or a tuple, or anything else. *)
Inductive varvalue (A : Type) : Type :=
| VScalar (a : A)
| VList (l : list A).
Arguments VScalar {A} a.
Arguments VList {A} l.

Section ToVecs.
Context {A : Type}.

(** A dictionary of variables, keys in the order of their insertion;
    [d[key] = value] is [odict_set]. *)
Definition var_dict : Type := list (string * varvalue A).

(** [d[key]]: [None] stands for the KeyError. *)
Fixpoint dict_get (d : var_dict) (key : string) : option (varvalue A) :=
  match d with
  | [] => None
  | (k, v) :: rest => if String.eqb k key then Some v else dict_get rest key
  end.

(** [key in d.keys()] *)
Definition dict_has (d : var_dict) (key : string) : bool :=
  match dict_get d key with Some _ => true | None => false end.

(** [to_vec(var_dict, var)]; the dictionary after the call. *)
Definition to_vec (d : var_dict) (var : string) : pyres var_dict :=
  match dict_get d var with
  | None => inl (PyKeyError var)
  | Some tmp =>
      let tmp' := match tmp with
                  | VScalar a => VList [a; a; a]
                  | VList l => VList l
                  end in
      inr (odict_set d var tmp')
  end.

Definition vec_list : list string := ["ngkpt"; "acell"]%string.

Fixpoint to_vecs_loop (vars : list string) (d : var_dict) : pyres var_dict :=
  match vars with
  | [] => inr d
  | var :: rest =>
      if dict_has d var then
        try! d' := to_vec d var in
        to_vecs_loop rest d'
      else to_vecs_loop rest d
  end.

(** [to_vecs(var_dict)]; the dictionary after the call. *)
Definition to_vecs (d : var_dict) : pyres var_dict := to_vecs_loop vec_list d.

(** The value that [to_vecs] leaves under a key. *)
Definition vec_value (key : string) (v : varvalue A) : varvalue A :=
  match v with
  | VScalar a => if mem_string key vec_list then VList [a; a; a] else VScalar a
  | VList l => VList l
  end.

Lemma dict_get_set (d : var_dict) (key : string) (v : varvalue A) (key' : string) :
  dict_get (odict_set d key v) key' =
  if String.eqb key key' then Some v else dict_get d key'.
Proof.
  induction d as [|[k w] rest IH]; cbn [odict_set dict_get].
  - destruct (String.eqb key key'); reflexivity.
  - destruct (String.eqb k key) eqn:E; cbn [dict_get].
    + apply String.eqb_eq in E. subst k.
      destruct (String.eqb key key'); reflexivity.
    + destruct (String.eqb k key') eqn:E'.
      * apply String.eqb_eq in E'. subst k. rewrite String.eqb_sym, E. reflexivity.
      * exact IH.
Qed.

Lemma odict_set_same (d : var_dict) (key : string) (v : varvalue A) :
  dict_get d key = Some v -> odict_set d key v = d.
Proof.
  induction d as [|[k w] rest IH]; cbn [odict_set dict_get]; [discriminate|].
  destruct (String.eqb k key); intros H.
  - injection H as ->. reflexivity.
  - rewrite (IH H). reflexivity.
Qed.

Lemma odict_set_present_keys (d : var_dict) (key : string) (v w : varvalue A) :
  dict_get d key = Some w -> map fst (odict_set d key v) = map fst d.
Proof.
  induction d as [|[k u] rest IH]; cbn [odict_set dict_get]; [discriminate|].
  destruct (String.eqb k key); intros H; cbn [map fst].
  - reflexivity.
  - rewrite (IH H). reflexivity.
Qed.

(** One step of the loop of [to_vecs], which never raises. *)
Definition to_vec_if_present (d : var_dict) (var : string) : var_dict :=
  match dict_get d var with
  | Some (VScalar a) => odict_set d var (VList [a; a; a])
  | _ => d
  end.

Lemma to_vecs_loop_steps (vars : list string) :
  forall d, to_vecs_loop vars d = inr (fold_left to_vec_if_present vars d).
Proof.
  induction vars as [|var rest IH]; intros d; cbn [to_vecs_loop fold_left]; [reflexivity|].
  unfold dict_has, to_vec, to_vec_if_present.
  destruct (dict_get d var) as [[a|l]|] eqn:E; cbn [py_bind]; rewrite IH; try reflexivity.
  rewrite (odict_set_same d var (VList l) E). reflexivity.
Qed.

Lemma to_vec_if_present_keys (d : var_dict) (var : string) :
  map fst (to_vec_if_present d var) = map fst d.
Proof.
  unfold to_vec_if_present. destruct (dict_get d var) as [[a|l]|] eqn:E; try reflexivity.
  apply (odict_set_present_keys d var _ _ E).
Qed.

Lemma to_vec_if_present_get (d : var_dict) (var key : string) :
  dict_get (to_vec_if_present d var) key =
  match dict_get d key with
  | Some (VScalar a) => Some (if String.eqb var key then VList [a; a; a] else VScalar a)
  | other => other
  end.
Proof.
  unfold to_vec_if_present. destruct (dict_get d var) as [[a|l]|] eqn:E.
  - rewrite dict_get_set. destruct (String.eqb var key) eqn:Ek.
    + apply String.eqb_eq in Ek. subst key. rewrite E. reflexivity.
    + destruct (dict_get d key) as [[b|m]|]; reflexivity.
  - destruct (String.eqb var key) eqn:Ek.
    + apply String.eqb_eq in Ek. subst key. rewrite E. reflexivity.
    + destruct (dict_get d key) as [[b|m]|]; reflexivity.
  - destruct (String.eqb var key) eqn:Ek.
    + apply String.eqb_eq in Ek. subst key. rewrite E. reflexivity.
    + destruct (dict_get d key) as [[b|m]|]; reflexivity.
Qed.

Lemma to_vec_if_present_fixed (d : var_dict) (var : string) :
  (forall a, dict_get d var <> Some (VScalar a)) -> to_vec_if_present d var = d.
Proof.
  intros H. unfold to_vec_if_present.
  destruct (dict_get d var) as [[a|l]|] eqn:E; try reflexivity.
  destruct (H a). reflexivity.
Qed.

(** [to_vecs] never raises.  It keeps the keys and their order; under
    ngkpt and acell a value that is neither a list nor a tuple is replaced
    by the list of three copies of it, every other value is kept.  A second
    call changes nothing. *)
Theorem to_vecs_spec (d : var_dict) :
  exists d',
    to_vecs d = inr d' /\
    map fst d' = map fst d /\
    (forall key, dict_get d' key = option_map (vec_value key) (dict_get d key)) /\
    to_vecs d' = inr d'.
Proof.
  unfold to_vecs, vec_list. rewrite to_vecs_loop_steps. cbn [fold_left].
  set (d1 := to_vec_if_present d "ngkpt").
  set (d2 := to_vec_if_present d1 "acell").
  exists d2. split; [reflexivity|].
  assert (Hget : forall key, dict_get d2 key = option_map (vec_value key) (dict_get d key)).
  { intros key. unfold d2, d1. rewrite !to_vec_if_present_get.
    unfold vec_value, vec_list.
    destruct (dict_get d key) as [[a|l]|]; cbn [option_map]; try reflexivity.
    destruct (String.eqb_spec "ngkpt" key) as [<-|N1]; [reflexivity|].
    destruct (String.eqb_spec "acell" key) as [<-|N2]; [reflexivity|].
    assert (M : mem_string key ["ngkpt"; "acell"]%string = false).
    { apply mem_string_false. intros [E|[E|[]]]; congruence. }
    rewrite M. reflexivity. }
  split; [|split].
  - unfold d2, d1. rewrite !to_vec_if_present_keys. reflexivity.
  - exact Hget.
  - rewrite to_vecs_loop_steps. cbn [fold_left]. f_equal.
    assert (H1 : to_vec_if_present d2 "ngkpt" = d2).
    { apply to_vec_if_present_fixed. intros a. rewrite Hget.
      destruct (dict_get d "ngkpt") as [[b|m]|]; cbn; discriminate. }
    rewrite H1. apply to_vec_if_present_fixed. intros a. rewrite Hget.
    destruct (dict_get d "acell") as [[b|m]|]; cbn; discriminate.
Qed.
End ToVecs.

(** ** scr_rpa: the numbers of MPI processes *)

(** The list that [build_flow] computes for [nband] when no list is given:
    [[np for np in range(1, nband+1) if abs((nband - 28) % np) < 1]]. *)
Definition mpi_list (nband : Z) : list Z :=
  filter (fun np => Z.abs ((nband - 28) mod np) <? 1) (range2 1 (nband + 1)).

Lemma range2_In (a b x : Z) : In x (range2 a b) <-> a <= x < b.
Proof.
  unfold range2. rewrite in_map_iff. split.
  - intros [i [<- Hi]]. apply in_seq in Hi. lia.
  - intros H. exists (Z.to_nat (x - a)). split; [lia|]. apply in_seq. lia.
Qed.

Lemma range2_sorted (a b : Z) : StronglySorted Z.lt (range2 a b).
Proof.
  unfold range2. generalize (Z.to_nat (b - a)) as n. intros n. revert a.
  induction n as [|n IH]; intros a; cbn [seq map]; [constructor|].
  rewrite <- seq_shift, map_map. constructor.
  - erewrite map_ext; [apply (IH (a + 1))|]. intros i. cbn beta. lia.
  - apply Forall_forall. intros x Hx. apply in_map_iff in Hx.
    destruct Hx as [i [<- _]]. lia.
Qed.

Lemma filter_sorted {A : Type} (R : A -> A -> Prop) (p : A -> bool) (l : list A) :
  StronglySorted R l -> StronglySorted R (filter p l).
Proof.
  induction 1 as [|x l Hs IH Hx]; cbn [filter]; [constructor|].
  destruct (p x); [|exact IH]. constructor; [exact IH|].
  apply Forall_forall. intros y Hy. apply filter_In in Hy.
  rewrite Forall_forall in Hx. apply Hx. apply Hy.
Qed.

(** The numbers of MPI processes tried for [nband] bands are the divisors
    of [nband - 28] between 1 and [nband], in ascending order. *)
Theorem mpi_list_divisors (nband : Z) :
  (forall p, In p (mpi_list nband) <-> 1 <= p <= nband /\ (p | nband - 28)) /\
  StronglySorted Z.lt (mpi_list nband).
Proof.
  split.
  - intros p. unfold mpi_list. rewrite filter_In, range2_In. split.
    + intros [Hr Hm]. split; [lia|]. apply Z.ltb_lt in Hm.
      apply Z.mod_divide; [lia|]. lia.
    + intros [Hr Hd]. split; [lia|]. apply Z.ltb_lt.
      apply Z.mod_divide in Hd; [|lia]. rewrite Hd. reflexivity.
  - apply filter_sorted, range2_sorted.
Qed.
